(** * Markdown-table extraction and normalisation of [pages/agentic_rag.py]

    The development embeds the two parsing functions of the dashboard,
    [extract_markdown_table] and [parse_portfolio_table], together with the
    parts of Python's [str] and of pandas they call, and proves the
    properties the specification states about them.  It then embeds the
    code around them (the handler that calls them, the computing parts of
    [plot_portfolio_interactive], [get_portfolio_description]) and proves
    further properties of the whole.

    Modelling choices.
    - A Python [str] is a sequence of Unicode code points: [Py.str] is
      [list N].  Literals are written [lit "..."] (ASCII only); other code
      points are given by number.
    - Exceptions are explicit: a computation that may raise has type
      [result A], with [Raise e] for a raised exception.
    - pandas is a library, not code of the repository.  The calls the source
      makes ([read_csv] with [sep="|"] and [skipinitialspace=True],
      [to_numeric] with [errors='coerce'], [dropna], ...) are modelled in
      [Module Pandas] after the documented behaviour of the C tokenizer and
      of the numeric parser.
    - Floating point: a number read from a cell is kept as a reduced
      rational, or as one of the two infinities.  The numeral is read as
      the numeric parser of pandas reads it, seventeen digits and a power
      of ten, and it is no number when the power of ten or the value is
      beyond binary64; the arithmetic is exact, so that rounding to
      binary64 is outside the model.
    - Column types: the model keeps the cells of a frame as the fields
      read, and does not represent the type pandas chooses for a column
      (see [read_csv]). *)

From Stdlib Require Import List NArith ZArith QArith Bool Lia.
From Stdlib Require Ascii String DecimalString DecimalNat.
Import ListNotations.
Import String.StringSyntax.
Delimit Scope string_scope with string.
Close Scope Q_scope.

Set Implicit Arguments.

(* ================================================================== *)
(** * Exceptions *)

Inductive exn : Type :=
| ValueError
| IndexError
| AttributeError
| EmptyDataError
| ParserError.

Inductive result (A : Type) : Type :=
| Ok (a : A)
| Raise (e : exn).

Arguments Ok {A} a.
Arguments Raise {A} e.

Definition bind {A B : Type} (m : result A) (k : A -> result B) : result B :=
  match m with
  | Ok a => k a
  | Raise e => Raise e
  end.

Notation "x <- m ;; k" := (bind m (fun x => k))
  (at level 61, m at next level, right associativity).

Definition returns {A : Type} (m : result A) : Prop := exists a, m = Ok a.

(* ================================================================== *)
(** * Python strings *)

Module Py.

Definition char := N.
Definition str := list char.

Definition lit (s : String.string) : str :=
  map Ascii.N_of_ascii (String.list_ascii_of_string s).

Arguments lit s%_string.

Definition LF : char := 10%N.
Definition CR : char := 13%N.
Definition TAB : char := 9%N.
Definition SPACE : char := 32%N.
Definition QUOTE : char := 34%N.
Definition PERCENT : char := 37%N.
Definition COMMA : char := 44%N.
Definition DASH : char := 45%N.
Definition PIPE : char := 124%N.

Definition char_in (c : char) (cs : list char) : bool := existsb (N.eqb c) cs.

Fixpoint str_eqb (a b : str) : bool :=
  match a, b with
  | [], [] => true
  | x :: a', y :: b' => N.eqb x y && str_eqb a' b'
  | _, _ => false
  end.

(** Line boundaries recognised by [str.splitlines]. *)
Definition is_linebreak (c : char) : bool :=
  char_in c [10; 11; 12; 13; 28; 29; 30; 133; 8232; 8233]%N.

(** [str.isspace] for one code point: what [str.strip] removes. *)
Definition is_space (c : char) : bool :=
  ((9 <=? c) && (c <=? 13) || (28 <=? c) && (c <=? 32)
   || (8192 <=? c) && (c <=? 8202)
   || char_in c [133; 160; 5760; 8232; 8233; 8239; 8287; 12288])%N.

(** [s.splitlines()]: [cur] is the current line, reversed.  A carriage
    return followed by a line feed is one boundary; a final boundary opens
    no further line. *)
Fixpoint splitlines_from (s : str) (cur : str) : list str :=
  match s with
  | [] => match cur with [] => [] | _ => [rev cur] end
  | c :: s' =>
      if is_linebreak c then
        rev cur ::
          (if N.eqb c CR then
             match s' with
             | d :: s'' => if N.eqb d LF then splitlines_from s'' []
                           else splitlines_from s' []
             | [] => splitlines_from s' []
             end
           else splitlines_from s' [])
      else splitlines_from s' (c :: cur)
  end.

Definition splitlines (s : str) : list str := splitlines_from s [].

Fixpoint dropwhile (p : char -> bool) (s : str) : str :=
  match s with
  | [] => []
  | c :: s' => if p c then dropwhile p s' else s
  end.

Definition lstrip (s : str) : str := dropwhile is_space s.
Definition rstrip (s : str) : str := rev (dropwhile is_space (rev s)).
Definition strip (s : str) : str := rstrip (lstrip s).

(** [sep.join(parts)] *)
Fixpoint join (sep : str) (parts : list str) : str :=
  match parts with
  | [] => []
  | [p] => p
  | p :: rest => p ++ sep ++ join sep rest
  end.

(** [c in s] for a one-character [c]. *)
Definition contains_char (c : char) (s : str) : bool := existsb (N.eqb c) s.

(** [s.replace(c, '')] for a one-character [c]. *)
Definition remove_char (c : char) (s : str) : str :=
  filter (fun x => negb (N.eqb x c)) s.

Fixpoint startswith (s pre : str) : bool :=
  match pre, s with
  | [], _ => true
  | p :: pre', c :: s' => N.eqb c p && startswith s' pre'
  | _ :: _, [] => false
  end.

(** [sub in s] *)
Fixpoint contains (sub s : str) : bool :=
  startswith s sub ||
  match s with
  | [] => false
  | _ :: s' => contains sub s'
  end.

(** [s.split(sep)] for a non-empty [sep]: occurrences are taken left to
    right and do not overlap.  [skip] counts the characters of a matched
    separator still to be passed over; [cur] is the current piece,
    reversed. *)
Fixpoint split_from (sep s : str) (skip : nat) (cur : str) : list str :=
  match s with
  | [] => [rev cur]
  | c :: s' =>
      match skip with
      | S k => split_from sep s' k cur
      | O =>
          if startswith s sep
          then rev cur :: split_from sep s' (length sep - 1) []
          else split_from sep s' 0 (c :: cur)
      end
  end.

Definition split (s sep : str) : result (list str) :=
  match sep with
  | [] => Raise ValueError
  | _ => Ok (split_from sep s 0 [])
  end.

(** [xs[i]] *)
Definition index {A : Type} (xs : list A) (i : nat) : result A :=
  match nth_error xs i with
  | Some x => Ok x
  | None => Raise IndexError
  end.

(** [s.lower()] on the ASCII letters.  Python also maps cased letters
    outside ASCII; those mappings neither produce nor remove a run of the
    ASCII letters tested for below (the only mappings into ASCII are
    U+212A to [k] and U+0130 to [i] followed by U+0307), so the keyword
    test is the same with either. *)
Definition lower_char (c : char) : char :=
  if ((65 <=? c) && (c <=? 90))%N then (c + 32)%N else c.

Definition lower (s : str) : str := map lower_char s.

End Py.

Import Py.

(* ================================================================== *)
(** * [extract_markdown_table] *)

Definition has_pipe (line : str) : bool := contains_char PIPE line.
Definition is_blank (line : str) : bool := str_eqb (strip line) [].

(** The [for] loop of the function, with its two variables [table_lines]
    and [in_table]; the result is [table_lines] when the loop ends, by
    exhaustion or by [break]. *)
Fixpoint collect (lines : list str) (table_lines : list str) (in_table : bool)
  : list str :=
  match lines with
  | [] => table_lines
  | line :: rest =>
      if has_pipe line then collect rest (table_lines ++ [line]) true
      else if in_table && is_blank line then table_lines
      else collect rest table_lines in_table
  end.

Definition extract_markdown_table (answer : str) : result (option str * str) :=
  let lines := splitlines answer in
  let table_lines := collect lines [] false in
  match table_lines with
  | [] => Ok (None, answer)
  | _ =>
      let table_md := join [LF] table_lines in
      parts <- split answer table_md ;;
      first <- index parts 0 ;;
      let pre := strip first in
      post <- (if contains table_md answer
               then parts' <- split answer table_md ;;
                    second <- index parts' 1 ;;
                    Ok (strip second)
               else Ok []) ;;
      Ok (Some table_md, pre ++ [LF; LF] ++ post)
  end.

(* ================================================================== *)
(** * pandas *)

Module Pandas.

(** ** The tokenizer of [read_csv]

    The reader is called with [sep="|"] and [skipinitialspace=True]; the
    other options keep their defaults: the quote character is the double
    quote, a doubled quote inside a quoted field stands for one quote,
    blank lines are skipped, there is no escape or comment character.

    The text handed to the reader is a join, by line feeds, of lines that
    [str.splitlines] produced: it holds no carriage return, so the line
    feed is the only record terminator and the tokenizer's carriage-return
    states are left out. *)

Inductive tstate : Type :=
| START_RECORD
| WHITESPACE_LINE
| START_FIELD
| IN_FIELD
| IN_QUOTED_FIELD
| QUOTE_IN_QUOTED_FIELD.

Definition is_blank_char (c : char) : bool := N.eqb c SPACE || N.eqb c TAB.

(** The rest of the current line holds spaces and tabs only. *)
Fixpoint whitespace_line (s : str) : bool :=
  match s with
  | [] => true
  | c :: s' => N.eqb c LF || (is_blank_char c && whitespace_line s')
  end.

Definition end_field (field : str) (fields : list str) : list str :=
  rev field :: fields.

Definition end_line (fields : list str) : list str := rev fields.

Definition emit (record : list str) (rest : result (list (list str)))
  : result (list (list str)) :=
  records <- rest ;; Ok (record :: records).

(** [field] is the field being read and [fields] the fields of the
    current record, both reversed.  A record that starts with a space or a
    tab is first scanned as a whitespace line; the tokenizer backtracks to
    its start when it meets another character, which the look-ahead
    [whitespace_line] decides at once. *)
Fixpoint tokenize (s : str) (st : tstate) (field : str) (fields : list str)
  : result (list (list str)) :=
  match s with
  | [] =>
      match st with
      | START_RECORD | WHITESPACE_LINE => Ok []
      | IN_QUOTED_FIELD => Raise ParserError
      | START_FIELD | IN_FIELD | QUOTE_IN_QUOTED_FIELD =>
          Ok [end_line (end_field field fields)]
      end
  | c :: s' =>
      let start_field (_ : unit) :=
        if N.eqb c LF then
          emit (end_line (end_field field fields)) (tokenize s' START_RECORD [] [])
        else if N.eqb c QUOTE then tokenize s' IN_QUOTED_FIELD field fields
        else if N.eqb c SPACE then tokenize s' START_FIELD field fields
        else if N.eqb c PIPE then
          tokenize s' START_FIELD [] (end_field field fields)
        else tokenize s' IN_FIELD (c :: field) fields in
      match st with
      | START_RECORD =>
          if N.eqb c LF then tokenize s' START_RECORD [] []
          else if is_blank_char c && whitespace_line s'
          then tokenize s' WHITESPACE_LINE [] []
          else start_field tt
      | WHITESPACE_LINE =>
          if N.eqb c LF then tokenize s' START_RECORD [] []
          else tokenize s' WHITESPACE_LINE [] []
      | START_FIELD => start_field tt
      | IN_FIELD =>
          if N.eqb c LF then
            emit (end_line (end_field field fields)) (tokenize s' START_RECORD [] [])
          else if N.eqb c PIPE then
            tokenize s' START_FIELD [] (end_field field fields)
          else tokenize s' IN_FIELD (c :: field) fields
      | IN_QUOTED_FIELD =>
          if N.eqb c QUOTE then tokenize s' QUOTE_IN_QUOTED_FIELD field fields
          else tokenize s' IN_QUOTED_FIELD (c :: field) fields
      | QUOTE_IN_QUOTED_FIELD =>
          if N.eqb c QUOTE then tokenize s' IN_QUOTED_FIELD (c :: field) fields
          else if N.eqb c PIPE then
            tokenize s' START_FIELD [] (end_field field fields)
          else if N.eqb c LF then
            emit (end_line (end_field field fields)) (tokenize s' START_RECORD [] [])
          else tokenize s' IN_FIELD (c :: field) fields
      end
  end.

(** ** Field counts

    The first record is the header.  The first data record may be longer
    than the header: the surplus leading fields become the row index.  A
    later record longer than the one before it is an error; a shorter one
    is completed with empty fields. *)

Definition pad (width : nat) (record : list str) : list str :=
  record ++ repeat [] (width - length record).

Record table : Type := {
  header : list str;
  leading_cols : nat;
  body : list (list str)
}.

Definition read_table (s : str) : result table :=
  records <- tokenize s START_RECORD [] [] ;;
  match records with
  | [] => Raise EmptyDataError
  | hd :: data =>
      match data with
      | [] => Ok {| header := hd; leading_cols := 0; body := [] |}
      | first :: later =>
          let width := Nat.max (length hd) (length first) in
          if existsb (fun r => width <? length r) later
          then Raise ParserError
          else Ok {| header := hd;
                     leading_cols := width - length hd;
                     body := map (pad width) data |}
      end
  end.

(** ** Column names *)

Definition str_of_nat (n : nat) : str :=
  lit (DecimalString.NilZero.string_of_uint (Nat.to_uint n)).

Definition str_in (x : str) (xs : list str) : bool := existsb (str_eqb x) xs.

Fixpoint update {A : Type} (xs : list A) (i : nat) (x : A) : list A :=
  match xs, i with
  | [], _ => []
  | _ :: xs', O => x :: xs'
  | y :: xs', S i' => y :: update xs' i' x
  end.

(** An empty name becomes [Unnamed: i]. *)
Fixpoint name_columns (i : nat) (names : list str) : list str :=
  match names with
  | [] => []
  | n :: rest =>
      (match n with [] => lit "Unnamed: " ++ str_of_nat i | _ => n end)
        :: name_columns (S i) rest
  end.

Fixpoint indices_where (p : str -> bool) (i : nat) (names : list str) : list nat :=
  match names with
  | [] => []
  | n :: rest =>
      if p n then i :: indices_where p (S i) rest
      else indices_where p (S i) rest
  end.

Definition is_empty (s : str) : bool := match s with [] => true | _ => false end.

(** The suffix tried for a repeated name: the first [old.k], from [k]
    upwards, that is not a name of the header. *)
Fixpoint free_name (fuel : nat) (old : str) (k : nat) (this_header : list str)
  : str * nat :=
  let col := old ++ lit "." ++ str_of_nat k in
  match fuel with
  | O => (col, k)
  | S fuel' =>
      if str_in col this_header then free_name fuel' old (S k) this_header
      else (col, k)
  end.

Fixpoint count_of (counts : list (str * nat)) (name : str) : nat :=
  match counts with
  | [] => 0
  | (n, c) :: rest => if str_eqb n name then c else count_of rest name
  end.

(** Repeated names are made distinct (pandas 2): names given in the
    header are treated before the generated [Unnamed] ones. *)
Fixpoint mangle (order : list nat) (this_header : list str)
    (counts : list (str * nat)) : list str :=
  match order with
  | [] => this_header
  | i :: order' =>
      let old := nth i this_header [] in
      match count_of counts old with
      | O => mangle order' this_header ((old, 1) :: counts)
      | S _ as cur =>
          let '(col, k) := free_name (length this_header) old cur this_header in
          mangle order' (update this_header i col)
                 ((col, 1) :: (old, S k) :: counts)
      end
  end.

Definition column_names (hd : list str) : list str :=
  let order := indices_where (fun n => negb (is_empty n)) 0 hd
               ++ indices_where is_empty 0 hd in
  mangle order (name_columns 0 hd) [].

(** ** Frames

    A frame is kept row by row; every row has one cell per column. *)

Record DataFrame (A : Type) : Type := {
  columns : list str;
  rows : list (list A)
}.

Arguments columns {A} d.
Arguments rows {A} d.

(** Fields read as missing values. *)
Definition na_values : list str :=
  [ []; lit "#N/A"; lit "#N/A N/A"; lit "#NA"; lit "-1.#IND";
    lit "-1.#QNAN"; lit "-NaN"; lit "-nan"; lit "1.#IND"; lit "1.#QNAN";
    lit "<NA>"; lit "N/A"; lit "NA"; lit "NULL"; lit "NaN"; lit "None";
    lit "n/a"; lit "nan"; lit "null" ].

(** A cell as read: the text of the field, or [None] for a missing
    value. *)
Definition read_cell (field : str) : option str :=
  if str_in field na_values then None else Some field.

(** [pd.read_csv(StringIO(s), sep="|", skipinitialspace=True)].  The
    leading index columns are left out: the source discards the index in
    its last step ([reset_index(drop=True)]) and never reads it.

    Cells are kept as the reader's fields, text or missing.  pandas then
    chooses a type for each column, and a column whose cells are all
    numerals or missing becomes a column of numbers: this is not
    represented, and the model keeps the text of such cells.  What is
    proved of a text cell therefore holds of the cells of the columns
    that pandas leaves as text.  The weight column is written as text
    again by [astype(str)] before it is converted; the theorems on the
    text of a table that name its values do so for numerals of fifteen
    digits at most without exponent, which are the same number on both
    ways. *)
Definition read_csv (s : str) : result (DataFrame (option str)) :=
  t <- read_table s ;;
  Ok {| columns := column_names (header t);
        rows := map (fun r => map read_cell (skipn (leading_cols t) r)) (body t) |}.

(** [df.loc[:, ~mask]] on one row, or on the column names. *)
Fixpoint drop_masked {A : Type} (mask : list bool) (xs : list A) : list A :=
  match mask, xs with
  | m :: mask', x :: xs' =>
      if m then drop_masked mask' xs' else x :: drop_masked mask' xs'
  | _, _ => []
  end.

(** ** Numbers

    [pd.to_numeric(..., errors='coerce')] on a column of strings.  A
    string is a number when, between optional ASCII white space, it is an
    optional sign, digits with an optional decimal point (one digit at
    least), and an optional exponent, and binary64 holds its value; or
    when it spells an infinity.

    The numeral is read as pandas' routine [precise_xstrtod] reads it.
    The routine takes seventeen digits into the mantissa, counted from
    the first digit written: further digits of the integer part count as
    powers of ten, further digits of the fraction are passed over.  It
    refuses a power of ten above 308, and a product that binary64 holds
    as an infinity.  The model computes the same value with exact
    arithmetic: the rounding of the mantissa, of the power of ten and of
    their product to binary64 is outside it.  A number is its value:
    whether pandas holds the numbers of a column as integers (when all
    of them are written as whole numbers) or as floats is not
    represented, and a numeral of more than seventeen digits has the
    value the routine gives it, which is its own up to that rounding. *)

Inductive number : Type :=
| Finite (q : Q)
| Infinity (negative : bool).

Definition is_digit (c : char) : bool := ((48 <=? c) && (c <=? 57))%N.

Definition is_space_ascii (c : char) : bool :=
  (N.eqb c 32 || (9 <=? c) && (c <=? 13))%N.

Fixpoint span_digits (s : str) : str * str :=
  match s with
  | [] => ([], [])
  | c :: s' =>
      if is_digit c
      then let '(ds, rest) := span_digits s' in (c :: ds, rest)
      else ([], s)
  end.

Definition digits_value (ds : str) : Z :=
  fold_left (fun acc c => (acc * 10 + (Z.of_N c - 48))%Z) ds 0%Z.

Definition take_sign (s : str) : bool * str :=
  match s with
  | c :: s' =>
      if N.eqb c 45 then (true, s')
      else if N.eqb c 43 then (false, s')
      else (false, s)
  | [] => (false, s)
  end.

(** The value [m * 10 ^ e], reduced. *)
Definition decimal (m e : Z) : Q :=
  Qred (if (0 <=? e)%Z then inject_Z (m * 10 ^ e)
        else Qmake m (Z.to_pos (10 ^ (- e)))).

(** [max_digits] of the routine: the digits it takes in, of the mantissa
    and of the exponent. *)
Definition max_digits : nat := 17.

(** The exponent part: [e] or [E], an optional sign, and digits.  Without
    a digit the routine steps back to the letter, which is then left
    over; digits beyond the seventeenth are left over as well. *)
Definition parse_exponent (s : str) : option (Z * str) :=
  match s with
  | c :: s' =>
      if N.eqb c 101 || N.eqb c 69 then
        let '(negative, s1) := take_sign s' in
        let '(ds, s2) := span_digits s1 in
        match ds with
        | [] => None
        | _ =>
            if max_digits <? length ds then None
            else Some (if negative then (- digits_value ds)%Z
                       else digits_value ds, s2)
        end
      else Some (0%Z, s)
  | [] => Some (0%Z, s)
  end.

(** Whether [m * 10 ^ e], with [e] above zero, is held as an infinity:
    the values from [2 ^ 1024 - 2 ^ 970] on are, the midpoint between the
    greatest number of binary64 and the power of two after it. *)
Definition overflows (m e : Z) : bool :=
  ((0 <? e) && (2 ^ 1024 - 2 ^ 970 <=? Z.abs m * 10 ^ e))%Z.

Definition parse_float (s : str) : option Q :=
  let s0 := dropwhile is_space_ascii s in
  let '(negative, s1) := take_sign s0 in
  let '(ip, s2) := span_digits s1 in
  let '(fp, s3) :=
    match s2 with
    | c :: s' => if N.eqb c 46 then span_digits s' else ([], s2)
    | [] => ([], s2)
    end in
  let int_digits := firstn max_digits ip in
  let dec_digits := firstn (max_digits - length int_digits) fp in
  match int_digits ++ dec_digits with
  | [] => None
  | ds =>
      match parse_exponent s3 with
      | None => None
      | Some (ex, s4) =>
          match dropwhile is_space_ascii s4 with
          | [] =>
              let m := digits_value ds in
              let exponent :=
                (Z.of_nat (length ip - length int_digits)
                 - Z.of_nat (length dec_digits) + ex)%Z in
              if (308 <? exponent)%Z || overflows m exponent then None
              else if (exponent <? -616)%Z then Some (inject_Z 0)
              else Some (decimal (if negative then (- m)%Z else m) exponent)
          | _ => None
          end
      end
  end.

Definition to_numeric (s : str) : option number :=
  match s with
  | [] => None
  | _ =>
      match parse_float s with
      | Some q => Some (Finite q)
      | None =>
          let l := lower s in
          if str_in l [lit "inf"; lit "+inf"; lit "infinity"; lit "+infinity"]
          then Some (Infinity false)
          else if str_in l [lit "-inf"; lit "-infinity"]
          then Some (Infinity true)
          else None
      end
  end.

(** A cell of the result: text, a number, or a missing value. *)
Inductive cell : Type :=
| Text (s : str)
| Number (x : number)
| NaN.

Definition keep (c : option str) : cell :=
  match c with
  | Some s => Text s
  | None => NaN
  end.

(** [astype(str)] on a cell as read. *)
Definition astype_str (c : option str) : str :=
  match c with
  | Some s => s
  | None => lit "nan"
  end.

Definition of_number (x : option number) : cell :=
  match x with
  | Some n => Number n
  | None => NaN
  end.

Definition is_nan (c : cell) : bool :=
  match c with
  | NaN => true
  | _ => false
  end.

End Pandas.

Import Pandas.

(* ================================================================== *)
(** * [parse_portfolio_table] *)

(** [set(line.replace('|', '').replace(' ', '')) <= {'-'}] *)
Definition decorative (line : str) : bool :=
  forallb (N.eqb DASH) (remove_char SPACE (remove_char PIPE line)).

Definition keywords : list str :=
  [lit "weight"; [48708; 51473]%N; lit "ratio"].

(** [any(keyword in c.lower() for keyword in [...])] *)
Definition is_weight_name (c : str) : bool :=
  existsb (fun keyword => contains keyword (lower c)) keywords.

(** The loop that looks for the weight column; [None] when it ends
    without a [break]. *)
Fixpoint find_weight_col (cols : list str) : option str :=
  match cols with
  | [] => None
  | c :: rest => if is_weight_name c then Some c else find_weight_col rest
  end.

Fixpoint position (name : str) (cols : list str) : nat :=
  match cols with
  | [] => 0
  | c :: rest => if str_eqb c name then 0 else S (position name rest)
  end.

Definition occurrences (name : str) (cols : list str) : nat :=
  length (filter (str_eqb name) cols).

(** [astype(str).str.replace('%', '').str.replace(',', '')] followed by
    [pd.to_numeric(..., errors='coerce')], on one cell. *)
Definition weight_cell (c : option str) : cell :=
  of_number (to_numeric (remove_char COMMA (remove_char PERCENT (astype_str c)))).

(** One row after the two assignments to [df[weight_col]]; [w] is the
    position of the column. *)
Fixpoint convert_row (w : nat) (row : list (option str)) : list cell :=
  match row with
  | [] => []
  | c :: rest =>
      match w with
      | O => weight_cell c :: map keep rest
      | S w' => keep c :: convert_row w' rest
      end
  end.

(** [df.dropna(subset=[weight_col])] *)
Definition dropna (w : nat) (rs : list (list cell)) : list (list cell) :=
  filter (fun r => negb (is_nan (nth w r NaN))) rs.

(** [clean_lines]: the lines of [table_md.strip().splitlines()] that are
    not decorative; [clean_table_md]: their join by line feeds. *)
Definition clean_lines (table_md : str) : list str :=
  filter (fun line => negb (decorative line)) (splitlines (strip table_md)).

Definition clean_table_md (table_md : str) : str :=
  join [LF] (clean_lines table_md).

(** [df.columns.str.contains('^Unnamed')] *)
Definition unnamed_mask (df : DataFrame (option str)) : list bool :=
  map (fun c => startswith c (lit "Unnamed")) (columns df).

(** The column names after the [Unnamed] columns are left out and the
    names are stripped, and the rows of the columns that remain. *)
Definition frame_columns (df : DataFrame (option str)) : list str :=
  map strip (drop_masked (unnamed_mask df) (columns df)).

Definition frame_rows (df : DataFrame (option str)) : list (list (option str)) :=
  map (drop_masked (unnamed_mask df)) (rows df).

(** The body of the [try] block.  [df[weight_col]] is a frame, not a
    column, when the name occurs more than once, and a frame has no
    [str] accessor: the first assignment raises [AttributeError]. *)
Definition parse_portfolio_table_body (table_md : str)
  : result (option (DataFrame cell)) :=
  df <- read_csv (clean_table_md table_md) ;;
  let cols := frame_columns df in
  match find_weight_col cols with
  | None => Ok None
  | Some weight_col =>
      if 1 <? occurrences weight_col cols then Raise AttributeError
      else
        let w := position weight_col cols in
        Ok (Some {| columns := cols;
                    rows := dropna w (map (convert_row w) (frame_rows df)) |})
  end.

(** [try: ... except Exception: ...] *)
Definition try_except {A : Type} (body : result A) (handler : exn -> result A)
  : result A :=
  match body with
  | Ok a => Ok a
  | Raise e => handler e
  end.

(** The [except] clause reports the error on the page ([st.error]) and
    returns [None]. *)
Definition parse_portfolio_table (table_md : str)
  : result (option (DataFrame cell)) :=
  try_except (parse_portfolio_table_body table_md) (fun _ => Ok None).

(* ================================================================== *)
(** * [render_agentic_rag_tab]: the recommendation on the page

    The handler of the recommendation button hands the answer of the
    model to the two functions above and shows the result.  What it puts
    on the page is kept as a list, in the order of the calls: the notice
    of success, the explanation in its expander when it is not the empty
    string, and, when a block was found, the charts of the table or the
    message of failure.  [plot_portfolio_interactive] draws with plotly
    and is not entered here: its call is one element of the list.  The
    message that [parse_portfolio_table] itself shows in its [except]
    clause is an element too. *)

Inductive shown : Type :=
| Success
| Explanation (text : str)
| ParsingError (e : exn)
| Charts (df : DataFrame cell)
| ParsingFailed.

(** What [parse_portfolio_table] shows on the page: the error caught by
    its [except] clause, if any. *)
Definition parse_reports (table_md : str) : list shown :=
  match parse_portfolio_table_body table_md with
  | Raise e => [ParsingError e]
  | Ok _ => []
  end.

(** The lines from [extract_markdown_table(answer)] to the end of the
    [try] block. *)
Definition render_recommendation (answer : str) : result (list shown) :=
  r <- extract_markdown_table answer ;;
  let '(table_md, explanation) := r in
  let page :=
    Success :: (if is_empty explanation then [] else [Explanation explanation]) in
  match table_md with
  | None => Ok page
  | Some table_md =>
      if is_empty table_md then Ok page
      else
        df <- parse_portfolio_table table_md ;;
        Ok (page ++ parse_reports table_md
            ++ match df with
               | Some df => [Charts df]
               | None => [ParsingFailed]
               end)
  end.

(* ================================================================== *)
(** * [plot_portfolio_interactive]

    Of the function that draws the charts, the parts that compute are
    embedded: the choice of the columns, the matrix of the correlation
    heat map and the translation of the country names. *)

(** ** The columns of the charts *)

(** [weight_cols]: the columns whose name, in lower case, holds one of
    the three keywords of [parse_portfolio_table]. *)
Definition weight_cols (cols : list str) : list str :=
  filter is_weight_name cols.

(** [ticker_col] and [weight_col]: the first column, and the first
    column with a weight name or else the second column. *)
Definition chart_columns (cols : list str) : result (str * str) :=
  ticker_col <- index cols 0 ;;
  weight_col <- match weight_cols cols with
                | [] => index cols 1
                | _ :: _ => index (weight_cols cols) 0
                end ;;
  Ok (ticker_col, weight_col).

(** ** The correlation matrix

    The entries are floating-point numbers that are stored and never
    computed with: their type is left open, with the two values of
    [np.eye].  [uniform k] is the value of the call of
    [np.random.uniform(-0.3, 0.9)] that [k] calls precede since the
    generator was seeded. *)

Section Correlation.

Variable float : Type.
Variables zero one : float.
Variable uniform : nat -> float.

Definition matrix : Type := list (list float).

(** [np.eye(n)] *)
Definition eye (n : nat) : matrix :=
  map (fun i => map (fun j => if i =? j then one else zero) (seq 0 n))
      (seq 0 n).

(** [m[i, j] = v]; an index out of range raises [IndexError]. *)
Definition setitem (m : matrix) (i j : nat) (v : float) : result matrix :=
  match nth_error m i with
  | Some row =>
      if j <? length row then Ok (update m i (update row j v))
      else Raise IndexError
  | None => Raise IndexError
  end.

(** The inner loop, [for j in range(i+1, num_stocks)], on the matrix and
    the number of values drawn so far. *)
Fixpoint fill_row (i : nat) (js : list nat) (m : matrix) (drawn : nat)
  : result (matrix * nat) :=
  match js with
  | [] => Ok (m, drawn)
  | j :: js' =>
      let corr := uniform drawn in
      m1 <- setitem m i j corr ;;
      m2 <- setitem m1 j i corr ;;
      fill_row i js' m2 (S drawn)
  end.

(** The outer loop, [for i in range(num_stocks)]. *)
Fixpoint fill_rows (num_stocks : nat) (indices : list nat) (m : matrix)
    (drawn : nat) : result (matrix * nat) :=
  match indices with
  | [] => Ok (m, drawn)
  | i :: indices' =>
      r <- fill_row i (seq (i + 1) (num_stocks - (i + 1))) m drawn ;;
      fill_rows num_stocks indices' (fst r) (snd r)
  end.

(** [corr_matrix] after the loops, with the number of values drawn. *)
Definition corr_matrix (num_stocks : nat) : result (matrix * nat) :=
  fill_rows num_stocks (seq 0 num_stocks) (eye num_stocks) 0.

(** [m[i, j]] *)
Definition entry (m : matrix) (i j : nat) : float := nth j (nth i m []) zero.

End Correlation.

(** ** Country names *)

Definition country_mapping : list (str * str) :=
  [ ([54620; 44397]%N, lit "South Korea");
    ([48120; 44397]%N, lit "United States");
    ([51473; 44397]%N, lit "China");
    ([51068; 48376]%N, lit "Japan");
    ([50689; 44397]%N, lit "United Kingdom");
    ([46021; 51068]%N, lit "Germany");
    ([54532; 46993; 49828]%N, lit "France");
    ([51064; 46020]%N, lit "India");
    ([48652; 46972; 51656]%N, lit "Brazil");
    ([52880; 45208; 45796]%N, lit "Canada");
    ([54840; 51452]%N, lit "Australia");
    ([47084; 49884; 50500]%N, lit "Russia") ].

(** [d.get(key, default)] *)
Fixpoint get (d : list (str * str)) (key default : str) : str :=
  match d with
  | [] => default
  | (k, v) :: d' => if str_eqb k key then v else get d' key default
  end.

(** [lambda x: country_mapping.get(x, x)] *)
Definition country_name (x : str) : str := get country_mapping x x.

(* ================================================================== *)
(** * [get_portfolio_description]

    The argument is the dictionary that [portfolio_survey] returns: it
    has the twelve keys read here, with the values of the widgets, a
    string for a select box, a radio button or the text input, a list of
    strings for a multiselect, and for the slider a whole number between
    100 and 10000.  A record stands for it, [survey['knowledge']] being
    [knowledge survey]. *)

Record survey : Type := {
  knowledge : str;
  purpose : str;
  sector : list str;
  risk : str;
  period : str;
  region : list str;
  asset_types : list str;
  rebalance : str;
  esg : str;
  alt_inv : str;
  tickers : str;
  amount : nat
}.

(** The twelve formatted strings, concatenated; the labels are Korean
    and given by their code points. *)
Definition get_portfolio_description (s : survey) : str :=
  [54252; 53944; 54260; 47532; 50724; 32; 51060; 54644; 46020; 58; 32]%N
    ++ knowledge s ++ [LF]
  ++ [53804; 51088; 32; 47785; 51201; 58; 32]%N
    ++ purpose s ++ [LF]
  ++ [49440; 54840; 32; 50629; 51333; 58; 32]%N
    ++ join (lit ", ") (sector s) ++ [LF]
  ++ [53804; 51088; 32; 49457; 54693; 58; 32]%N
    ++ risk s ++ [LF]
  ++ [53804; 51088; 32; 44592; 44036; 58; 32]%N
    ++ period s ++ [LF]
  ++ [44288; 49900; 32; 44397; 44032; 47; 51648; 50669; 58; 32]%N
    ++ join (lit ", ") (region s) ++ [LF]
  ++ [54788; 51116; 32; 48372; 50976; 32; 51088; 49328; 44400; 58; 32]%N
    ++ join (lit ", ") (asset_types s) ++ [LF]
  ++ [47532; 48184; 47088; 49905; 32; 51452; 44592; 58; 32]%N
    ++ rebalance s ++ [LF]
  ++ [69; 83; 71; 47; 51648; 49549; 44032; 45733; 32; 53804; 51088; 32;
      44288; 49900; 46020; 58; 32]%N
    ++ esg s ++ [LF]
  ++ [45824; 52404; 53804; 51088; 32; 49440; 54840; 46020; 58; 32]%N
    ++ alt_inv s ++ [LF]
  ++ [51452; 50836; 32; 53804; 51088; 32; 51333; 47785; 40; 54000; 52964;
      41; 58; 32]%N
    ++ tickers s ++ [LF]
  ++ [52509; 32; 53804; 51088; 44552; 58; 32]%N
    ++ str_of_nat (amount s) ++ [47564; 50896]%N.

(* ================================================================== *)
(** * Notions of the specification *)

(** ** The block of extraction *)

(** The run of lines the specification describes: from the first line
    with a separator up to, not including, the next blank line. *)
Fixpoint from_first_pipe (lines : list str) : list str :=
  match lines with
  | [] => []
  | line :: rest => if has_pipe line then lines else from_first_pipe rest
  end.

Fixpoint until_blank (lines : list str) : list str :=
  match lines with
  | [] => []
  | line :: rest => if is_blank line then [] else line :: until_blank rest
  end.

Definition contiguous_run (lines : list str) : list str :=
  until_blank (from_first_pipe lines).

(** ** Normalised tables *)

(** The cells of the column at position [w]. *)
Definition column (w : nat) (df : DataFrame cell) : list cell :=
  map (fun r => nth w r NaN) (rows df).

(** The position of the weight column of a normalised table, and its
    cells. *)
Definition weight_position (df : DataFrame cell) : nat :=
  match find_weight_col (columns df) with
  | Some weight_col => position weight_col (columns df)
  | None => 0
  end.

Definition weight_column (df : DataFrame cell) : list cell :=
  column (weight_position df) df.

Definition is_number (c : cell) : bool :=
  match c with
  | Number _ => true
  | _ => false
  end.

Definition is_finite (c : cell) : bool :=
  match c with
  | Number (Finite _) => true
  | _ => false
  end.

(** The blocks on which the function has no table to return: the reader
    raises, or no column is a weight column, or the name of the weight
    column is borne by another column too. *)
Inductive unparseable (table_md : str) : Prop :=
| Unreadable e :
    read_csv (clean_table_md table_md) = Raise e ->
    unparseable table_md
| No_weight_column df :
    read_csv (clean_table_md table_md) = Ok df ->
    find_weight_col (frame_columns df) = None ->
    unparseable table_md
| Repeated_weight_column df weight_col :
    read_csv (clean_table_md table_md) = Ok df ->
    find_weight_col (frame_columns df) = Some weight_col ->
    1 < occurrences weight_col (frame_columns df) ->
    unparseable table_md.

(** ** The scenario *)

(** The concrete scenario of the specification. *)
Definition scenario_table : list str :=
  [ lit "| Name | Ticker | Weight | Country |";
    lit "|------|--------|--------|---------|";
    lit "| Apple | AAPL | 40% | US |";
    lit "| Samsung | 005930.KS | 35% | KR |";
    lit "| Cash | - | bad | - |" ].

Definition scenario_text : str :=
  join [LF] ([lit "Here is your plan."; []] ++ scenario_table
             ++ [[]; lit "Risk notes follow."]).

(** The frame read from the table of the scenario. *)
Definition scenario_frame : DataFrame (option str) :=
  Eval vm_compute in
    match read_csv (clean_table_md (join [LF] scenario_table)) with
    | Ok df => df
    | Raise _ => {| columns := []; rows := [] |}
    end.

(** The table returned for the scenario. *)
Definition scenario_result : DataFrame cell :=
  Eval vm_compute in
    match parse_portfolio_table (join [LF] scenario_table) with
    | Ok (Some df) => df
    | _ => {| columns := []; rows := [] |}
    end.

(** ** Lines *)

(** A line without a line boundary inside. *)
Definition no_linebreak (line : str) : Prop :=
  forallb (fun c => negb (is_linebreak c)) line = true.

(** The number of line feeds of a text. *)
Definition count_LF (s : str) : nat := length (filter (N.eqb LF) s).

(** A separator, a space or a dash: the characters of a decorative
    line. *)
Definition decoration (c : char) : bool :=
  N.eqb c PIPE || N.eqb c SPACE || N.eqb c DASH.

(** ** Fields and lines as the reader sees them *)

(** The reader passes over the spaces that open a field. *)
Definition skip_spaces (f : str) : str := dropwhile (fun c => N.eqb c SPACE) f.

(** A field that holds no separator and no line feed and does not open
    with a quote. *)
Definition plain_field (f : str) : bool :=
  forallb (fun c => negb (N.eqb c PIPE) && negb (N.eqb c LF)) f
  && negb (startswith (skip_spaces f) [QUOTE]).

(** A line that does not open with a space or a tab. *)
Definition visible (line : str) : bool :=
  match line with
  | c :: _ => negb (is_blank_char c)
  | [] => false
  end.

(** ** Rows between separators

    A row is written with a separator before its first field and after
    its last one: [|f1|f2|].  The reader sees an empty field at each
    end. *)

Definition enclose (fields : list str) : list str := [] :: fields ++ [[]].

Definition pipe_row (fields : list str) : str := join [PIPE] (enclose fields).

(** ** Markdown tables

    A markdown row pads its cells with a space on each side:
    [| c1 | c2 |]; a table is its header row, a separator row and its data
    rows, one per line. *)

Definition markdown_cell (c : str) : str := [SPACE] ++ c ++ [SPACE].

Definition markdown_row (cells : list str) : str :=
  pipe_row (map markdown_cell cells).

(** The field the reader makes of a cell: the cell without the spaces
    that open it, and the space that closes it. *)
Definition read_field (c : str) : str := skip_spaces (c ++ [SPACE]).

Definition markdown_table (hs : list str) (sep : str) (rs : list (list str))
  : str :=
  join [LF] (markdown_row hs :: sep :: map markdown_row rs).

(** A cell holds no separator and no line boundary, and does not open
    with a quote. *)
Definition table_cell (c : str) : bool :=
  forallb (fun x => negb (N.eqb x PIPE) && negb (is_linebreak x)) c
  && negb (startswith (skip_spaces c) [QUOTE]).

(** A name without white space at its ends. *)
Definition trimmed (h : str) : bool :=
  match h with
  | [] => false
  | c :: _ => negb (is_space c) && negb (is_space (last h c))
  end.

(** A column name of a well-formed header: a trimmed cell that is not
    one of the names the reader generates. *)
Definition header_name (h : str) : bool :=
  trimmed h && table_cell h && negb (startswith h (lit "Unnamed")).

(** A clean percentage: digits, possibly a point and digits, and a
    percent sign, with fifteen digits at most (so that the value is far
    from the limits of binary64); its value. *)
Definition clean_percentage (s : str) : option Q :=
  let '(ip, s1) := span_digits s in
  match ip, s1 with
  | _ :: _, [p] =>
      if N.eqb p PERCENT && (length ip <=? 15)
      then Some (decimal (digits_value ip) 0)
      else None
  | _ :: _, d :: s2 =>
      if N.eqb d 46 then
        let '(fp, s3) := span_digits s2 in
        match fp, s3 with
        | _ :: _, [p] =>
            if N.eqb p PERCENT && (length (ip ++ fp) <=? 15)
            then Some (decimal (digits_value (ip ++ fp))
                               (0 - Z.of_nat (length fp)))
            else None
        | _, _ => None
        end
      else None
  | _, _ => None
  end.

(** ** Writing a table again *)







(** ** Tables with any padding

    A row may pad its cells with any number of spaces, as the rows of a
    column-aligned table do.  The row is written [|f1|f2|] from its
    fields, and the cell of a field is the field without the spaces
    around it. *)

Definition trim (f : str) : str := rev (skip_spaces (rev (skip_spaces f))).

Definition pipe_table (hf : list str) (sep : str) (rfs : list (list str))
  : str :=
  join [LF] (pipe_row hf :: sep :: map pipe_row rfs).

(** A well-formed table.  Its fields hold no separator and no line
    boundary and do not open with a quote; the cells of its header are
    column names, no two of them the same; its separator row is made of
    separators, spaces and dashes; it has a data row, and every data row
    has one field per column. *)
Definition well_formed (hf : list str) (sep : str) (rfs : list (list str))
  : Prop :=
  forallb table_cell hf = true
  /\ forallb header_name (map trim hf) = true
  /\ NoDup (map trim hf)
  /\ decorative sep = true
  /\ rfs <> []
  /\ Forall (fun fs => length fs = length hf /\ forallb table_cell fs = true)
            rfs.

(** ** Weight cells that leave no doubt *)

(** A plain number: digits, possibly a point and digits, fifteen digits
    at most; its value. *)
Definition plain_number (s : str) : option Q :=
  let '(ip, s1) := span_digits s in
  match ip, s1 with
  | _ :: _, [] =>
      if length ip <=? 15 then Some (decimal (digits_value ip) 0) else None
  | _ :: _, d :: s2 =>
      if N.eqb d 46 then
        let '(fp, s3) := span_digits s2 in
        match s3 with
        | [] =>
            if length (ip ++ fp) <=? 15
            then Some (decimal (digits_value (ip ++ fp))
                               (0 - Z.of_nat (length fp)))
            else None
        | _ :: _ => None
        end
      else None
  | _, _ => None
  end.

(** A plain weight: a cell that is a plain number once its percent signs
    and commas are taken out, as [45%], [12.5%] or [1,250]; its value. *)
Definition plain_weight (c : str) : option Q :=
  plain_number (remove_char COMMA (remove_char PERCENT c)).

(** The spellings of an infinity. *)
Definition infinities : list str :=
  [ lit "inf"; lit "+inf"; lit "infinity"; lit "+infinity"; lit "-inf";
    lit "-infinity" ].

(** A cell that is no numeral: it holds no digit and, its percent signs
    and commas taken out, does not spell an infinity in any case of the
    letters; so [N/A], [tbd], [-] or an empty cell. *)
Definition no_numeral (c : str) : bool :=
  forallb (fun x => negb (is_digit x)) c
  && negb (str_in (lower (remove_char COMMA (remove_char PERCENT c)))
                  infinities).

(** The weight of a cell: the value of a plain weight. *)
Definition weight_of (c : str) : cell :=
  match plain_weight c with
  | Some q => Number (Finite q)
  | None => NaN
  end.

Definition has_weight (c : str) : bool :=
  match plain_weight c with
  | Some _ => true
  | None => false
  end.


(** A weight cell that leaves no doubt: a plain weight, or no numeral. *)
Definition settled (c : str) : bool := has_weight c || no_numeral c.


(* ================================================================== *)
(** * Further notions *)

(** The part of a text before its first separator; the whole text when
    it has none. *)
Fixpoint before_pipe (s : str) : str :=
  match s with
  | [] => []
  | c :: s' => if N.eqb PIPE c then [] else c :: before_pipe s'
  end.

(** A text made of whole lines: it is empty or ends with a line feed. *)
Definition whole_lines (a : str) : Prop := a = [] \/ exists a', a = a' ++ [LF].

(** The cells the reader makes of the cells of a markdown row. *)
Definition read_row (r : list str) : list (option str) :=
  map (fun c => read_cell (read_field c)) r.

(** A row completed with empty cells to the length of the header. *)
Definition completed (n : nat) (r : list str) : list str :=
  r ++ repeat [] (n - length r).

(** Digits, one at least, followed by spaces only. *)
Definition digits_then_spaces (s : str) : bool :=
  let '(ds, rest) := span_digits s in
  negb (is_empty ds) && forallb (N.eqb SPACE) rest.

(** ** The correlation matrix while it is filled *)

(** The number of entries above the diagonal in the rows before row
    [i] of a matrix of [n] rows: so many values are drawn before the
    loop comes to row [i]. *)
Fixpoint above (n i : nat) : nat :=
  match i with
  | O => 0
  | S i' => above n i' + (n - 1 - i')
  end.

Section Filling.

Variable float : Type.
Variables zero one : float.
Variable uniform : nat -> float.

(** The matrix of [n] rows and columns whose entries a function gives. *)
Definition matrix_of (n : nat) (f : nat -> nat -> float) : matrix float :=
  map (fun i => map (fun j => f i j) (seq 0 n)) (seq 0 n).

(** The pairs written when the outer loop is at row [i0] and the inner
    loop at column [j0]: the rows before [i0] from the diagonal on, and
    row [i0] up to column [j0]; each with its mirror image. *)
Definition filled (i0 j0 a b : nat) : bool :=
  (Nat.min a b <? i0) || ((Nat.min a b =? i0) && (Nat.max a b <? j0)).

(** The entries at that point. *)
Definition partly_filled (n i0 j0 a b : nat) : float :=
  if a =? b then one
  else if filled i0 j0 a b
       then uniform (above n (Nat.min a b) + (Nat.max a b - Nat.min a b - 1))
       else zero.

End Filling.

(** ** The answers of a survey *)

(** The answers as the description writes them: a list by its items
    with a comma and a space between them, the amount in decimal. *)
Definition answers (s : survey) : list str :=
  [ knowledge s; purpose s; join (lit ", ") (sector s); risk s; period s;
    join (lit ", ") (region s); join (lit ", ") (asset_types s);
    rebalance s; esg s; alt_inv s; tickers s; str_of_nat (amount s) ].

(** An answer on one line. *)
Definition one_line (a : str) : bool := negb (contains_char LF a).

(** Two surveys, for the examples: they differ in the list of sectors
    only, which is written the same for both. *)
Definition sample_survey : survey :=
  {| knowledge := lit "basic";
     purpose := lit "retirement";
     sector := [lit "IT"; lit "Health care"];
     risk := lit "neutral";
     period := lit "1~3";
     region := [lit "KR"; lit "US"];
     asset_types := [lit "stocks"];
     rebalance := lit "6";
     esg := lit "neutral";
     alt_inv := lit "some";
     tickers := lit "AAPL, TSLA, 005930.KS";
     amount := 1000 |}.

Definition sample_survey_one_sector : survey :=
  {| knowledge := knowledge sample_survey;
     purpose := purpose sample_survey;
     sector := [lit "IT, Health care"];
     risk := risk sample_survey;
     period := period sample_survey;
     region := region sample_survey;
     asset_types := asset_types sample_survey;
     rebalance := rebalance sample_survey;
     esg := esg sample_survey;
     alt_inv := alt_inv sample_survey;
     tickers := tickers sample_survey;
     amount := amount sample_survey |}.
(* ================================================================== *)
(** * Python strings: facts *)

Lemma str_eqb_eq (a b : str) : str_eqb a b = true <-> a = b.
Proof.
  revert b; induction a as [|x a IH]; intros [|y b]; simpl; split;
    try congruence; try reflexivity.
  - intros H. apply andb_true_iff in H as [Hx Hab].
    apply N.eqb_eq in Hx. apply IH in Hab. congruence.
  - intros H. injection H as -> ->.
    apply andb_true_iff; split; [apply N.eqb_refl | now apply IH].
Qed.

Lemma str_eqb_refl (a : str) : str_eqb a a = true.
Proof. now apply str_eqb_eq. Qed.

Lemma dropwhile_nil_forallb p (s : str) :
  dropwhile p s = [] <-> forallb p s = true.
Proof.
  induction s as [|c s IH]; simpl; [tauto|].
  destruct (p c); simpl; [exact IH | split; discriminate].
Qed.

Lemma dropwhile_head p (s : str) c rest :
  dropwhile p s = c :: rest -> p c = false.
Proof.
  induction s as [|d s IH]; simpl; [discriminate|].
  destruct (p d) eqn:E; [exact IH | intros H; injection H as -> _; exact E].
Qed.

Lemma dropwhile_all p (s : str) : forallb p s = true -> dropwhile p s = [].
Proof. apply dropwhile_nil_forallb. Qed.

Lemma forallb_rev {A} (p : A -> bool) (l : list A) :
  forallb p (rev l) = forallb p l.
Proof.
  induction l as [|x l IH]; simpl; [reflexivity|].
  rewrite forallb_app, IH; simpl. rewrite andb_true_r. apply andb_comm.
Qed.

(** A string strips to nothing exactly when it is white space only. *)
Lemma strip_nil_iff (s : str) : strip s = [] <-> forallb is_space s = true.
Proof.
  unfold strip, rstrip, lstrip. split.
  - intros H.
    assert (H1 : dropwhile is_space (rev (dropwhile is_space s)) = []).
    { apply (f_equal (@rev char)) in H. now rewrite rev_involutive in H. }
    apply dropwhile_nil_forallb in H1. rewrite forallb_rev in H1.
    destruct (dropwhile is_space s) as [|c rest] eqn:E.
    + now apply dropwhile_nil_forallb.
    + apply dropwhile_head in E. simpl in H1. now rewrite E in H1.
  - intros H. now rewrite (dropwhile_all _ _ H).
Qed.

Lemma is_blank_no_pipe (line : str) : is_blank line = true -> has_pipe line = false.
Proof.
  unfold is_blank, has_pipe, contains_char. intros H.
  apply str_eqb_eq, strip_nil_iff in H.
  induction line as [|c line IH]; [reflexivity|].
  cbn [forallb existsb] in *.
  apply andb_true_iff in H as [Hc Hl]. rewrite (IH Hl), orb_false_r.
  destruct (N.eqb_spec PIPE c) as [<-|]; [discriminate Hc | reflexivity].
Qed.

Lemma split_from_length sep s skip cur : 1 <= length (split_from sep s skip cur).
Proof.
  revert skip cur; induction s as [|c s IH]; intros skip cur;
    cbn [split_from]; [simpl; lia|].
  destruct skip; [|apply IH].
  destruct (startswith (c :: s) sep); [cbn [length]; lia | apply IH].
Qed.

(** When the separator occurs, [split] yields two pieces at least. *)
Lemma split_from_contains sep s cur :
  sep <> [] -> contains sep s = true -> 2 <= length (split_from sep s 0 cur).
Proof.
  intros Hsep. revert cur; induction s as [|c s IH]; intros cur H.
  - destruct sep; [congruence | discriminate].
  - cbn [split_from]. cbn [contains] in H.
    destruct (startswith (c :: s) sep) eqn:E.
    + cbn [length]. pose proof (split_from_length sep s (length sep - 1) []). lia.
    + simpl in H. now apply IH.
Qed.

(* ================================================================== *)
(** * Extraction: the block and the remainder *)

Lemma collect_in_table lines acc :
  collect lines acc true = acc ++ filter has_pipe (until_blank lines).
Proof.
  revert acc; induction lines as [|line rest IH]; intros acc; simpl.
  - now rewrite app_nil_r.
  - destruct (has_pipe line) eqn:Hp.
    + destruct (is_blank line) eqn:Hb.
      * apply is_blank_no_pipe in Hb. congruence.
      * simpl. rewrite Hp, IH, <- app_assoc. reflexivity.
    + destruct (is_blank line); simpl.
      * now rewrite app_nil_r.
      * rewrite Hp. apply IH.
Qed.

Lemma collect_outside lines acc :
  collect lines acc false = acc ++ filter has_pipe (contiguous_run lines).
Proof.
  unfold contiguous_run.
  revert acc; induction lines as [|line rest IH]; intros acc; simpl.
  - now rewrite app_nil_r.
  - destruct (has_pipe line) eqn:Hp.
    + rewrite collect_in_table. simpl.
      destruct (is_blank line) eqn:Hb.
      * apply is_blank_no_pipe in Hb. congruence.
      * simpl. rewrite Hp, <- app_assoc. reflexivity.
    + apply IH.
Qed.

Lemma collect_has_pipe lines :
  Forall (fun line => has_pipe line = true) (collect lines [] false).
Proof.
  rewrite collect_outside. simpl. apply Forall_forall.
  intros line H. now apply filter_In in H.
Qed.

Lemma join_cons_nonempty sep (p : str) rest : p <> [] -> join sep (p :: rest) <> [].
Proof.
  intros Hp. destruct p as [|c p]; [congruence|].
  destruct rest; simpl; discriminate.
Qed.

(** What [extract_markdown_table] returns, by the lines collected. *)
Lemma extract_structure (answer : str) :
  match collect (splitlines answer) [] false with
  | [] => extract_markdown_table answer = Ok (None, answer)
  | table_lines =>
      exists remainder,
        extract_markdown_table answer
        = Ok (Some (join [LF] table_lines), remainder)
  end.
Proof.
  unfold extract_markdown_table.
  pose proof (collect_has_pipe (splitlines answer)) as Hall.
  destruct (collect (splitlines answer) [] false) as [|l ls] eqn:E; [reflexivity|].
  assert (Hne : join [LF] (l :: ls) <> []).
  { apply join_cons_nonempty. inversion Hall as [|? ? Hl _]; subst.
    intros ->. discriminate Hl. }
  set (table_md := join [LF] (l :: ls)) in *.
  unfold split. destruct table_md as [|c t] eqn:Et; [congruence|].
  rewrite <- Et in *. cbn [bind].
  pose proof (split_from_length table_md answer 0 []) as Hlen.
  destruct (split_from table_md answer 0 []) as [|p0 ps] eqn:Es;
    [simpl in Hlen; lia|].
  cbn [index nth_error bind].
  destruct (contains table_md answer) eqn:Ec.
  - pose proof (split_from_contains answer [] Hne Ec) as H2.
    rewrite Es in H2. destruct ps as [|p1 ps']; [simpl in H2; lia|].
    cbn [index nth_error bind]. eexists. reflexivity.
  - cbn [bind]. eexists. reflexivity.
Qed.

Lemma from_first_pipe_none lines :
  (forall line, In line lines -> has_pipe line = false) ->
  from_first_pipe lines = [].
Proof.
  induction lines as [|l rest IH]; intros H; simpl; [reflexivity|].
  rewrite (H l (or_introl eq_refl)). apply IH.
  intros line Hin. apply H. now right.
Qed.

(** C4: when no line of the text holds the separator, extraction returns
    no block and the text itself, unchanged. *)
Theorem extract_no_pipe_unchanged (answer : str) :
  (forall line, In line (splitlines answer) -> has_pipe line = false) ->
  extract_markdown_table answer = Ok (None, answer).
Proof.
  intros H. pose proof (extract_structure answer) as S.
  rewrite collect_outside in S. unfold contiguous_run in S.
  rewrite (from_first_pipe_none _ H) in S. exact S.
Qed.

Lemma extract_no_pipe_unchanged_witness :
  (forall line, In line (splitlines (lit "Here is your plan.")) ->
                has_pipe line = false)
  /\ extract_markdown_table (lit "Here is your plan.")
     = Ok (None, lit "Here is your plan.").
Proof.
  split.
  - intros line [<-|[]]. reflexivity.
  - apply extract_no_pipe_unchanged. intros line [<-|[]]. reflexivity.
Defined.

Lemma contiguous_run_first lines :
  existsb has_pipe lines = true ->
  exists line rest,
    contiguous_run lines = line :: rest /\ has_pipe line = true.
Proof.
  unfold contiguous_run.
  induction lines as [|l ls IH]; simpl; [discriminate|].
  destruct (has_pipe l) eqn:Hp; simpl.
  - intros _. destruct (is_blank l) eqn:Hb.
    + apply is_blank_no_pipe in Hb. congruence.
    + eauto.
  - exact IH.
Qed.

(** C3, as the code has it: the block is made of the lines that hold the
    separator within the run from the first such line to the next blank
    line (or the end of the text), in their order; a line of that run
    without the separator is passed over and does not end the block. *)
Theorem extract_block_lines (answer : str) :
  existsb has_pipe (splitlines answer) = true ->
  exists remainder,
    extract_markdown_table answer
    = Ok (Some (join [LF] (filter has_pipe (contiguous_run (splitlines answer)))),
          remainder).
Proof.
  intros H. pose proof (extract_structure answer) as S.
  rewrite collect_outside in S. cbn [app] in S.
  destruct (contiguous_run_first _ H) as (line & rest & Hrun & Hp).
  rewrite Hrun in *. cbn [filter] in *. rewrite Hp in *. exact S.
Qed.

Lemma extract_block_lines_witness :
  let answer := join [LF] [lit "a|b"; lit "foo"; lit "c|d"; []; lit "e|f"] in
  existsb has_pipe (splitlines answer) = true
  /\ exists remainder,
       extract_markdown_table answer
       = Ok (Some (join [LF] [lit "a|b"; lit "c|d"]), remainder).
Proof.
  split; [reflexivity|].
  apply (extract_block_lines
           (join [LF] [lit "a|b"; lit "foo"; lit "c|d"; []; lit "e|f"])).
  reflexivity.
Defined.

(** C3 as stated fails: a line without the separator inside the table is
    left out of the block, which then is no run of consecutive lines. *)
Lemma extract_block_not_contiguous :
  let answer := join [LF] [lit "a|b"; lit "foo"; lit "c|d"] in
  let block := join [LF] [lit "a|b"; lit "c|d"] in
  existsb has_pipe (splitlines answer) = true
  /\ (exists remainder,
        extract_markdown_table answer = Ok (Some block, remainder))
  /\ block <> join [LF] (contiguous_run (splitlines answer))
  /\ ~ (exists before after,
          splitlines answer = before ++ [lit "a|b"; lit "c|d"] ++ after).
Proof.
  cbv zeta. split; [reflexivity|]. split; [eexists; vm_compute; reflexivity|].
  split; [vm_compute; discriminate|].
  intros (before & after & H). vm_compute in H.
  destruct before as [|b1 [|b2 [|b3 [|b4 before]]]]; simpl in H;
    try discriminate H; injection H; intros; discriminate.
Qed.

(* ================================================================== *)
(** * The scenario of the specification *)

(** C1: on the scenario text, extraction returns the five table lines as
    the block and the two prose lines, in their order, as the remainder;
    normalising the block gives two rows, Apple and Samsung, the Cash row
    being dropped, with the weights 40 and 35. *)
Theorem scenario_extract_and_parse :
  extract_markdown_table scenario_text
  = Ok (Some (join [LF] scenario_table),
        lit "Here is your plan." ++ [LF; LF] ++ lit "Risk notes follow.")
  /\ exists df,
       parse_portfolio_table (join [LF] scenario_table) = Ok (Some df)
       /\ columns df = [lit "Name"; lit "Ticker"; lit "Weight"; lit "Country"]
       /\ length (rows df) = 2
       /\ column 0 df = [Text (lit "Apple "); Text (lit "Samsung ")]
       /\ column 2 df = [Number (Finite 40%Q); Number (Finite 35%Q)].
Proof.
  split; [vm_compute; reflexivity|].
  eexists. split; [vm_compute; reflexivity|].
  repeat split.
Qed.

(* ================================================================== *)
(** * The reader: how many records *)

Lemma emit_ok record m rs :
  emit record m = Ok rs -> exists rs', m = Ok rs' /\ rs = record :: rs'.
Proof.
  unfold emit. destruct m as [rs'|e]; simpl; [|discriminate].
  intros H. injection H as <-. eauto.
Qed.

Lemma count_LF_cons c s :
  count_LF (c :: s) = if N.eqb LF c then S (count_LF s) else count_LF s.
Proof. unfold count_LF. cbn [filter]. now destruct (N.eqb LF c). Qed.

(** A record ends at a line feed or at the end of the text. *)
Lemma tokenize_bound s : forall st field fields rs,
  tokenize s st field fields = Ok rs -> length rs <= S (count_LF s).
Proof.
  induction s as [|c s IH]; intros st field fields rs H.
  - destruct st; simpl in H; try discriminate; injection H as <-; simpl; lia.
  - rewrite count_LF_cons. rewrite (N.eqb_sym LF c).
    destruct st; cbn [tokenize] in H;
      repeat match type of H with
        | (if ?b then _ else _) = _ => destruct b eqn:?
        end;
      try (apply emit_ok in H as (rs' & H & ->); apply IH in H; simpl; lia);
      try (apply IH in H; lia);
      apply IH in H; destruct (N.eqb c LF); lia.
Qed.

Lemma splitlines_from_no_linebreak n : forall s cur,
  length s <= n -> no_linebreak cur ->
  Forall no_linebreak (splitlines_from s cur).
Proof.
  unfold no_linebreak.
  induction n as [|n IH]; intros s cur Hn Hcur.
  - destruct s; [|simpl in Hn; lia]. simpl.
    destruct cur; constructor; [|constructor].
    now rewrite forallb_rev.
  - destruct s as [|c s]; simpl.
    + destruct cur; constructor; [|constructor]. now rewrite forallb_rev.
    + simpl in Hn. destruct (is_linebreak c) eqn:Ec.
      * constructor; [now rewrite forallb_rev|].
        destruct (N.eqb c CR).
        -- destruct s as [|d s']; [apply IH; simpl; [lia | reflexivity]|].
           destruct (N.eqb d LF);
             apply IH; simpl in *; try lia; reflexivity.
        -- apply IH; [lia | reflexivity].
      * apply IH; [lia|]. simpl. now rewrite Ec.
Qed.

Lemma splitlines_no_linebreak s : Forall no_linebreak (splitlines s).
Proof. now apply (splitlines_from_no_linebreak (n := length s)). Qed.

Lemma no_linebreak_count_LF line : no_linebreak line -> count_LF line = 0.
Proof.
  unfold no_linebreak, count_LF.
  induction line as [|c line IH]; [reflexivity|].
  cbn [forallb filter]. intros H. apply andb_true_iff in H as [Hc Hl].
  destruct (N.eqb_spec LF c) as [<-|]; [discriminate Hc | now apply IH].
Qed.

Lemma count_LF_app a b : count_LF (a ++ b) = count_LF a + count_LF b.
Proof. unfold count_LF. now rewrite filter_app, length_app. Qed.

Lemma count_LF_join lines :
  Forall no_linebreak lines -> count_LF (join [LF] lines) = length lines - 1.
Proof.
  induction 1 as [|line rest Hl Hrest IH]; [reflexivity|].
  destruct rest as [|line' rest'].
  - simpl. now apply no_linebreak_count_LF.
  - change (join [LF] (line :: line' :: rest'))
      with (line ++ [LF] ++ join [LF] (line' :: rest')).
    rewrite !count_LF_app, IH, (no_linebreak_count_LF Hl). simpl. lia.
Qed.

Lemma clean_lines_no_linebreak table_md :
  Forall no_linebreak (clean_lines table_md).
Proof.
  unfold clean_lines. apply Forall_forall. intros line H.
  apply filter_In in H as [H _].
  pose proof (splitlines_no_linebreak (strip table_md)) as F.
  rewrite Forall_forall in F. now apply F.
Qed.

(** The frame has one row per record after the header. *)
Lemma read_csv_rows_bound s df :
  read_csv s = Ok df -> length (rows df) <= count_LF s.
Proof.
  unfold read_csv, read_table.
  destruct (tokenize s START_RECORD [] []) as [records|e] eqn:E; [|discriminate].
  apply tokenize_bound in E. cbn [bind].
  destruct records as [|hd [|first later]]; [discriminate| |].
  - cbn [bind]. intros H. injection H as <-. simpl. lia.
  - destruct (existsb _ later); [discriminate|]. cbn [bind].
    intros H. injection H as <-. cbn [rows body map length] in *.
    rewrite !length_map. lia.
Qed.

(* ================================================================== *)
(** * Normalisation, step by step *)

Lemma frame_rows_length df : length (frame_rows df) = length (rows df).
Proof. unfold frame_rows. apply length_map. Qed.

(** The weight cell of a converted row. *)
Lemma nth_convert_row w : forall row,
  nth w (convert_row w row) NaN = weight_cell (nth w row None).
Proof.
  induction w as [|w IH]; intros [|c rest]; try reflexivity.
  simpl. apply IH.
Qed.

Lemma dropna_convert w rs :
  dropna w (map (convert_row w) rs)
  = map (convert_row w)
        (filter (fun r => negb (is_nan (weight_cell (nth w r None)))) rs).
Proof.
  unfold dropna. induction rs as [|r rs IH]; [reflexivity|].
  cbn [map filter]. rewrite nth_convert_row, IH.
  now destruct (is_nan (weight_cell (nth w r None))).
Qed.

Lemma find_weight_col_In cols wc :
  find_weight_col cols = Some wc -> In wc cols /\ is_weight_name wc = true.
Proof.
  induction cols as [|c rest IH]; simpl; [discriminate|].
  destruct (is_weight_name c) eqn:E.
  - intros H. injection H as <-. auto.
  - intros H. destruct (IH H). auto.
Qed.

(** When the block is read and its weight column is found under a name
    borne by no other column, the function reaches its last line. *)
Lemma parse_reaches_return table_md df weight_col :
  read_csv (clean_table_md table_md) = Ok df ->
  find_weight_col (frame_columns df) = Some weight_col ->
  occurrences weight_col (frame_columns df) <= 1 ->
  parse_portfolio_table table_md
  = Ok (Some {| columns := frame_columns df;
                rows := dropna (position weight_col (frame_columns df))
                          (map (convert_row
                                  (position weight_col (frame_columns df)))
                               (frame_rows df)) |}).
Proof.
  intros Hread Hfind Hocc.
  unfold parse_portfolio_table, parse_portfolio_table_body.
  rewrite Hread. cbn [bind]. rewrite Hfind.
  destruct (Nat.ltb_spec 1 (occurrences weight_col (frame_columns df))); [lia|].
  reflexivity.
Qed.

(** A table that is returned was read, and its weight column found. *)
Lemma parse_some_inv table_md df' :
  parse_portfolio_table table_md = Ok (Some df') ->
  exists df weight_col,
    read_csv (clean_table_md table_md) = Ok df
    /\ find_weight_col (frame_columns df) = Some weight_col
    /\ occurrences weight_col (frame_columns df) <= 1
    /\ df' = {| columns := frame_columns df;
                rows := dropna (position weight_col (frame_columns df))
                          (map (convert_row
                                  (position weight_col (frame_columns df)))
                               (frame_rows df)) |}.
Proof.
  unfold parse_portfolio_table, parse_portfolio_table_body.
  destruct (read_csv (clean_table_md table_md)) as [df|e]; [|discriminate].
  cbn [bind].
  destruct (find_weight_col (frame_columns df)) as [weight_col|] eqn:Hfind;
    [|discriminate].
  destruct (Nat.ltb_spec 1 (occurrences weight_col (frame_columns df)));
    [discriminate|].
  cbn [try_except]. intros Heq. injection Heq as <-.
  exists df, weight_col. repeat split; auto.
Qed.

(* ================================================================== *)
(** * The weights of a returned table *)

Lemma weight_cell_number c : is_nan (weight_cell c) = false ->
  is_number (weight_cell c) = true.
Proof.
  unfold weight_cell. now destruct (to_numeric _).
Qed.

Lemma filter_length_le {A} (p : A -> bool) (l : list A) :
  length (filter p l) <= length l.
Proof.
  induction l as [|x l IH]; simpl; [lia|]. destruct (p x); simpl; lia.
Qed.

(** C6, as the code has it: the table returned has no more rows than the
    block has lines after its header, and every cell of its weight column
    is a number; the number is the value of a decimal literal or one of
    the two infinities, and no cell is missing. *)
Theorem normalised_rows_bounded table_md df' :
  parse_portfolio_table table_md = Ok (Some df') ->
  length (rows df') <= length (clean_lines table_md) - 1
  /\ length (rows df') <= length (splitlines (strip table_md)) - 1
  /\ Forall (fun c => is_number c = true) (weight_column df').
Proof.
  intros H. apply parse_some_inv in H
    as (df & weight_col & Hread & Hfind & Hocc & ->).
  set (w := position weight_col (frame_columns df)).
  assert (Hlen : length (dropna w (map (convert_row w) (frame_rows df)))
                 <= length (clean_lines table_md) - 1).
  { unfold dropna. etransitivity; [apply filter_length_le|].
    rewrite length_map, frame_rows_length.
    etransitivity; [apply (read_csv_rows_bound _ Hread)|].
    unfold clean_table_md.
    now rewrite (count_LF_join (clean_lines_no_linebreak table_md)). }
  cbn [rows]. fold w. split; [exact Hlen|]. split.
  - etransitivity; [exact Hlen|]. unfold clean_lines.
    pose proof (filter_length_le (fun line => negb (decorative line))
                  (splitlines (strip table_md))). lia.
  - unfold weight_column, column, weight_position. cbn [columns rows].
    rewrite Hfind. fold w. apply Forall_forall. intros c Hc.
    apply in_map_iff in Hc as (r & <- & Hr).
    unfold dropna in Hr. apply filter_In in Hr as [Hr Hnan].
    apply in_map_iff in Hr as (r0 & <- & _).
    rewrite nth_convert_row in *. apply weight_cell_number.
    now apply negb_true_iff in Hnan.
Qed.

Lemma normalised_rows_bounded_witness :
  let table_md := join [LF] scenario_table in
  parse_portfolio_table table_md = Ok (Some scenario_result)
  /\ length (rows scenario_result) <= length (clean_lines table_md) - 1
  /\ length (rows scenario_result) <= length (splitlines (strip table_md)) - 1
  /\ Forall (fun c => is_number c = true) (weight_column scenario_result).
Proof.
  split; [reflexivity|].
  apply (@normalised_rows_bounded (join [LF] scenario_table) scenario_result).
  reflexivity.
Defined.

(** C6 as stated fails: a weight cell that spells an infinity is read as a
    number and its row is kept. *)
Lemma infinite_weight_kept :
  let table_md := join [LF] [lit "| Name | Weight |"; lit "|---|---|";
                             lit "| Gold |inf|"] in
  exists df',
    parse_portfolio_table table_md = Ok (Some df')
    /\ weight_column df' = [Number (Infinity false)]
    /\ ~ Forall (fun c => is_finite c = true) (weight_column df').
Proof.
  eexists. split; [vm_compute; reflexivity|]. split; [reflexivity|].
  intros H. inversion H as [|? ? Hc _]. discriminate Hc.
Qed.

(* ================================================================== *)
(** * Failure is a value *)

(** C9: neither function raises.  Extraction splits on a block that is
    never empty and reads the second piece only when the block occurs in
    the text; normalisation catches every exception of its body and
    returns [None] for it. *)
Theorem parsing_never_raises (s : str) :
  returns (extract_markdown_table s)
  /\ returns (parse_portfolio_table s)
  /\ (forall e, parse_portfolio_table_body s = Raise e ->
                parse_portfolio_table s = Ok None).
Proof.
  split; [|split].
  - pose proof (extract_structure s) as H. unfold returns.
    destruct (collect (splitlines s) [] false).
    + eauto.
    + destruct H as (remainder & H). eauto.
  - unfold returns, parse_portfolio_table.
    destruct (parse_portfolio_table_body s); simpl; eauto.
  - intros e H. unfold parse_portfolio_table. now rewrite H.
Qed.

(* ================================================================== *)
(** * Decorative rows *)

(** C10, as the code has it: a line that is empty once the separator and
    the space character are taken out (a row of blank cells, a line of
    separators only) is decorative and is not among the lines handed to
    the reader.  Only the space character is taken out, no other white
    space. *)
Theorem blank_cell_rows_removed (table_md line : str) :
  remove_char SPACE (remove_char PIPE line) = [] ->
  decorative line = true /\ ~ In line (clean_lines table_md).
Proof.
  intros H. assert (D : decorative line = true).
  { unfold decorative. now rewrite H. }
  split; [exact D|]. unfold clean_lines. intros Hin.
  apply filter_In in Hin as [_ Hin]. now rewrite D in Hin.
Qed.

Lemma blank_cell_rows_removed_witness :
  let line := lit "|  |  |" in
  let table_md := join [LF] [lit "| Name | Weight |"; line; lit "| A | 40% |"] in
  In line (splitlines (strip table_md))
  /\ remove_char SPACE (remove_char PIPE line) = []
  /\ decorative line = true
  /\ ~ In line (clean_lines table_md).
Proof.
  cbv zeta. split; [right; left; reflexivity|]. split; [reflexivity|].
  apply blank_cell_rows_removed. reflexivity.
Defined.

(** C10 as stated fails for white space other than the space character: a
    row whose cells hold a tab is kept for the reader. *)
Lemma tab_row_not_removed :
  let line := [PIPE; TAB; PIPE] in
  let table_md := join [LF] [lit "| Name | Weight |"; line; lit "| A | 40% |"] in
  filter (fun c => negb (N.eqb c PIPE || is_space c)) line = []
  /\ decorative line = false
  /\ In line (clean_lines table_md).
Proof.
  cbv zeta. split; [reflexivity|]. split; [reflexivity|].
  right; left; reflexivity.
Qed.

(* ================================================================== *)
(** * When there is no table *)

Lemma strip_nil_clean_lines table_md :
  strip table_md = [] -> clean_lines table_md = [].
Proof. unfold clean_lines. now intros ->. Qed.

Lemma no_clean_lines_unreadable table_md :
  clean_lines table_md = [] ->
  read_csv (clean_table_md table_md) = Raise EmptyDataError.
Proof. unfold clean_table_md. now intros ->. Qed.

Lemma parse_unreadable table_md e :
  read_csv (clean_table_md table_md) = Raise e ->
  parse_portfolio_table table_md = Ok None.
Proof.
  intros H. unfold parse_portfolio_table, parse_portfolio_table_body.
  now rewrite H.
Qed.

Lemma parse_no_weight table_md df :
  read_csv (clean_table_md table_md) = Ok df ->
  find_weight_col (frame_columns df) = None ->
  parse_portfolio_table table_md = Ok None.
Proof.
  intros H F. unfold parse_portfolio_table, parse_portfolio_table_body.
  rewrite H. cbn [bind]. now rewrite F.
Qed.

(** C2, as the code has it: the function returns [None] exactly when the
    reader raises on the cleaned block (as it does on an empty block and
    on a block no line of which survives the stripping), when no column
    name holds one of the substrings, or when the name of the weight
    column is borne by two columns.  When no row survives the coercion it
    returns the table with its columns and no row. *)
Theorem parse_none_iff (table_md : str) :
  (parse_portfolio_table table_md = Ok None <-> unparseable table_md)
  /\ (strip table_md = [] -> parse_portfolio_table table_md = Ok None)
  /\ (clean_lines table_md = [] -> parse_portfolio_table table_md = Ok None)
  /\ (forall df,
        read_csv (clean_table_md table_md) = Ok df ->
        forallb (fun c => negb (is_weight_name c)) (frame_columns df) = true ->
        parse_portfolio_table table_md = Ok None)
  /\ (forall df weight_col,
        read_csv (clean_table_md table_md) = Ok df ->
        find_weight_col (frame_columns df) = Some weight_col ->
        occurrences weight_col (frame_columns df) <= 1 ->
        (forall r, In r (frame_rows df) ->
           weight_cell (nth (position weight_col (frame_columns df)) r None)
           = NaN) ->
        parse_portfolio_table table_md
        = Ok (Some {| columns := frame_columns df; rows := [] |})).
Proof.
  split; [|split; [|split; [|split]]].
  - split.
    + unfold parse_portfolio_table, parse_portfolio_table_body.
      destruct (read_csv (clean_table_md table_md)) as [df|e] eqn:Hread;
        [|intros _; now apply (Unreadable _ Hread)].
      cbn [bind].
      destruct (find_weight_col (frame_columns df)) as [weight_col|] eqn:Hfind;
        [|intros _; now apply (No_weight_column _ Hread)].
      destruct (Nat.ltb_spec 1 (occurrences weight_col (frame_columns df)));
        [intros _; now apply (Repeated_weight_column _ Hread Hfind)|].
      discriminate.
    + intros [e Hread | df Hread Hfind | df weight_col Hread Hfind Hocc].
      * now apply (parse_unreadable _ Hread).
      * now apply (parse_no_weight _ Hread).
      * unfold parse_portfolio_table, parse_portfolio_table_body.
        rewrite Hread. cbn [bind]. rewrite Hfind.
        destruct (Nat.ltb_spec 1 (occurrences weight_col (frame_columns df)));
          [reflexivity | lia].
  - intros H. eapply parse_unreadable.
    now apply no_clean_lines_unreadable, strip_nil_clean_lines.
  - intros H. eapply parse_unreadable. now apply no_clean_lines_unreadable.
  - intros df Hread Hall. apply (parse_no_weight _ Hread).
    induction (frame_columns df) as [|c cols IH]; [reflexivity|].
    cbn [forallb find_weight_col] in *.
    apply andb_true_iff in Hall as [Hc Hall].
    apply negb_true_iff in Hc. rewrite Hc. now apply IH.
  - intros df weight_col Hread Hfind Hocc Hall.
    rewrite (parse_reaches_return _ Hread Hfind Hocc). cbv zeta.
    rewrite dropna_convert. do 3 f_equal.
    induction (frame_rows df) as [|r rs IH]; [reflexivity|].
    cbn [filter map]. rewrite (Hall r (or_introl eq_refl)). cbn [is_nan negb].
    apply IH. intros r' Hr'. apply Hall. now right.
Qed.

(* ================================================================== *)
(** * The reader on plain fields *)

Lemma tokenize_in_field_step c s field fields :
  N.eqb c LF = false -> N.eqb c PIPE = false ->
  tokenize (c :: s) IN_FIELD field fields
  = tokenize s IN_FIELD (c :: field) fields.
Proof. intros H1 H2. cbn [tokenize]. now rewrite H1, H2. Qed.

Section Field.

Variables (t : str) (done : list str).

(** What follows a field: a separator, a line feed, or the end. *)
Lemma tokenize_in_field g : forall cur,
  forallb (fun c => negb (N.eqb c PIPE) && negb (N.eqb c LF)) g = true ->
  tokenize (g ++ PIPE :: t) IN_FIELD cur done
  = tokenize t START_FIELD [] ((rev cur ++ g) :: done)
  /\ tokenize (g ++ LF :: t) IN_FIELD cur done
     = emit (rev ((rev cur ++ g) :: done)) (tokenize t START_RECORD [] [])
  /\ tokenize g IN_FIELD cur done = Ok [rev ((rev cur ++ g) :: done)].
Proof.
  induction g as [|c g IH]; intros cur Hg.
  - rewrite app_nil_r. repeat split.
  - cbn [forallb] in Hg. apply andb_true_iff in Hg as [Hc Hg].
    apply andb_true_iff in Hc as [Hp Hl].
    apply negb_true_iff in Hp, Hl.
    cbn [app]. rewrite !tokenize_in_field_step by assumption.
    destruct (IH (c :: cur) Hg) as (A & B & C).
    cbn [rev] in A, B, C. rewrite <- !app_assoc in A, B, C.
    cbn [app] in A, B, C. auto.
Qed.

End Field.

Lemma plain_field_cons c f :
  plain_field (c :: f) = true ->
  N.eqb c PIPE = false /\ N.eqb c LF = false
  /\ (N.eqb c SPACE = true -> plain_field f = true)
  /\ (N.eqb c SPACE = false ->
      N.eqb c QUOTE = false
      /\ forallb (fun c => negb (N.eqb c PIPE) && negb (N.eqb c LF)) f = true).
Proof.
  unfold plain_field, skip_spaces. cbn [forallb dropwhile].
  intros H. apply andb_true_iff in H as [H Hq].
  apply andb_true_iff in H as [Hc Hf].
  apply andb_true_iff in Hc as [Hp Hl]. apply negb_true_iff in Hp, Hl.
  split; [exact Hp|]. split; [exact Hl|]. split.
  - intros Hs. rewrite Hs in Hq. now rewrite Hf, Hq.
  - intros Hs. rewrite Hs in Hq. cbn [startswith] in Hq.
    split; [|exact Hf].
    apply negb_true_iff in Hq. destruct f; cbn [startswith] in Hq;
      now rewrite andb_true_r in Hq.
Qed.

Lemma tokenize_start_field t done f :
  plain_field f = true ->
  tokenize (f ++ PIPE :: t) START_FIELD [] done
  = tokenize t START_FIELD [] (skip_spaces f :: done)
  /\ tokenize (f ++ LF :: t) START_FIELD [] done
     = emit (rev (skip_spaces f :: done)) (tokenize t START_RECORD [] [])
  /\ tokenize f START_FIELD [] done = Ok [rev (skip_spaces f :: done)].
Proof.
  induction f as [|c f IH]; intros Hf.
  - repeat split.
  - destruct (plain_field_cons _ _ Hf) as (Hp & Hl & Hsp & Hnsp).
    destruct (N.eqb c SPACE) eqn:Hs.
    + assert (Hq : N.eqb c QUOTE = false).
      { apply N.eqb_eq in Hs. now subst c. }
      destruct (IH (Hsp eq_refl)) as (A & B & C).
      unfold skip_spaces in *. cbn [dropwhile]. rewrite Hs.
      cbn [app tokenize]. rewrite Hl, Hq, Hs. auto.
    + destruct (Hnsp eq_refl) as (Hq & Hrest).
      destruct (tokenize_in_field t done f [c] Hrest) as (A & B & C).
      unfold skip_spaces. cbn [dropwhile]. rewrite Hs.
      cbn [app tokenize]. rewrite Hl, Hq, Hs, Hp. auto.
Qed.

(** A line of plain fields is read as these fields, without the spaces
    that open them. *)
Lemma tokenize_fields t : forall fs f done,
  forallb plain_field (f :: fs) = true ->
  tokenize (join [PIPE] (f :: fs) ++ LF :: t) START_FIELD [] done
  = emit (rev done ++ map skip_spaces (f :: fs))
         (tokenize t START_RECORD [] [])
  /\ tokenize (join [PIPE] (f :: fs)) START_FIELD [] done
     = Ok [rev done ++ map skip_spaces (f :: fs)].
Proof.
  induction fs as [|f2 fs IH]; intros f done H;
    cbn [forallb] in H; apply andb_true_iff in H as [Hf Hfs].
  - destruct (tokenize_start_field t done f Hf) as (_ & B & C).
    cbn [join map rev] in *. auto.
  - change (join [PIPE] (f :: f2 :: fs))
      with (f ++ [PIPE] ++ join [PIPE] (f2 :: fs)).
    destruct (IH f2 (skip_spaces f :: done) Hfs) as (A & B).
    cbn [rev map] in A, B. rewrite <- !app_assoc in A, B. cbn [app] in A, B.
    split.
    + rewrite <- !app_assoc. cbn [app].
      destruct (tokenize_start_field
                  (join [PIPE] (f2 :: fs) ++ LF :: t) done f Hf) as (E & _).
      rewrite E. exact A.
    + cbn [app].
      destruct (tokenize_start_field (join [PIPE] (f2 :: fs)) done f Hf)
        as (E & _).
      rewrite E. exact B.
Qed.

Lemma tokenize_start_record c s :
  N.eqb c LF = false -> is_blank_char c = false ->
  tokenize (c :: s) START_RECORD [] [] = tokenize (c :: s) START_FIELD [] [].
Proof. intros H1 H2. cbn [tokenize]. now rewrite H1, H2. Qed.

Lemma plain_join_head fs f c rest :
  forallb plain_field (f :: fs) = true ->
  join [PIPE] (f :: fs) = c :: rest -> N.eqb c LF = false.
Proof.
  intros H E. cbn [forallb] in H. apply andb_true_iff in H as [Hf _].
  destruct f as [|d f].
  - destruct fs; [discriminate|]. cbn in E. injection E as <- _. reflexivity.
  - apply plain_field_cons in Hf as (_ & Hl & _).
    destruct fs; cbn in E; injection E as <- _; exact Hl.
Qed.

(** A record: a visible line of plain fields. *)
Lemma tokenize_record t fs f :
  forallb plain_field (f :: fs) = true ->
  visible (join [PIPE] (f :: fs)) = true ->
  tokenize (join [PIPE] (f :: fs) ++ LF :: t) START_RECORD [] []
  = emit (map skip_spaces (f :: fs)) (tokenize t START_RECORD [] [])
  /\ tokenize (join [PIPE] (f :: fs)) START_RECORD [] []
     = Ok [map skip_spaces (f :: fs)].
Proof.
  intros Hp Hv. destruct (tokenize_fields t fs f [] Hp) as (A & B).
  destruct (join [PIPE] (f :: fs)) as [|c rest] eqn:E; [discriminate Hv|].
  pose proof (plain_join_head _ _ Hp E) as Hl.
  cbn [visible] in Hv. apply negb_true_iff in Hv.
  cbn [app]. rewrite !tokenize_start_record by assumption. auto.
Qed.

(** Several records. *)
Lemma tokenize_lines (fss : list (list str)) :
  fss <> [] ->
  Forall (fun fs => forallb plain_field fs = true
                    /\ visible (join [PIPE] fs) = true) fss ->
  tokenize (join [LF] (map (join [PIPE]) fss)) START_RECORD [] []
  = Ok (map (map skip_spaces) fss).
Proof.
  intros Hne H. induction H as [|fs fss [Hp Hv] Hrest IH]; [congruence|].
  destruct fs as [|f fs]; [discriminate Hv|].
  destruct fss as [|fs2 fss].
  - cbn [map join]. now destruct (tokenize_record [] fs f Hp Hv).
  - change (join [LF] (map (join [PIPE]) ((f :: fs) :: fs2 :: fss)))
      with (join [PIPE] (f :: fs) ++ [LF]
            ++ join [LF] (map (join [PIPE]) (fs2 :: fss))).
    cbn [app].
    destruct (tokenize_record
                (join [LF] (map (join [PIPE]) (fs2 :: fss))) fs f Hp Hv)
      as (E & _).
    rewrite E, IH by discriminate. reflexivity.
Qed.

Lemma pad_same n (r : list str) : length r = n -> pad n r = r.
Proof.
  intros <-. unfold pad. rewrite Nat.sub_diag. apply app_nil_r.
Qed.

(** Records of one length make a table without index columns. *)
Lemma read_table_rectangular s hd data :
  tokenize s START_RECORD [] [] = Ok (hd :: data) ->
  Forall (fun r => length r = length hd) data ->
  read_table s = Ok {| header := hd; leading_cols := 0; body := data |}.
Proof.
  intros E H. unfold read_table. rewrite E. cbn [bind].
  destruct data as [|first later]; [reflexivity|].
  inversion H as [|? ? Hfirst Hlater]; subst.
  rewrite Hfirst, Nat.max_id, Nat.sub_diag.
  assert (Hex : existsb (fun r => length hd <? length r) later = false).
  { clear -Hlater. induction Hlater as [|r later Hr _ IH]; [reflexivity|].
    cbn [existsb]. rewrite IH, Hr, Nat.ltb_irrefl. reflexivity. }
  rewrite Hex. do 2 f_equal.
  clear -H. induction H as [|r rest Hr _ IH]; [reflexivity|].
  cbn [map]. rewrite IH, pad_same by assumption. reflexivity.
Qed.

(* ================================================================== *)
(** * Lines of a text *)

Lemma rstrip_last (a : str) d : is_space d = false -> rstrip (a ++ [d]) = a ++ [d].
Proof.
  intros H. unfold rstrip. rewrite rev_app_distr. cbn [rev app dropwhile].
  rewrite H. cbn [rev]. now rewrite rev_involutive.
Qed.

Lemma splitlines_from_line line : forall rest cur,
  no_linebreak line ->
  splitlines_from (line ++ rest) cur = splitlines_from rest (rev line ++ cur).
Proof.
  unfold no_linebreak.
  induction line as [|c line IH]; intros rest cur H; [reflexivity|].
  cbn [forallb] in H. apply andb_true_iff in H as [Hc Hl].
  apply negb_true_iff in Hc. cbn [app splitlines_from]. rewrite Hc.
  rewrite IH by assumption. cbn [rev]. now rewrite <- app_assoc.
Qed.

(** Lines joined by line feeds are split again into these lines. *)
Lemma splitlines_join lines :
  Forall no_linebreak lines -> last lines [] <> [] ->
  splitlines (join [LF] lines) = lines.
Proof.
  unfold splitlines. intros H. induction H as [|line rest Hl Hrest IH];
    intros Hlast; [reflexivity|].
  destruct rest as [|line2 rest].
  - cbn [join]. rewrite <- (app_nil_r line) at 1.
    rewrite splitlines_from_line by assumption.
    rewrite app_nil_r. cbn [splitlines_from last] in *.
    destruct (rev line) eqn:E.
    + apply (f_equal (@rev char)) in E. rewrite rev_involutive in E.
      contradiction.
    + rewrite <- E. now rewrite rev_involutive.
  - change (join [LF] (line :: line2 :: rest))
      with (line ++ LF :: join [LF] (line2 :: rest)).
    rewrite splitlines_from_line by assumption.
    cbn [splitlines_from]. change (is_linebreak LF) with true.
    change (N.eqb LF CR) with false. cbv iota.
    rewrite app_nil_r, rev_involutive. f_equal. apply IH. exact Hlast.
Qed.

(* ================================================================== *)
(** * Column names *)

Lemma lit_inj (a b : String.string) : lit a = lit b -> a = b.
Proof.
  unfold lit. intros H.
  rewrite <- (String.string_of_list_ascii_of_string a),
          <- (String.string_of_list_ascii_of_string b).
  f_equal. revert H.
  generalize (String.list_ascii_of_string a) (String.list_ascii_of_string b).
  induction l as [|x l IH]; intros [|y l']; simpl; try discriminate; auto.
  intros H. injection H as Hxy Hl. f_equal; [|now apply IH].
  rewrite <- (Ascii.ascii_N_embedding x), <- (Ascii.ascii_N_embedding y).
  now rewrite Hxy.
Qed.

Lemma str_of_nat_S_0 n : str_of_nat (S n) <> str_of_nat 0.
Proof.
  unfold str_of_nat. intros H. apply lit_inj in H.
  assert (Hn : Nat.to_uint (S n) <> Decimal.Nil).
  { intros E. pose proof (DecimalNat.Unsigned.of_to (S n)) as O.
    rewrite E in O. discriminate O. }
  pose proof (DecimalString.NilZero.usu _ Hn) as U. rewrite H in U.
  change (Some (Nat.to_uint 0) = Some (Nat.to_uint (S n))) in U.
  injection U as U. apply DecimalNat.Unsigned.to_uint_inj in U. discriminate U.
Qed.

Lemma name_columns_length names : forall k,
  length (name_columns k names) = length names.
Proof. induction names as [|n names IH]; intros k; simpl; auto. Qed.

Lemma name_columns_named names : forall k,
  forallb (fun n => negb (is_empty n)) names = true ->
  name_columns k names = names.
Proof.
  induction names as [|n names IH]; intros k H; [reflexivity|].
  cbn [forallb] in H. apply andb_true_iff in H as [Hn H].
  cbn [name_columns]. rewrite IH by assumption. now destruct n.
Qed.

Lemma name_columns_app a b : forall k,
  name_columns k (a ++ b) = name_columns k a ++ name_columns (length a + k) b.
Proof.
  induction a as [|n a IH]; intros k; [reflexivity|].
  cbn [app name_columns length]. rewrite IH. do 3 f_equal. lia.
Qed.

Lemma indices_where_In p names : forall k i,
  In i (indices_where p k names) -> k <= i < k + length names.
Proof.
  induction names as [|n names IH]; intros k i; simpl; [tauto|].
  destruct (p n); simpl; intros H.
  - destruct H as [<-|H]; [lia|]. apply IH in H. lia.
  - apply IH in H. lia.
Qed.

Lemma indices_where_NoDup p names : forall k, NoDup (indices_where p k names).
Proof.
  induction names as [|n names IH]; intros k; simpl; [constructor|].
  destruct (p n); [|apply IH]. constructor; [|apply IH].
  intros H. apply indices_where_In in H. lia.
Qed.

Lemma indices_where_disjoint (p q : str -> bool) names :
  (forall n, p n = true -> q n = false) ->
  forall k i,
    In i (indices_where p k names) -> ~ In i (indices_where q k names).
Proof.
  intros Hpq.
  induction names as [|n names IH]; intros k i; simpl; [tauto|].
  destruct (p n) eqn:Ep.
  - rewrite (Hpq n Ep). intros [<-|H] H'.
    + apply indices_where_In in H'. lia.
    + now apply (IH _ _ H).
  - intros H. destruct (q n); [|now apply IH].
    intros [<-|H'].
    + apply indices_where_In in H. lia.
    + now apply (IH _ _ H).
Qed.

(** A header of distinct names is left as it is. *)
Lemma mangle_id (this_header : list str) : forall order counts,
  NoDup (map (fun i => nth i this_header []) order) ->
  (forall i, In i order -> count_of counts (nth i this_header []) = 0) ->
  mangle order this_header counts = this_header.
Proof.
  induction order as [|i order IH]; intros counts Hnd Hc; [reflexivity|].
  cbn [mangle]. cbv zeta. rewrite (Hc i (or_introl eq_refl)).
  cbn [map] in Hnd. inversion Hnd as [|? ? Hnot Hnd']; subst.
  apply IH; [exact Hnd'|].
  intros j Hj. cbn [count_of].
  destruct (str_eqb (nth i this_header []) (nth j this_header [])) eqn:E.
  - apply str_eqb_eq in E. exfalso. apply Hnot. rewrite E.
    now apply (in_map (fun i => nth i this_header [])).
  - apply Hc. now right.
Qed.

Lemma column_names_distinct hd :
  NoDup (name_columns 0 hd) -> column_names hd = name_columns 0 hd.
Proof.
  intros Hnd. unfold column_names. apply mangle_id; [|reflexivity].
  apply NoDup_map_NoDup_ForallPairs.
  - intros i j Hi Hj E.
    apply (proj1 (NoDup_nth (name_columns 0 hd) []) Hnd); [| |exact E];
      rewrite name_columns_length;
      [apply in_app_or in Hi as [Hi|Hi] | apply in_app_or in Hj as [Hj|Hj]];
      apply indices_where_In in Hi || apply indices_where_In in Hj; lia.
  - apply NoDup_app; try apply indices_where_NoDup.
    intros i Hi. revert i Hi. apply indices_where_disjoint.
    intros n H. now apply negb_true_iff in H.
Qed.

(* ================================================================== *)
(** * Numbers *)

Lemma span_digits_spec s :
  s = fst (span_digits s) ++ snd (span_digits s)
  /\ forallb is_digit (fst (span_digits s)) = true
  /\ match snd (span_digits s) with
     | c :: _ => is_digit c = false
     | [] => True
     end.
Proof.
  induction s as [|c s IH]; [repeat split|].
  cbn [span_digits]. destruct (is_digit c) eqn:E.
  - destruct (span_digits s) as [ds rest]. cbn [fst snd] in *.
    destruct IH as (I1 & I2 & I3). repeat split.
    + cbn [app]. now f_equal.
    + cbn [forallb]. now rewrite E.
    + exact I3.
  - cbn [fst snd]. repeat split. exact E.
Qed.

Lemma span_digits_app ds rest :
  forallb is_digit ds = true ->
  match rest with c :: _ => is_digit c = false | [] => True end ->
  span_digits (ds ++ rest) = (ds, rest).
Proof.
  intros Hd Hr. induction ds as [|d ds IH].
  - destruct rest as [|c rest]; [reflexivity|]. cbn [app span_digits].
    now rewrite Hr.
  - cbn [forallb] in Hd. apply andb_true_iff in Hd as [Hd Hds].
    cbn [app span_digits]. now rewrite Hd, IH.
Qed.

Lemma remove_char_digits c ds :
  is_digit c = false -> forallb is_digit ds = true -> remove_char c ds = ds.
Proof.
  intros Hc. unfold remove_char. induction ds as [|d ds IH]; [reflexivity|].
  cbn [forallb filter]. intros H. apply andb_true_iff in H as [Hd Hds].
  destruct (N.eqb_spec d c) as [->|_]; [congruence|].
  cbn [negb]. now rewrite IH.
Qed.

Lemma remove_char_app c a b :
  remove_char c (a ++ b) = remove_char c a ++ remove_char c b.
Proof. apply filter_app. Qed.

Lemma digit_facts c :
  is_digit c = true ->
  is_space_ascii c = false /\ N.eqb c 45 = false /\ N.eqb c 43 = false.
Proof.
  unfold is_digit, is_space_ascii. intros H.
  apply andb_true_iff in H as [H1 H2].
  apply N.leb_le in H1, H2.
  repeat split.
  - apply orb_false_iff. split; [apply N.eqb_neq; lia|].
    apply andb_false_iff. right. apply N.leb_gt. lia.
  - apply N.eqb_neq; lia.
  - apply N.eqb_neq; lia.
Qed.

Lemma take_sign_digit d (s : str) :
  is_digit d = true -> take_sign (d :: s) = (false, d :: s).
Proof.
  intros H. destruct (digit_facts _ H) as (_ & Hm & Hp).
  cbn [take_sign]. now rewrite Hm, Hp.
Qed.

Lemma spaces_ascii (ws : str) :
  forallb (N.eqb SPACE) ws = true -> dropwhile is_space_ascii ws = [].
Proof.
  intros Hw. apply dropwhile_all. rewrite forallb_forall in *. intros c Hc.
  specialize (Hw c Hc). apply N.eqb_eq in Hw. now subst c.
Qed.

Lemma spaces_first (ws : str) :
  forallb (N.eqb SPACE) ws = true ->
  match ws with c :: _ => c = SPACE | [] => True end.
Proof.
  destruct ws as [|c ws]; [trivial|]. cbn [forallb]. intros H.
  apply andb_true_iff in H as [H _]. apply N.eqb_eq in H. now subst.
Qed.

Lemma spaces_not_digit (ws : str) :
  forallb (N.eqb SPACE) ws = true ->
  match ws with c :: _ => is_digit c = false | [] => True end.
Proof.
  intros H. pose proof (spaces_first _ H) as F.
  destruct ws as [|c ws]; [exact I | now subst c].
Qed.

(** A power of ten that is not above zero is within the range. *)
Lemma exponent_in_range m e :
  (e <= 0)%Z -> (308 <? e)%Z || overflows m e = false.
Proof.
  intros H. unfold overflows.
  destruct (Z.ltb_spec 308 e); [lia|].
  destruct (Z.ltb_spec 0 e); [lia | reflexivity].
Qed.

(** The end of a numeral without exponent: white space only. *)
Lemma numeral_end (ws : str) :
  forallb (N.eqb SPACE) ws = true ->
  exists s4, parse_exponent ws = Some (0%Z, s4)
             /\ dropwhile is_space_ascii s4 = [].
Proof.
  intros Hw. exists ws. split; [|now apply spaces_ascii].
  pose proof (spaces_first _ Hw) as F.
  destruct ws as [|c ws]; [reflexivity|]. subst c. reflexivity.
Qed.

(** Digits, seventeen at most, followed by spaces are read as their
    value. *)
Lemma parse_float_digits (ds ws : str) :
  ds <> [] -> forallb is_digit ds = true -> length ds <= 17 ->
  forallb (N.eqb SPACE) ws = true ->
  parse_float (ds ++ ws) = Some (decimal (digits_value ds) 0).
Proof.
  intros Hne Hd Hlen Hw. unfold parse_float.
  destruct ds as [|d ds]; [congruence|].
  pose proof Hd as Hd'. cbn [forallb] in Hd'.
  apply andb_true_iff in Hd' as [Hd1 _].
  destruct (digit_facts _ Hd1) as (Hs & _ & _).
  cbn [app dropwhile]. rewrite Hs. rewrite take_sign_digit by assumption.
  change (d :: ds ++ ws) with ((d :: ds) ++ ws).
  pose proof (spaces_first _ Hw) as F.
  rewrite span_digits_app; [| exact Hd | exact (spaces_not_digit _ Hw)].
  destruct (numeral_end _ Hw) as (s4 & He & Hs4).
  assert (E : 
                (match ws with
                 | c :: s' => if N.eqb c 46 then span_digits s' else ([], ws)
                 | [] => ([], ws)
                 end) = ([], ws)).
  { destruct ws as [|c ws]; [reflexivity|]. now subst c. }
  rewrite E.
  rewrite (@firstn_all2 _ max_digits (d :: ds)) by exact Hlen.
  rewrite firstn_nil, app_nil_r, He, Hs4, Nat.sub_diag.
  cbn [length Z.of_nat Z.sub Z.add Z.opp].
  rewrite exponent_in_range by lia. reflexivity.
Qed.

(** Digits, a point and digits, seventeen digits at most, followed by
    spaces are read as their value. *)
Lemma parse_float_point (ip fp ws : str) :
  ip <> [] -> forallb is_digit ip = true -> forallb is_digit fp = true ->
  length (ip ++ fp) <= 17 ->
  forallb (N.eqb SPACE) ws = true ->
  parse_float (ip ++ 46%N :: fp ++ ws)
  = Some (decimal (digits_value (ip ++ fp)) (0 - Z.of_nat (length fp))).
Proof.
  intros Hne Hd Hf Hlen Hw. unfold parse_float.
  destruct ip as [|d ip]; [congruence|].
  pose proof Hd as Hd'. cbn [forallb] in Hd'.
  apply andb_true_iff in Hd' as [Hd1 _].
  destruct (digit_facts _ Hd1) as (Hs & _ & _).
  cbn [app dropwhile]. rewrite Hs. rewrite take_sign_digit by assumption.
  change (d :: ip ++ 46%N :: fp ++ ws) with ((d :: ip) ++ 46%N :: fp ++ ws).
  rewrite span_digits_app by (auto; reflexivity).
  change (N.eqb 46 46) with true. cbv iota.
  rewrite span_digits_app; [| exact Hf | exact (spaces_not_digit _ Hw)].
  destruct (numeral_end _ Hw) as (s4 & He & Hs4).
  rewrite length_app in Hlen.
  rewrite (@firstn_all2 _ max_digits (d :: ip))
    by (unfold max_digits; lia).
  rewrite (@firstn_all2 _ _ fp) by (unfold max_digits; lia).
  rewrite He, Hs4, Nat.sub_diag. cbn [app].
  rewrite exponent_in_range by lia.
  destruct (Z.ltb_spec (Z.of_nat 0 - Z.of_nat (length fp) + 0) (-616));
    [lia|].
  do 2 f_equal. lia.
Qed.

Lemma clean_percentage_shape s q :
  clean_percentage s = Some q ->
  exists ip fp,
    ip <> [] /\ forallb is_digit ip = true /\ forallb is_digit fp = true
    /\ (s = ip ++ [PERCENT] /\ fp = []
        \/ s = ip ++ 46%N :: fp ++ [PERCENT])
    /\ q = decimal (digits_value (ip ++ fp)) (0 - Z.of_nat (length fp))
    /\ length (ip ++ fp) <= 15.
Proof.
  unfold clean_percentage.
  destruct (span_digits_spec s) as (Hs & Hip & _).
  destruct (span_digits s) as [ip s1]. cbn [fst snd] in *.
  destruct ip as [|d ip]; [discriminate|].
  destruct s1 as [|c s2]; [discriminate|].
  destruct s2 as [|c2 s2].
  - destruct (N.eqb_spec c PERCENT) as [->|]; [|discriminate].
    destruct (Nat.leb_spec (length (d :: ip)) 15) as [Hle|]; [|discriminate].
    cbn [andb].
    intros H. injection H as <-. exists (d :: ip), [].
    rewrite app_nil_r. repeat split; auto; discriminate.
  - destruct (N.eqb_spec c 46) as [->|]; [|discriminate].
    destruct (span_digits_spec (c2 :: s2)) as (Hs2 & Hfp & _).
    destruct (span_digits (c2 :: s2)) as [fp s3]. cbn [fst snd] in *.
    destruct fp as [|f fp]; [discriminate|].
    destruct s3 as [|p [|? ?]]; try discriminate.
    destruct (N.eqb_spec p PERCENT) as [->|]; [|discriminate].
    destruct (Nat.leb_spec (length ((d :: ip) ++ f :: fp)) 15) as [Hle|];
      [|discriminate].
    cbn [andb].
    intros H. injection H as <-. exists (d :: ip), (f :: fp).
    repeat split; auto; try discriminate.
    right. now rewrite Hs, Hs2.
Qed.

Lemma str_in_spec x xs : str_in x xs = true <-> In x xs.
Proof.
  unfold str_in. rewrite existsb_exists. split.
  - intros (y & Hy & E). apply str_eqb_eq in E. now subst.
  - intros H. exists x. split; [exact H | apply str_eqb_refl].
Qed.

(* ================================================================== *)
(** * Rows between separators *)

Lemma join_snoc sep (xs : list str) x :
  xs <> [] -> join sep (xs ++ [x]) = join sep xs ++ sep ++ x.
Proof.
  induction xs as [|y xs IH]; [congruence|]. intros _.
  destruct xs as [|z xs]; [reflexivity|].
  change (join sep ((y :: z :: xs) ++ [x]))
    with (y ++ sep ++ join sep ((z :: xs) ++ [x])).
  rewrite IH by discriminate.
  change (join sep (y :: z :: xs)) with (y ++ sep ++ join sep (z :: xs)).
  now rewrite <- !app_assoc.
Qed.

Lemma join_cons sep (x : str) xs :
  xs <> [] -> join sep (x :: xs) = x ++ sep ++ join sep xs.
Proof. destruct xs; [congruence | reflexivity]. Qed.

Lemma forallb_join (P : char -> bool) sep xs :
  forallb P sep = true ->
  Forall (fun x => forallb P x = true) xs ->
  forallb P (join sep xs) = true.
Proof.
  intros Hsep H. induction H as [|x xs Hx Hxs IH]; [reflexivity|].
  destruct xs as [|y xs]; [exact Hx|].
  rewrite join_cons by discriminate.
  now rewrite !forallb_app, Hx, Hsep, IH.
Qed.

Lemma In_join sep xs : forall (x : str) c,
  In x xs -> In c x -> In c (join sep xs).
Proof.
  induction xs as [|y xs IH]; intros x c Hx Hc; [contradiction|].
  destruct xs as [|z xs].
  - destruct Hx as [->|[]]. exact Hc.
  - rewrite join_cons by discriminate. apply in_or_app.
    destruct Hx as [->|Hx]; [now left|].
    right. apply in_or_app. right. now apply (IH x).
Qed.

Lemma filter_none {A} (p : A -> bool) (l : list A) :
  (forall x, In x l -> p x = false) -> filter p l = [].
Proof.
  induction l as [|x l IH]; intros H; [reflexivity|].
  cbn [filter]. rewrite (H x (or_introl eq_refl)).
  apply IH. intros y Hy. apply H. now right.
Qed.

Lemma pipe_row_first fields : exists rest, pipe_row fields = PIPE :: rest.
Proof.
  unfold pipe_row, enclose.
  rewrite join_cons by (now destruct fields).
  eexists. reflexivity.
Qed.

Lemma pipe_row_last fields : exists front, pipe_row fields = front ++ [PIPE].
Proof.
  unfold pipe_row, enclose.
  change ([] :: fields ++ [[]]) with (([] :: fields) ++ [[]]).
  rewrite join_snoc by discriminate.
  exists (join [PIPE] ([] :: fields)). now rewrite app_nil_r.
Qed.

Lemma pipe_row_forallb (P : char -> bool) fields :
  P PIPE = true ->
  Forall (fun f => forallb P f = true) fields ->
  forallb P (pipe_row fields) = true.
Proof.
  intros Hp H. unfold pipe_row, enclose. apply forallb_join.
  - cbn [forallb]. now rewrite Hp.
  - constructor; [reflexivity|]. apply Forall_app. split; [exact H|].
    now repeat constructor.
Qed.

Lemma pipe_row_In fields (f : str) c :
  In f fields -> In c f -> In c (pipe_row fields).
Proof.
  intros Hf Hc. unfold pipe_row, enclose.
  apply (In_join [PIPE] _ f); [|exact Hc].
  right. apply in_or_app. now left.
Qed.

Lemma pipe_row_no_linebreak fields :
  Forall no_linebreak fields -> no_linebreak (pipe_row fields).
Proof. intros H. now apply pipe_row_forallb. Qed.

Lemma table_cell_no_linebreak c : table_cell c = true -> no_linebreak c.
Proof.
  unfold table_cell, no_linebreak. intros H.
  apply andb_true_iff in H as [H _].
  rewrite forallb_forall in *. intros x Hx. specialize (H x Hx).
  now apply andb_true_iff in H as [_ H].
Qed.

(** Decorative lines hold separators, spaces and dashes only. *)
Lemma decorative_iff line :
  decorative line = true
  <-> forallb (fun c => N.eqb c PIPE || N.eqb c SPACE || N.eqb c DASH) line
      = true.
Proof.
  unfold decorative, remove_char.
  induction line as [|c line IH]; [tauto|].
  cbn [filter forallb].
  destruct (N.eqb_spec c PIPE) as [->|Hp]; cbn [negb orb andb]; [exact IH|].
  destruct (N.eqb_spec c SPACE) as [->|Hs]; cbn [negb orb andb filter];
    [exact IH|].
  destruct (N.eqb_spec c PIPE); [contradiction|].
  destruct (N.eqb_spec c SPACE); [contradiction|].
  cbn [negb filter forallb]. rewrite (N.eqb_sym DASH c).
  destruct (N.eqb c DASH); cbn [andb]; [exact IH | split; discriminate].
Qed.

Lemma decorative_no_linebreak line : decorative line = true -> no_linebreak line.
Proof.
  intros H. apply decorative_iff in H. unfold no_linebreak.
  rewrite forallb_forall in *. intros c Hc. specialize (H c Hc).
  apply orb_true_iff in H as [H|H]; [apply orb_true_iff in H as [H|H]|];
    apply N.eqb_eq in H; now subst c.
Qed.

Lemma drop_masked_outer {A} (f : str -> bool) names (xs : list A) x y :
  (forall n, In n names -> f n = false) ->
  length names = length xs ->
  drop_masked (true :: map f names ++ [true]) (x :: xs ++ [y]) = xs.
Proof.
  intros Hf. cbn [drop_masked]. revert xs.
  induction names as [|n names IH]; intros [|z xs] Hlen;
    try discriminate; [reflexivity|].
  cbn [map app drop_masked]. rewrite (Hf n (or_introl eq_refl)).
  f_equal. apply IH; [|now injection Hlen].
  intros m Hm. apply Hf. now right.
Qed.

(** A row one field of which holds a character that is no separator,
    space or dash is not decorative. *)
Lemma pipe_row_not_decorative fields (f : str) c :
  In f fields -> In c f ->
  N.eqb c PIPE || N.eqb c SPACE || N.eqb c DASH = false ->
  decorative (pipe_row fields) = false.
Proof.
  intros Hf Hc Hn. destruct (decorative (pipe_row fields)) eqn:E;
    [|reflexivity].
  apply decorative_iff in E. rewrite forallb_forall in E.
  rewrite (E c (@pipe_row_In _ _ _ Hf Hc)) in Hn. discriminate.
Qed.

Lemma plain_enclose fields :
  forallb plain_field fields = true ->
  forallb plain_field (enclose fields) = true.
Proof.
  intros H. unfold enclose. cbn [forallb].
  rewrite forallb_app, H. reflexivity.
Qed.

Lemma visible_pipe_row fields : visible (pipe_row fields) = true.
Proof. destruct (pipe_row_first fields) as (rest & ->). reflexivity. Qed.

Lemma skip_spaces_enclose fields :
  map skip_spaces (enclose fields) = enclose (map skip_spaces fields).
Proof. unfold enclose. cbn [map]. now rewrite map_app. Qed.

(* ================================================================== *)
(** * Tables of such rows through the reader *)

Section PipeTable.

Variables (hf : list str) (decor : list str) (rfs : list (list str)).

Hypothesis header_plain : forallb plain_field hf = true.
Hypothesis header_lines : Forall no_linebreak hf.
Hypothesis rows_plain :
  Forall (fun fs => forallb plain_field fs = true /\ Forall no_linebreak fs) rfs.
Hypothesis decor_decorative : Forall (fun line => decorative line = true) decor.
Hypothesis header_kept : decorative (pipe_row hf) = false.
Hypothesis rows_kept : Forall (fun fs => decorative (pipe_row fs) = false) rfs.
Hypothesis ends_with_row : decor = [] \/ rfs <> [].

Let lines : list str := pipe_row hf :: decor ++ map pipe_row rfs.

Lemma pipe_table_last_line :
  exists init fs, lines = init ++ [pipe_row fs].
Proof.
  unfold lines. destruct (list_eq_dec (list_eq_dec (list_eq_dec N.eq_dec))
                            rfs []) as [E|Hne].
  - destruct ends_with_row as [D|H]; [|contradiction].
    rewrite E, D. exists [], hf. reflexivity.
  - destruct (exists_last Hne) as (rfs' & fs & ->).
    exists (pipe_row hf :: decor ++ map pipe_row rfs'), fs.
    rewrite map_app. cbn [map app]. now rewrite <- app_assoc.
Qed.

Lemma pipe_table_strip : strip (join [LF] lines) = join [LF] lines.
Proof.
  destruct pipe_table_last_line as (init & fs & E).
  destruct (pipe_row_last fs) as (front & Hlast).
  assert (Hend : exists u, join [LF] lines = u ++ [PIPE]).
  { rewrite E. destruct init as [|l init].
    - cbn [app join]. eauto.
    - rewrite join_snoc by discriminate. rewrite Hlast.
      eexists. rewrite !app_assoc. reflexivity. }
  assert (Hstart : exists t, join [LF] lines = PIPE :: t).
  { unfold lines. destruct (pipe_row_first hf) as (rest & ->).
    destruct (decor ++ map pipe_row rfs); cbn [join app]; eauto. }
  destruct Hend as (u & Hu). destruct Hstart as (t & Ht).
  unfold strip, lstrip. rewrite Ht. cbn [dropwhile].
  change (is_space PIPE) with false. cbv iota. rewrite <- Ht, Hu.
  now apply rstrip_last.
Qed.

Lemma pipe_table_lines : splitlines (strip (join [LF] lines)) = lines.
Proof.
  rewrite pipe_table_strip. apply splitlines_join.
  - unfold lines. constructor; [now apply pipe_row_no_linebreak|].
    apply Forall_app. split.
    + eapply Forall_impl; [|exact decor_decorative].
      intros l. apply decorative_no_linebreak.
    + apply Forall_forall. intros line Hl.
      apply in_map_iff in Hl as (fs & <- & Hfs).
      rewrite Forall_forall in rows_plain.
      apply pipe_row_no_linebreak. now apply rows_plain.
  - destruct pipe_table_last_line as (init & fs & ->).
    rewrite last_last. destruct (pipe_row_first fs) as (rest & ->).
    discriminate.
Qed.

Lemma pipe_table_clean_lines :
  clean_lines (join [LF] lines) = pipe_row hf :: map pipe_row rfs.
Proof.
  unfold clean_lines. rewrite pipe_table_lines. unfold lines.
  cbn [filter]. rewrite header_kept. cbn [negb]. f_equal.
  rewrite filter_app.
  assert (D : filter (fun line => negb (decorative line)) decor = []).
  { apply filter_none. intros l Hl. rewrite Forall_forall in decor_decorative.
    now rewrite (decor_decorative l Hl). }
  rewrite D. cbn [app].
  apply forallb_filter_id, forallb_forall. intros line Hl.
  apply in_map_iff in Hl as (fs & <- & Hfs).
  rewrite Forall_forall in rows_kept. now rewrite (rows_kept fs Hfs).
Qed.

Lemma pipe_table_records :
  tokenize (clean_table_md (join [LF] lines)) START_RECORD [] []
  = Ok (map (fun fs => enclose (map skip_spaces fs)) (hf :: rfs)).
Proof.
  unfold clean_table_md. rewrite pipe_table_clean_lines.
  change (pipe_row hf :: map pipe_row rfs) with (map pipe_row (hf :: rfs)).
  unfold pipe_row. rewrite <- (map_map enclose (join [PIPE])).
  rewrite tokenize_lines.
  - rewrite map_map. f_equal. apply map_ext. intros fs.
    apply skip_spaces_enclose.
  - discriminate.
  - apply Forall_forall. intros fs Hfs.
    apply in_map_iff in Hfs as (fs0 & <- & Hc). split.
    + apply plain_enclose. destruct Hc as [<-|Hc]; [assumption|].
      rewrite Forall_forall in rows_plain. now apply rows_plain.
    + apply visible_pipe_row.
Qed.

(** The frame, when the header fields read as distinct names, none of
    them empty or generated, and every row has one field per name. *)

Let names : list str := map skip_spaces hf.

Hypothesis names_given :
  forall n, In n names ->
    is_empty n = false /\ startswith n (lit "Unnamed") = false.
Hypothesis names_distinct : NoDup names.
Hypothesis rows_length : Forall (fun fs => length fs = length hf) rfs.

Let frame : DataFrame (option str) :=
  {| columns := (lit "Unnamed: " ++ str_of_nat 0) :: names
                ++ [lit "Unnamed: " ++ str_of_nat (S (length hf))];
     rows := map (fun fs =>
                    None :: map (fun f => read_cell (skip_spaces f)) fs
                    ++ [None]) rfs |}.

Lemma pipe_table_columns :
  column_names (enclose names) = columns frame.
Proof.
  assert (E : name_columns 0 (enclose names) = columns frame).
  { unfold enclose, frame. cbn [name_columns columns]. f_equal.
    rewrite name_columns_app, name_columns_named.
    - unfold names at 2. rewrite length_map. cbn [name_columns].
      now rewrite Nat.add_1_r.
    - apply forallb_forall. intros n Hn.
      now rewrite (proj1 (names_given n Hn)). }
  rewrite column_names_distinct; rewrite E; [reflexivity|].
  assert (Hout : forall k, ~ In (lit "Unnamed: " ++ str_of_nat k) names).
  { intros k Hin. apply names_given in Hin as [_ Hin]. discriminate Hin. }
  unfold frame. cbn [columns]. constructor.
  - intros Hin. apply in_app_or in Hin as [Hin|[Hin|[]]].
    + now apply (Hout 0).
    + apply app_inv_head in Hin. now apply (@str_of_nat_S_0 (length hf)).
  - apply NoDup_app; [exact names_distinct | |].
    + constructor; [intros []|constructor].
    + intros n Hn [<-|[]]. now apply (Hout (S (length hf))).
Qed.

Lemma pipe_table_read :
  read_csv (clean_table_md (join [LF] lines)) = Ok frame.
Proof.
  pose proof pipe_table_records as T. cbn [map] in T. unfold read_csv.
  rewrite (read_table_rectangular _ T).
  - cbn [bind header leading_cols body skipn].
    fold names. rewrite pipe_table_columns. unfold frame. cbn [columns].
    do 2 f_equal. rewrite map_map. apply map_ext. intros fs.
    unfold enclose. cbn [map]. now rewrite map_app, map_map.
  - apply Forall_forall. intros r Hin.
    apply in_map_iff in Hin as (fs & <- & Hfs).
    rewrite Forall_forall in rows_length. specialize (rows_length fs Hfs).
    unfold enclose. cbn [length].
    rewrite !length_app, !length_map, rows_length. reflexivity.
Qed.

Lemma pipe_table_mask :
  unnamed_mask frame
  = true :: map (fun c => startswith c (lit "Unnamed")) names ++ [true].
Proof.
  unfold unnamed_mask, frame. cbn [columns map]. rewrite map_app. reflexivity.
Qed.

Lemma pipe_table_frame_columns : frame_columns frame = map strip names.
Proof.
  unfold frame_columns. rewrite pipe_table_mask. unfold frame. cbn [columns].
  rewrite drop_masked_outer; [reflexivity | | reflexivity].
  intros n Hn. now apply names_given.
Qed.

Lemma pipe_table_frame_rows :
  frame_rows frame = map (map (fun f => read_cell (skip_spaces f))) rfs.
Proof.
  unfold frame_rows. rewrite pipe_table_mask. unfold frame. cbn [rows].
  rewrite map_map. apply map_ext_in. intros fs Hfs.
  rewrite Forall_forall in rows_length. specialize (rows_length fs Hfs).
  apply drop_masked_outer.
  - intros n Hn. now apply names_given.
  - unfold names. now rewrite !length_map.
Qed.

End PipeTable.

Lemma skip_spaces_snoc_quote c :
  startswith (skip_spaces (c ++ [SPACE])) [QUOTE]
  = startswith (skip_spaces c) [QUOTE].
Proof.
  unfold skip_spaces. induction c as [|x c IH]; [reflexivity|].
  cbn [app dropwhile]. destruct (N.eqb x SPACE); [exact IH|].
  cbn [app startswith]. now destruct c.
Qed.

Lemma plain_markdown_cell c :
  table_cell c = true -> plain_field (markdown_cell c) = true.
Proof.
  unfold table_cell, plain_field, markdown_cell. intros H.
  apply andb_true_iff in H as [Hc Hq]. apply andb_true_iff. split.
  - cbn [app forallb]. rewrite forallb_app. cbn.
    rewrite andb_true_r. rewrite forallb_forall in *.
    intros x Hx. specialize (Hc x Hx).
    apply andb_true_iff in Hc as [Hp Hl]. rewrite Hp. cbn [andb].
    destruct (N.eqb_spec x LF) as [->|]; [discriminate Hl | reflexivity].
  - change (skip_spaces ([SPACE] ++ c ++ [SPACE]))
      with (skip_spaces (c ++ [SPACE])).
    now rewrite skip_spaces_snoc_quote.
Qed.

Lemma startswith_snoc_space h p :
  forallb (fun c => negb (N.eqb SPACE c)) p = true ->
  startswith h p = false -> startswith (h ++ [SPACE]) p = false.
Proof.
  revert p. induction h as [|c h IH]; intros [|k p] Hp H; try discriminate.
  - cbn [forallb] in Hp. apply andb_true_iff in Hp as [Hk _].
    apply negb_true_iff in Hk. cbn [app startswith]. now rewrite Hk.
  - cbn [forallb] in Hp. apply andb_true_iff in Hp as [_ Hp].
    cbn [app startswith] in *. apply andb_false_iff in H as [H|H].
    + now rewrite H.
    + rewrite (IH p Hp H). apply andb_false_r.
Qed.

Lemma trimmed_first h :
  trimmed h = true ->
  exists c rest, h = c :: rest /\ is_space c = false
                 /\ is_space (last h c) = false.
Proof.
  unfold trimmed. destruct h as [|c rest]; [discriminate|].
  intros H. apply andb_true_iff in H as [H1 H2].
  apply negb_true_iff in H1, H2. eauto.
Qed.

Lemma read_field_trimmed h : trimmed h = true -> read_field h = h ++ [SPACE].
Proof.
  intros H. destruct (trimmed_first _ H) as (c & rest & -> & Hc & _).
  unfold read_field, skip_spaces. cbn [app dropwhile].
  destruct (N.eqb_spec c SPACE) as [->|]; [discriminate Hc | reflexivity].
Qed.

Lemma strip_trimmed_space h : trimmed h = true -> strip (h ++ [SPACE]) = h.
Proof.
  intros H. destruct (trimmed_first _ H) as (c & rest & E & Hc & Hl).
  assert (L : lstrip (h ++ [SPACE]) = h ++ [SPACE]).
  { unfold lstrip. rewrite E. cbn [app dropwhile]. now rewrite Hc. }
  unfold strip. rewrite L. unfold rstrip.
  rewrite rev_app_distr. cbn [rev app dropwhile].
  change (is_space SPACE) with true. cbv iota.
  assert (Hne : h <> []) by (rewrite E; discriminate).
  destruct (exists_last Hne) as (front & d & E').
  rewrite E' in *. rewrite last_last in Hl.
  rewrite rev_app_distr. cbn [rev app dropwhile]. rewrite Hl.
  cbn [rev]. now rewrite rev_involutive.
Qed.

Lemma header_name_facts h :
  header_name h = true ->
  trimmed h = true /\ table_cell h = true
  /\ startswith (h ++ [SPACE]) (lit "Unnamed") = false
  /\ is_empty (h ++ [SPACE]) = false.
Proof.
  unfold header_name. intros H. apply andb_true_iff in H as [H Hu].
  apply andb_true_iff in H as [Ht Hc]. apply negb_true_iff in Hu.
  repeat split; auto.
  - now apply startswith_snoc_space.
  - now destruct h.
Qed.


(** The frame read from a table of rows between separators. *)
Lemma pipe_table_frame hf decor rfs :
  forallb plain_field hf = true ->
  Forall no_linebreak hf ->
  Forall (fun fs => forallb plain_field fs = true /\ Forall no_linebreak fs)
         rfs ->
  Forall (fun line => decorative line = true) decor ->
  decorative (pipe_row hf) = false ->
  Forall (fun fs => decorative (pipe_row fs) = false) rfs ->
  decor = [] \/ rfs <> [] ->
  (forall n, In n (map skip_spaces hf) ->
     is_empty n = false /\ startswith n (lit "Unnamed") = false) ->
  NoDup (map skip_spaces hf) ->
  Forall (fun fs => length fs = length hf) rfs ->
  exists df,
    read_csv (clean_table_md
                (join [LF] (pipe_row hf :: decor ++ map pipe_row rfs)))
    = Ok df
    /\ frame_columns df = map strip (map skip_spaces hf)
    /\ frame_rows df = map (map (fun f => read_cell (skip_spaces f))) rfs.
Proof.
  intros H1 H2 H3 H4 H5 H6 H7 H8 H9 H10. eexists. split; [|split].
  - now apply pipe_table_read.
  - now apply pipe_table_frame_columns.
  - now apply pipe_table_frame_rows.
Qed.

(* ================================================================== *)
(** * Markdown tables through the reader *)

Lemma contains_first k kw s : contains (k :: kw) s = true -> In k s.
Proof.
  induction s as [|c s IH]; [discriminate|].
  cbn [contains startswith]. intros H. apply orb_true_iff in H as [H|H].
  - apply andb_true_iff in H as [H _]. apply N.eqb_eq in H. now left.
  - right. now apply IH.
Qed.

(** A weight name holds a character that is no separator, space or
    dash. *)
Lemma weight_name_char h :
  is_weight_name h = true ->
  exists c, In c h /\ N.eqb c PIPE || N.eqb c SPACE || N.eqb c DASH = false.
Proof.
  unfold is_weight_name, keywords. cbn [existsb].
  intros H.
  assert (K : exists k, In k (lower h) /\ In k [119; 48708; 114]%N).
  { repeat (apply orb_true_iff in H as [H|H]); try discriminate;
      apply contains_first in H; eexists; (split; [exact H|]); cbn; tauto. }
  destruct K as (k & Hk & Hin). unfold lower in Hk.
  apply in_map_iff in Hk as (x & Hx & Hxh). exists x. split; [exact Hxh|].
  destruct (N.eqb_spec x PIPE) as [->|_];
    [cbn in Hx; subst k; cbn in Hin; intuition discriminate|].
  destruct (N.eqb_spec x SPACE) as [->|_];
    [cbn in Hx; subst k; cbn in Hin; intuition discriminate|].
  destruct (N.eqb_spec x DASH) as [->|_];
    [cbn in Hx; subst k; cbn in Hin; intuition discriminate|].
  reflexivity.
Qed.

Lemma digit_visible d :
  is_digit d = true ->
  N.eqb d PIPE || N.eqb d SPACE || N.eqb d DASH = false.
Proof.
  unfold is_digit. intros H. apply andb_true_iff in H as [H1 H2].
  apply N.leb_le in H1, H2.
  repeat (apply orb_false_iff; split); apply N.eqb_neq;
    unfold PIPE, SPACE, DASH; lia.
Qed.

Lemma position_lt name cols : In name cols -> position name cols < length cols.
Proof.
  induction cols as [|c cols IH]; [contradiction|].
  cbn [position length]. intros H.
  destruct (str_eqb c name) eqn:E; [lia|].
  destruct H as [->|H]; [now rewrite str_eqb_refl in E|].
  apply IH in H. lia.
Qed.

Lemma occurrences_NoDup name cols : NoDup cols -> occurrences name cols <= 1.
Proof.
  unfold occurrences. induction 1 as [|c cols Hc _ IH]; [simpl; lia|].
  cbn [filter]. destruct (str_eqb name c) eqn:E; [|exact IH].
  apply str_eqb_eq in E. subst c. cbn [length].
  destruct (filter (str_eqb name) cols) as [|x l] eqn:F; [simpl; lia|].
  exfalso. apply Hc.
  assert (Hx : In x (filter (str_eqb name) cols)) by (rewrite F; now left).
  apply filter_In in Hx as [Hx Ex]. apply str_eqb_eq in Ex. now subst.
Qed.

Lemma markdown_cell_no_linebreak c :
  no_linebreak c -> no_linebreak (markdown_cell c).
Proof.
  unfold no_linebreak, markdown_cell. intros H.
  cbn [app forallb]. rewrite forallb_app, H. reflexivity.
Qed.

Lemma skip_spaces_markdown_cell c : skip_spaces (markdown_cell c) = read_field c.
Proof. reflexivity. Qed.

(** The frame read from a well-formed markdown table. *)
Lemma markdown_table_frame hs sep rs :
  forallb header_name hs = true -> NoDup hs ->
  decorative sep = true ->
  rs <> [] ->
  Forall (fun r => length r = length hs /\ forallb table_cell r = true) rs ->
  decorative (markdown_row hs) = false ->
  Forall (fun r => decorative (markdown_row r) = false) rs ->
  exists df,
    read_csv (clean_table_md (markdown_table hs sep rs)) = Ok df
    /\ frame_columns df = hs
    /\ frame_rows df = map (map (fun c => read_cell (read_field c))) rs.
Proof.
  intros Hnames Hnd Hsep Hrs Hrows Hkept Hrkept.
  rewrite forallb_forall in Hnames. rewrite Forall_forall in Hrows.
  assert (Hfields : map skip_spaces (map markdown_cell hs)
                    = map (fun h => h ++ [SPACE]) hs).
  { rewrite map_map. apply map_ext_in. intros h Hh.
    rewrite skip_spaces_markdown_cell. apply read_field_trimmed.
    now apply header_name_facts, Hnames. }
  destruct (@pipe_table_frame (map markdown_cell hs) [sep]
              (map (map markdown_cell) rs)) as (df & Hread & Hcols & Hfrows).
  - apply forallb_forall. intros f Hf.
    apply in_map_iff in Hf as (h & <- & Hh). apply plain_markdown_cell.
    now apply header_name_facts, Hnames.
  - apply Forall_forall. intros f Hf.
    apply in_map_iff in Hf as (h & <- & Hh).
    apply markdown_cell_no_linebreak, table_cell_no_linebreak.
    now apply header_name_facts, Hnames.
  - apply Forall_forall. intros fs Hfs.
    apply in_map_iff in Hfs as (r & <- & Hr).
    destruct (Hrows r Hr) as [_ Hcells]. rewrite forallb_forall in Hcells.
    split.
    + apply forallb_forall. intros f Hf.
      apply in_map_iff in Hf as (c & <- & Hc). apply plain_markdown_cell. auto.
    + apply Forall_forall. intros f Hf.
      apply in_map_iff in Hf as (c & <- & Hc).
      apply markdown_cell_no_linebreak, table_cell_no_linebreak. auto.
  - now repeat constructor.
  - exact Hkept.
  - apply Forall_forall. intros fs Hfs.
    apply in_map_iff in Hfs as (r & <- & Hr).
    rewrite Forall_forall in Hrkept. now apply Hrkept.
  - right. now destruct rs.
  - rewrite Hfields. intros n Hn. apply in_map_iff in Hn as (h & <- & Hh).
    destruct (header_name_facts _ (Hnames h Hh)) as (_ & _ & Hu & He). auto.
  - rewrite Hfields. apply NoDup_map_NoDup_ForallPairs; [|assumption].
    intros a b _ _ E. now apply app_inv_tail in E.
  - apply Forall_forall. intros fs Hfs.
    apply in_map_iff in Hfs as (r & <- & Hr).
    destruct (Hrows r Hr) as [Hlen _]. now rewrite !length_map.
  - exists df. split; [|split].
    + unfold markdown_table, markdown_row. rewrite <- (map_map _ pipe_row).
      exact Hread.
    + rewrite Hcols, Hfields, map_map. rewrite <- (map_id hs) at 2.
      apply map_ext_in. intros h Hh.
      now apply strip_trimmed_space, header_name_facts, Hnames.
    + rewrite Hfrows, map_map. apply map_ext. intros r.
      rewrite map_map. reflexivity.
Qed.

(* ================================================================== *)
(** * A table without rows *)

(** C2 as stated fails: when no row survives the coercion the function
    returns a table without rows, not [None]. *)
Lemma zero_rows_empty_table :
  let table_md := join [LF] [lit "| Name | Weight |"; lit "|---|---|";
                             lit "| Cash | bad |"] in
  parse_portfolio_table table_md
  = Ok (Some {| columns := [lit "Name"; lit "Weight"]; rows := [] |})
  /\ parse_portfolio_table table_md <> Ok None.
Proof. split; [reflexivity | vm_compute; discriminate]. Qed.

Lemma parse_none_iff_witness :
  let no_weight := join [LF] [lit "| Name | Ticker |"; lit "| Apple | AAPL |"] in
  let all_bad := join [LF] [lit "| Name | Weight |"; lit "| Cash | bad |"] in
  parse_portfolio_table [] = Ok None
  /\ parse_portfolio_table (lit "|---|---|") = Ok None
  /\ parse_portfolio_table no_weight = Ok None
  /\ unparseable no_weight
  /\ parse_portfolio_table all_bad
     = Ok (Some {| columns := [lit "Name"; lit "Weight"]; rows := [] |}).
Proof.
  cbv zeta. split; [|split; [|split; [|split]]].
  - apply (proj1 (proj2 (parse_none_iff []))). reflexivity.
  - apply (proj1 (proj2 (proj2 (parse_none_iff (lit "|---|---|"))))).
    reflexivity.
  - eapply (proj1 (proj2 (proj2 (proj2 (parse_none_iff _))))).
    + vm_compute. reflexivity.
    + reflexivity.
  - apply (proj1 (parse_none_iff _)). reflexivity.
  - pose (df := {| columns := [lit "Unnamed: 0"; lit "Name "; lit "Weight ";
                               lit "Unnamed: 3"];
                   rows := [[None; Some (lit "Cash "); Some (lit "bad "); None]]
                |}).
    apply (proj2 (proj2 (proj2 (proj2 (parse_none_iff _)))) df (lit "Weight")).
    + reflexivity.
    + reflexivity.
    + vm_compute. lia.
    + intros r [<-|[]]. reflexivity.
Defined.

(* ================================================================== *)
(** * Every row has one cell per column *)

Lemma update_length {A} (xs : list A) : forall i x,
  length (update xs i x) = length xs.
Proof.
  induction xs as [|y xs IH]; intros [|i] x; simpl; auto.
Qed.

Lemma mangle_length order : forall this_header counts,
  length (mangle order this_header counts) = length this_header.
Proof.
  induction order as [|i order IH]; intros this_header counts; [reflexivity|].
  cbn [mangle]. cbv zeta.
  destruct (count_of counts (nth i this_header [])); [apply IH|].
  destruct (free_name _ _ _ _) as [col k].
  rewrite IH. apply update_length.
Qed.

Lemma column_names_length hd : length (column_names hd) = length hd.
Proof.
  unfold column_names. rewrite mangle_length. apply name_columns_length.
Qed.

Lemma pad_length n (r : list str) : length r <= n -> length (pad n r) = n.
Proof.
  intros H. unfold pad. rewrite length_app, repeat_length. lia.
Qed.

Lemma read_csv_rows_length s df :
  read_csv s = Ok df ->
  Forall (fun r => length r = length (columns df)) (rows df).
Proof.
  unfold read_csv, read_table.
  destruct (tokenize s START_RECORD [] []) as [records|e]; [|discriminate].
  cbn [bind]. destruct records as [|hd [|first later]]; [discriminate| |].
  - cbn [bind]. intros H. injection H as <-. constructor.
  - destruct (existsb _ later) eqn:Hex; [discriminate|]. cbn [bind].
    intros H. injection H as <-. cbn [rows columns header body leading_cols].
    rewrite column_names_length.
    set (width := Nat.max (length hd) (length first)) in *.
    assert (Hle : forall r0, In r0 (first :: later) -> length r0 <= width).
    { intros r0 [<-|Hr0]; [lia|].
      destruct (Nat.ltb_spec width (length r0)) as [Hlt|]; [|assumption].
      assert (E : existsb (fun r => width <? length r) later = true).
      { apply existsb_exists. exists r0. split; [exact Hr0|].
        now apply Nat.ltb_lt. }
      rewrite E in Hex. discriminate Hex. }
    assert (Hall : forall r0, In r0 (first :: later) ->
              length (map read_cell (skipn (width - length hd) (pad width r0)))
              = length hd).
    { intros r0 Hr0. rewrite length_map, length_skipn, pad_length; [lia|].
      now apply Hle. }
    apply Forall_forall. intros r Hr. destruct Hr as [<-|Hr].
    + apply (Hall first). now left.
    + apply in_map_iff in Hr as (r1 & <- & Hr1).
      apply in_map_iff in Hr1 as (r0 & <- & Hr0).
      apply (Hall r0). now right.
Qed.

Lemma drop_masked_length {A B} (mask : list bool) : forall (xs : list A) (ys : list B),
  length xs = length mask -> length ys = length mask ->
  length (drop_masked mask xs) = length (drop_masked mask ys).
Proof.
  induction mask as [|m mask IH]; intros [|x xs] [|y ys] Hx Hy;
    try discriminate; [reflexivity|].
  cbn [drop_masked]. injection Hx as Hx. injection Hy as Hy.
  destruct m; cbn [length]; [|f_equal]; now apply IH.
Qed.

Lemma frame_rows_columns df :
  Forall (fun r => length r = length (columns df)) (rows df) ->
  Forall (fun r => length r = length (frame_columns df)) (frame_rows df).
Proof.
  intros H. unfold frame_rows, frame_columns. apply Forall_forall.
  intros r Hr. apply in_map_iff in Hr as (r0 & <- & Hr0).
  rewrite Forall_forall in H. rewrite length_map.
  apply drop_masked_length.
  - unfold unnamed_mask. rewrite length_map. now apply H.
  - unfold unnamed_mask. now rewrite length_map.
Qed.

Lemma convert_row_length w : forall row,
  length (convert_row w row) = length row.
Proof.
  induction w as [|w IH]; intros [|c rest]; try reflexivity;
    cbn [convert_row length]; f_equal; [apply length_map | apply IH].
Qed.

(** What a returned table is made of: its weight column is found under a
    name no other column bears, and every row is a converted row of the
    frame, with one cell per column and a number for weight. *)
Lemma parse_some_rows table_md df :
  parse_portfolio_table table_md = Ok (Some df) ->
  exists weight_col,
    find_weight_col (columns df) = Some weight_col
    /\ occurrences weight_col (columns df) <= 1
    /\ Forall (fun r =>
                 length r = length (columns df)
                 /\ is_nan (nth (position weight_col (columns df)) r NaN) = false
                 /\ exists r0,
                      r = convert_row (position weight_col (columns df)) r0)
              (rows df).
Proof.
  intros H. apply parse_some_inv in H
    as (df0 & weight_col & Hread & Hfind & Hocc & ->).
  exists weight_col. cbn [columns rows]. split; [exact Hfind|].
  split; [exact Hocc|].
  pose proof (frame_rows_columns _ (read_csv_rows_length _ Hread)) as Hlen.
  rewrite Forall_forall in Hlen. apply Forall_forall. intros r Hr.
  unfold dropna in Hr. apply filter_In in Hr as [Hr Hnan].
  apply in_map_iff in Hr as (r0 & <- & Hr0).
  split; [|split].
  - rewrite convert_row_length. now apply Hlen.
  - now apply negb_true_iff in Hnan.
  - now exists r0.
Qed.

(* ================================================================== *)
(** * A number is not made of dashes *)









(* ================================================================== *)
(** * Normalising a table written again *)

Lemma strip_trimmed h : trimmed h = true -> strip h = h.
Proof.
  intros H. destruct (trimmed_first _ H) as (c & rest & E & Hc & Hl).
  assert (L : lstrip h = h).
  { unfold lstrip. rewrite E. cbn [dropwhile]. now rewrite Hc. }
  unfold strip. rewrite L.
  assert (Hne : h <> []) by (rewrite E; discriminate).
  destruct (exists_last Hne) as (front & d & E').
  rewrite E' in *. rewrite last_last in Hl. now apply rstrip_last.
Qed.


Lemma table_cell_plain c : table_cell c = true -> plain_field c = true.
Proof.
  unfold table_cell, plain_field. intros H.
  apply andb_true_iff in H as [Hc Hq]. rewrite Hq, andb_true_r.
  rewrite forallb_forall in *. intros x Hx. specialize (Hc x Hx).
  apply andb_true_iff in Hc as [Hp Hl]. rewrite Hp. cbn [andb].
  destruct (N.eqb_spec x LF) as [->|]; [discriminate Hl | reflexivity].
Qed.


Section Again.

Variable render : number -> str.






End Again.



(* ================================================================== *)
(** * Tables with any padding *)

Lemma dropwhile_split p (s : str) :
  exists pre, s = pre ++ dropwhile p s /\ forallb p pre = true.
Proof.
  induction s as [|c s IH]; [now exists []|]. cbn [dropwhile].
  destruct (p c) eqn:E; [|now exists []].
  destruct IH as (pre & H1 & H2). exists (c :: pre). split.
  - cbn [app]. now f_equal.
  - cbn [forallb]. now rewrite E.
Qed.

Lemma dropwhile_app_all p (a b : str) :
  forallb p a = true -> dropwhile p (a ++ b) = dropwhile p b.
Proof.
  induction a as [|c a IH]; [reflexivity|]. cbn [forallb app dropwhile].
  intros H. apply andb_true_iff in H as [Hc Ha]. rewrite Hc. now apply IH.
Qed.

(** The field as the reader takes it: its cell and the spaces after
    it. *)
Lemma skip_spaces_trim f :
  exists ws, skip_spaces f = trim f ++ ws
             /\ forallb (N.eqb SPACE) ws = true.
Proof.
  unfold trim. set (g := skip_spaces f).
  destruct (dropwhile_split (fun c => N.eqb c SPACE) (rev g))
    as (pre & E & Hpre).
  exists (rev pre). split.
  - apply (f_equal (@rev char)) in E.
    rewrite rev_involutive, rev_app_distr in E. exact E.
  - rewrite forallb_rev. apply forallb_forall. intros c Hc.
    rewrite forallb_forall in Hpre. rewrite N.eqb_sym. now apply Hpre.
Qed.

Lemma trim_In f c : In c (trim f) -> In c f.
Proof.
  intros H. destruct (skip_spaces_trim f) as (ws & E & _).
  destruct (dropwhile_split (fun c => N.eqb c SPACE) f) as (pre & E' & _).
  rewrite E'. apply in_or_app. right. fold (skip_spaces f). rewrite E.
  apply in_or_app. now left.
Qed.

Lemma trim_nil f : trim f = [] -> skip_spaces f = [].
Proof.
  intros H. destruct (skip_spaces_trim f) as (ws & E & Hws).
  rewrite H in E. cbn [app] in E.
  destruct ws as [|c ws]; [exact E|].
  apply dropwhile_head in E. cbn [forallb] in Hws.
  apply andb_true_iff in Hws as [Hc _]. rewrite N.eqb_sym in Hc. congruence.
Qed.

Lemma spaces_is_space (ws : str) :
  forallb (N.eqb SPACE) ws = true -> forallb is_space ws = true.
Proof.
  intros H. apply forallb_forall. intros c Hc. rewrite forallb_forall in H.
  specialize (H c Hc). apply N.eqb_eq in H. now subst c.
Qed.

Lemma strip_trimmed_spaces h ws :
  trimmed h = true -> forallb (N.eqb SPACE) ws = true -> strip (h ++ ws) = h.
Proof.
  intros H Hws. destruct (trimmed_first _ H) as (c & rest & E & Hc & Hl).
  assert (L : lstrip (h ++ ws) = h ++ ws).
  { unfold lstrip. rewrite E. cbn [app dropwhile]. now rewrite Hc. }
  unfold strip. rewrite L. unfold rstrip. rewrite rev_app_distr.
  rewrite dropwhile_app_all
    by (rewrite forallb_rev; now apply spaces_is_space).
  assert (Hne : h <> []) by (rewrite E; discriminate).
  destruct (exists_last Hne) as (front & d & E').
  rewrite E' in *. rewrite last_last in Hl.
  rewrite rev_app_distr. cbn [rev app dropwhile]. rewrite Hl.
  cbn [rev]. now rewrite rev_involutive.
Qed.

Lemma startswith_spaces h ws p :
  forallb (fun c => negb (N.eqb SPACE c)) p = true ->
  forallb (N.eqb SPACE) ws = true ->
  startswith h p = false -> startswith (h ++ ws) p = false.
Proof.
  intros Hp Hws. revert p Hp.
  induction h as [|c h IH]; intros [|k p] Hp H; try discriminate.
  - cbn [forallb] in Hp. apply andb_true_iff in Hp as [Hk _].
    apply negb_true_iff in Hk. cbn [app].
    destruct ws as [|x ws]; [reflexivity|]. cbn [forallb] in Hws.
    apply andb_true_iff in Hws as [Hx _]. apply N.eqb_eq in Hx. subst x.
    cbn [startswith]. now rewrite Hk.
  - cbn [forallb] in Hp. apply andb_true_iff in Hp as [_ Hp].
    cbn [app startswith] in *. apply andb_false_iff in H as [H|H].
    + now rewrite H.
    + rewrite (IH p Hp H). apply andb_false_r.
Qed.

(** What the reader makes of the field of a column name. *)
Lemma header_field_facts f :
  header_name (trim f) = true ->
  is_empty (skip_spaces f) = false
  /\ startswith (skip_spaces f) (lit "Unnamed") = false
  /\ strip (skip_spaces f) = trim f.
Proof.
  intros H. destruct (skip_spaces_trim f) as (ws & E & Hws). rewrite E.
  unfold header_name in H. apply andb_true_iff in H as [H Hu].
  apply andb_true_iff in H as [Ht _]. apply negb_true_iff in Hu.
  repeat split.
  - destruct (trimmed_first _ Ht) as (c & rest & -> & _). reflexivity.
  - now apply startswith_spaces.
  - now apply strip_trimmed_spaces.
Qed.

Lemma table_cell_fields fs :
  forallb table_cell fs = true ->
  forallb plain_field fs = true /\ Forall no_linebreak fs.
Proof.
  intros H. rewrite forallb_forall in H. split.
  - apply forallb_forall. intros f Hf. now apply table_cell_plain, H.
  - apply Forall_forall. intros f Hf. now apply table_cell_no_linebreak, H.
Qed.

(** The frame read from a well-formed table. *)
Lemma well_formed_frame hf sep rfs :
  well_formed hf sep rfs ->
  decorative (pipe_row hf) = false ->
  Forall (fun fs => decorative (pipe_row fs) = false) rfs ->
  exists df,
    read_csv (clean_table_md (pipe_table hf sep rfs)) = Ok df
    /\ frame_columns df = map trim hf
    /\ frame_rows df = map (map (fun f => read_cell (skip_spaces f))) rfs.
Proof.
  intros (Hcells & Hnames & Hnd & Hsep & Hne & Hrows) Hkept Hrkept.
  rewrite forallb_forall in Hnames.
  assert (Hfacts : forall f, In f hf ->
            is_empty (skip_spaces f) = false
            /\ startswith (skip_spaces f) (lit "Unnamed") = false
            /\ strip (skip_spaces f) = trim f).
  { intros f Hf. apply header_field_facts, Hnames. now apply in_map. }
  destruct (@pipe_table_frame hf [sep] rfs) as (df & Hread & Hcols & Hfrows).
  - now apply table_cell_fields.
  - now apply table_cell_fields.
  - eapply Forall_impl; [|exact Hrows]. intros fs [_ H].
    now apply table_cell_fields.
  - now repeat constructor.
  - exact Hkept.
  - exact Hrkept.
  - now right.
  - intros n Hn. apply in_map_iff in Hn as (f & <- & Hf).
    destruct (Hfacts f Hf) as (H1 & H2 & _). auto.
  - apply (NoDup_map_inv (fun g => rev (skip_spaces (rev g)))).
    now rewrite map_map.
  - eapply Forall_impl; [|exact Hrows]. now intros fs [H _].
  - exists df. split; [exact Hread|]. split; [|exact Hfrows].
    rewrite Hcols, map_map. apply map_ext_in. intros f Hf.
    now apply Hfacts.
Qed.

(** The header of a table with a weight column is not decorative. *)
Lemma header_kept hf weight_col :
  find_weight_col (map trim hf) = Some weight_col ->
  decorative (pipe_row hf) = false.
Proof.
  intros Hfind. destruct (find_weight_col_In _ Hfind) as [Hin Hwn].
  apply in_map_iff in Hin as (f & <- & Hf).
  destruct (weight_name_char _ Hwn) as (c & Hc & Hv).
  apply (@pipe_row_not_decorative _ f c); [exact Hf | | exact Hv].
  now apply trim_In.
Qed.

(** The table returned for a well-formed table, before the rows without
    weight are set apart. *)
Lemma pipe_table_parsed hf sep rfs weight_col :
  well_formed hf sep rfs ->
  find_weight_col (map trim hf) = Some weight_col ->
  Forall (fun fs => decorative (pipe_row fs) = false) rfs ->
  parse_portfolio_table (pipe_table hf sep rfs)
  = Ok (Some
          {| columns := map trim hf;
             rows := dropna (position weight_col (map trim hf))
                       (map (convert_row (position weight_col (map trim hf)))
                            (map (map (fun f => read_cell (skip_spaces f)))
                                 rfs)) |}).
Proof.
  intros Hwf Hfind Hrkept.
  destruct (@well_formed_frame hf sep rfs Hwf (header_kept _ Hfind) Hrkept)
    as (df0 & Hread & Hcols & Hfrows).
  destruct Hwf as (_ & _ & Hnd & _).
  assert (Hocc : occurrences weight_col (frame_columns df0) <= 1).
  { rewrite Hcols. now apply occurrences_NoDup. }
  assert (Hfind0 : find_weight_col (frame_columns df0) = Some weight_col)
    by now rewrite Hcols.
  rewrite (parse_reaches_return _ Hread Hfind0 Hocc).
  now rewrite Hcols, Hfrows.
Qed.

(* ================================================================== *)
(** * Weight cells *)

Lemma remove_char_spaces x (ws : str) :
  x <> SPACE -> forallb (N.eqb SPACE) ws = true -> remove_char x ws = ws.
Proof.
  intros Hx H. unfold remove_char. apply forallb_filter_id, forallb_forall.
  intros c Hc. rewrite forallb_forall in H. specialize (H c Hc).
  apply N.eqb_eq in H. subst c. apply negb_true_iff. now apply N.eqb_neq.
Qed.

(** The weight cell as [to_numeric] sees it: the cell without its
    percent signs and commas, and the spaces after it. *)
Lemma cleaned_field c ws :
  forallb (N.eqb SPACE) ws = true ->
  remove_char COMMA (remove_char PERCENT (c ++ ws))
  = remove_char COMMA (remove_char PERCENT c) ++ ws.
Proof.
  intros H. rewrite !remove_char_app.
  rewrite (@remove_char_spaces PERCENT ws), (@remove_char_spaces COMMA ws)
    by (assumption || discriminate).
  reflexivity.
Qed.

(** No missing-value marker is a number. *)
Lemma na_no_number v :
  In v na_values ->
  to_numeric (remove_char COMMA (remove_char PERCENT v)) = None.
Proof.
  intros H.
  assert (Hall : forallb
                   (fun x => match to_numeric
                                     (remove_char COMMA (remove_char PERCENT x))
                             with
                             | None => true
                             | Some _ => false
                             end) na_values = true) by reflexivity.
  rewrite forallb_forall in Hall. specialize (Hall v H).
  now destruct (to_numeric _).
Qed.

Lemma weight_cell_number_text s x :
  to_numeric (remove_char COMMA (remove_char PERCENT s)) = Some x ->
  weight_cell (read_cell s) = Number x.
Proof.
  intros H. unfold read_cell. destruct (str_in s na_values) eqn:E.
  - apply str_in_spec, na_no_number in E. congruence.
  - unfold weight_cell. cbn [astype_str]. now rewrite H.
Qed.

Lemma plain_number_shape s q :
  plain_number s = Some q ->
  exists ip fp,
    ip <> [] /\ forallb is_digit ip = true /\ forallb is_digit fp = true
    /\ (s = ip /\ fp = [] \/ s = ip ++ 46%N :: fp)
    /\ q = decimal (digits_value (ip ++ fp)) (0 - Z.of_nat (length fp))
    /\ length (ip ++ fp) <= 15.
Proof.
  unfold plain_number.
  destruct (span_digits_spec s) as (Hs & Hip & _).
  destruct (span_digits s) as [ip s1]. cbn [fst snd] in *.
  destruct ip as [|d ip]; [discriminate|].
  destruct s1 as [|c s2].
  - destruct (Nat.leb_spec (length (d :: ip)) 15) as [Hle|]; [|discriminate].
    intros H. injection H as <-. exists (d :: ip), [].
    rewrite app_nil_r in *. repeat split; auto; discriminate.
  - destruct (N.eqb_spec c 46) as [->|]; [|discriminate].
    destruct (span_digits_spec s2) as (Hs2 & Hfp & _).
    destruct (span_digits s2) as [fp s3]. cbn [fst snd] in *.
    destruct s3 as [|? ?]; [|discriminate].
    destruct (Nat.leb_spec (length ((d :: ip) ++ fp)) 15) as [Hle|];
      [|discriminate].
    intros H. injection H as <-. exists (d :: ip), fp.
    rewrite app_nil_r in Hs2.
    repeat split; auto; try discriminate.
    right. now rewrite Hs, Hs2.
Qed.

(** A plain number followed by spaces is read as its value. *)
Lemma plain_number_spaces s q ws :
  plain_number s = Some q -> forallb (N.eqb SPACE) ws = true ->
  to_numeric (s ++ ws) = Some (Finite q).
Proof.
  intros H Hws.
  apply plain_number_shape in H
    as (ip & fp & Hne & Hip & Hfp & [[-> ->] | ->] & -> & Hlen);
    unfold to_numeric.
  - rewrite app_nil_r in *.
    rewrite parse_float_digits by (assumption || lia).
    destruct ip; [congruence | reflexivity].
  - rewrite <- app_assoc. cbn [app].
    rewrite parse_float_point by (assumption || lia).
    destruct ip; [congruence | reflexivity].
Qed.

(** The weight read from the field of a plain weight. *)
Lemma field_plain_weight f q :
  plain_weight (trim f) = Some q ->
  weight_cell (read_cell (skip_spaces f)) = Number (Finite q).
Proof.
  intros H. destruct (skip_spaces_trim f) as (ws & -> & Hws).
  apply weight_cell_number_text. rewrite cleaned_field by assumption.
  now apply plain_number_spaces.
Qed.

Lemma no_digit_span (s : str) :
  forallb (fun x => negb (is_digit x)) s = true -> span_digits s = ([], s).
Proof.
  destruct s as [|c s]; [reflexivity|]. cbn [forallb span_digits].
  intros H. apply andb_true_iff in H as [H _]. apply negb_true_iff in H.
  now rewrite H.
Qed.

Lemma no_digit_tail p (s : str) :
  forallb (fun x => negb (is_digit x)) s = true ->
  forallb (fun x => negb (is_digit x)) (dropwhile p s) = true.
Proof.
  induction s as [|c s IH]; [reflexivity|]. cbn [forallb dropwhile].
  intros H. destruct (p c); [|exact H].
  apply andb_true_iff in H as [_ H]. now apply IH.
Qed.

(** A text without a digit is no numeral. *)
Lemma no_digit_parse_float (s : str) :
  forallb (fun x => negb (is_digit x)) s = true -> parse_float s = None.
Proof.
  intros H. unfold parse_float.
  pose proof (no_digit_tail is_space_ascii _ H) as H0.
  destruct (dropwhile is_space_ascii s) as [|c s0]; [reflexivity|].
  assert (E : exists negative s1,
            take_sign (c :: s0) = (negative, s1)
            /\ forallb (fun x => negb (is_digit x)) s1 = true).
  { cbn [take_sign]. pose proof H0 as H1. cbn [forallb] in H1.
    apply andb_true_iff in H1 as [_ H1].
    destruct (N.eqb c 45); [eauto|]. destruct (N.eqb c 43); eauto. }
  destruct E as (negative & s1 & -> & H1).
  rewrite (no_digit_span _ H1).
  destruct s1 as [|d s1]; [reflexivity|].
  cbn [forallb] in H1. apply andb_true_iff in H1 as [_ H1].
  destruct (N.eqb d 46); [|reflexivity].
  now rewrite (no_digit_span _ H1).
Qed.

Lemma str_in_app x (a b : list str) :
  str_in x (a ++ b) = str_in x a || str_in x b.
Proof. apply existsb_app. Qed.

Lemma no_numeral_to_numeric (s : str) :
  forallb (fun x => negb (is_digit x)) s = true ->
  str_in (lower s) infinities = false ->
  to_numeric s = None.
Proof.
  intros Hd Hi. unfold to_numeric. destruct s as [|c s]; [reflexivity|].
  rewrite (no_digit_parse_float _ Hd).
  change infinities
    with ([lit "inf"; lit "+inf"; lit "infinity"; lit "+infinity"]
          ++ [lit "-inf"; lit "-infinity"]) in Hi.
  rewrite str_in_app in Hi. apply orb_false_iff in Hi as [-> ->].
  reflexivity.
Qed.

Lemma lower_spaces (ws : str) :
  forallb (N.eqb SPACE) ws = true -> lower ws = ws.
Proof.
  unfold lower. induction ws as [|c ws IH]; [reflexivity|].
  cbn [forallb map]. intros H. apply andb_true_iff in H as [Hc H].
  apply N.eqb_eq in Hc. subst c. now rewrite IH.
Qed.

(** The weight read from the field of a cell that is no numeral. *)
Lemma field_no_numeral f :
  no_numeral (trim f) = true ->
  weight_cell (read_cell (skip_spaces f)) = NaN.
Proof.
  intros H. destruct (skip_spaces_trim f) as (ws & -> & Hws).
  unfold no_numeral in H. apply andb_true_iff in H as [Hd Hi].
  apply negb_true_iff in Hi.
  unfold read_cell. destruct (str_in (trim f ++ ws) na_values);
    [reflexivity|].
  unfold weight_cell. cbn [astype_str]. rewrite cleaned_field by assumption.
  rewrite no_numeral_to_numeric; [reflexivity | |].
  - rewrite forallb_app. apply andb_true_iff. split.
    + apply forallb_forall. intros c Hc. unfold remove_char in Hc.
      apply filter_In in Hc as [Hc _]. apply filter_In in Hc as [Hc _].
      rewrite forallb_forall in Hd. now apply Hd.
    + apply forallb_forall. intros c Hc. rewrite forallb_forall in Hws.
      specialize (Hws c Hc). apply N.eqb_eq in Hws. now subst c.
  - destruct ws as [|x ws]; [now rewrite app_nil_r|].
    destruct (str_in (lower (_ ++ x :: ws)) infinities) eqn:E;
      [|reflexivity].
    apply str_in_spec in E.
    assert (Hall : forallb (fun v => negb (N.eqb (last v 0%N) SPACE))
                           infinities = true) by reflexivity.
    rewrite forallb_forall in Hall. specialize (Hall _ E).
    unfold lower in Hall. rewrite map_app in Hall.
    fold (lower (x :: ws)) in Hall.
    rewrite (@lower_spaces (x :: ws) Hws) in Hall.
    destruct (exists_last (l := x :: ws)) as (front & y & Ey);
      [discriminate|].
    assert (Hy : y = SPACE).
    { rewrite forallb_forall in Hws. symmetry. apply N.eqb_eq, Hws.
      rewrite Ey. apply in_or_app. right. now left. }
    rewrite Ey, app_assoc, last_last, Hy in Hall. discriminate Hall.
Qed.

(** A plain weight holds a digit, and so does every row with a cell that
    is one: no such row is decorative. *)
Lemma plain_weight_digit c :
  plain_weight c <> None -> exists d, In d c /\ is_digit d = true.
Proof.
  unfold plain_weight.
  destruct (plain_number _) as [q|] eqn:E; [|congruence]. intros _.
  apply plain_number_shape in E as (ip & fp & Hne & Hip & _ & Hs & _).
  destruct ip as [|d ip]; [congruence|]. exists d.
  cbn [forallb] in Hip. apply andb_true_iff in Hip as [Hd _].
  split; [|exact Hd].
  assert (Hin : In d (remove_char COMMA (remove_char PERCENT c))).
  { destruct Hs as [[-> _] | ->]; now left. }
  unfold remove_char in Hin. apply filter_In in Hin as [Hin _].
  now apply filter_In in Hin as [Hin _].
Qed.

Lemma row_with_digit_kept (fs : list str) w d :
  w < length fs -> In d (trim (nth w fs [])) -> is_digit d = true ->
  decorative (pipe_row fs) = false.
Proof.
  intros Hw Hin Hd.
  apply (@pipe_row_not_decorative _ (nth w fs []) d).
  - now apply nth_In.
  - now apply trim_In.
  - now apply digit_visible.
Qed.

(** The cell at a place of a row as read. *)
Lemma nth_read_fields w (fs : list str) :
  w < length fs ->
  nth w (map (fun f => read_cell (skip_spaces f)) fs) None
  = read_cell (skip_spaces (nth w fs [])).
Proof.
  intros H.
  rewrite (nth_indep _ None (read_cell (skip_spaces [])))
    by (rewrite length_map; exact H).
  apply (map_nth (fun f => read_cell (skip_spaces f))).
Qed.



(* ================================================================== *)
(** * Rows kept and rows dropped, on the text of a table *)

Lemma field_weight_of f :
  settled (trim f) = true ->
  weight_cell (read_cell (skip_spaces f)) = weight_of (trim f).
Proof.
  unfold settled, has_weight, weight_of.
  destruct (plain_weight (trim f)) as [q|] eqn:E.
  - intros _. now apply field_plain_weight.
  - cbn [orb]. apply field_no_numeral.
Qed.

(** The rows of the table returned for a well-formed table whose weight
    cells leave no doubt: the rows with a plain weight, in their order. *)
Lemma pipe_table_rows hf sep rfs weight_col :
  well_formed hf sep rfs ->
  find_weight_col (map trim hf) = Some weight_col ->
  Forall (fun fs => decorative (pipe_row fs) = false) rfs ->
  Forall (fun fs =>
            settled (trim (nth (position weight_col (map trim hf)) fs []))
            = true) rfs ->
  parse_portfolio_table (pipe_table hf sep rfs)
  = Ok (Some
          {| columns := map trim hf;
             rows :=
               map (fun fs =>
                      convert_row (position weight_col (map trim hf))
                        (map (fun f => read_cell (skip_spaces f)) fs))
                   (filter
                      (fun fs =>
                         has_weight
                           (trim (nth (position weight_col (map trim hf))
                                      fs [])))
                      rfs) |}).
Proof.
  intros Hwf Hfind Hrkept Hset.
  rewrite (@pipe_table_parsed hf sep rfs weight_col) by assumption.
  set (w := position weight_col (map trim hf)) in *.
  destruct (find_weight_col_In _ Hfind) as [Hin _].
  assert (Hw : w < length hf).
  { rewrite <- (length_map trim). now apply position_lt. }
  destruct Hwf as (_ & _ & _ & _ & _ & Hrows).
  rewrite dropna_convert, filter_map_swap, map_map. do 3 f_equal.
  f_equal. apply filter_ext_in. intros fs Hfs.
  rewrite Forall_forall in Hrows, Hset.
  destruct (Hrows fs Hfs) as [Hlen _]. specialize (Hset fs Hfs).
  rewrite nth_read_fields by (unfold str in *; lia).
  rewrite field_weight_of by assumption.
  unfold weight_of, has_weight. now destruct (plain_weight _).
Qed.

(** The weight column and the text cells of rows that are kept. *)
Lemma kept_column w (rs : list (list str)) :
  Forall (fun fs => w < length fs /\ settled (trim (nth w fs [])) = true) rs ->
  map (fun r => nth w r NaN)
      (map (fun fs => convert_row w
                        (map (fun f => read_cell (skip_spaces f)) fs)) rs)
  = map (fun fs => weight_of (trim (nth w fs []))) rs.
Proof.
  intros H. rewrite map_map. apply map_ext_in. intros fs Hfs.
  rewrite Forall_forall in H. destruct (H fs Hfs) as [Hw Hs].
  rewrite nth_convert_row, nth_read_fields by exact Hw.
  now apply field_weight_of.
Qed.


Lemma has_weight_settled c : has_weight c = true -> settled c = true.
Proof. unfold settled. now intros ->. Qed.

Lemma has_weight_iff c : has_weight c = true <-> plain_weight c <> None.
Proof.
  unfold has_weight. destruct (plain_weight c); split; congruence.
Qed.

(** A clean percentage is a plain weight, of the same value. *)
Lemma clean_percentage_plain s q :
  clean_percentage s = Some q -> plain_weight s = Some q.
Proof.
  intros H. apply clean_percentage_shape in H
    as (ip & fp & Hne & Hip & Hfp & Hs & -> & Hlen).
  unfold plain_weight, plain_number.
  destruct Hs as [[-> ->] | ->].
  - rewrite !remove_char_app.
    rewrite (@remove_char_digits PERCENT ip), (@remove_char_digits COMMA ip)
      by (auto; reflexivity).
    change (remove_char COMMA (remove_char PERCENT [PERCENT])) with (@nil char).
    rewrite span_digits_app by (auto; exact I).
    rewrite app_nil_r in *. destruct ip as [|d ip]; [congruence|].
    destruct (Nat.leb_spec (length (d :: ip)) 15); [reflexivity | lia].
  - replace (ip ++ 46%N :: fp ++ [PERCENT])
      with (ip ++ [46%N] ++ fp ++ [PERCENT]) by reflexivity.
    rewrite !remove_char_app.
    rewrite (@remove_char_digits PERCENT ip), (@remove_char_digits PERCENT fp),
      (@remove_char_digits COMMA ip), (@remove_char_digits COMMA fp)
      by (auto; reflexivity).
    change (remove_char COMMA (remove_char PERCENT [PERCENT])) with (@nil char).
    change (remove_char COMMA (remove_char PERCENT [46%N])) with [46%N].
    cbn [app]. rewrite span_digits_app by (auto; reflexivity).
    destruct ip as [|d ip]; [congruence|].
    change (N.eqb 46 46) with true. cbv iota.
    rewrite app_nil_r.
    rewrite <- (app_nil_r fp) at 1. rewrite span_digits_app by (auto; exact I).
    destruct (Nat.leb_spec (length ((d :: ip) ++ fp)) 15); [reflexivity | lia].
Qed.

Lemma plain_rows_kept w n (rs : list (list str)) :
  Forall (fun fs => length fs = n) rs -> w < n ->
  Forall (fun fs => plain_weight (trim (nth w fs [])) <> None) rs ->
  Forall (fun fs => decorative (pipe_row fs) = false) rs.
Proof.
  intros Hlen Hw H. apply Forall_forall. intros fs Hfs.
  rewrite Forall_forall in Hlen, H.
  destruct (@plain_weight_digit _ (H fs Hfs)) as (d & Hin & Hd).
  apply (@row_with_digit_kept fs w d); auto.
  specialize (Hlen fs Hfs). unfold str in *. lia.
Qed.

(** C7: a well-formed markdown table (a header row of column names, no
    two the same, a separator row, one data row at least, every row with
    one cell per column, the cells padded with any number of spaces,
    none of them opening with a quote) whose weight cells are clean
    percentages is normalised to a table with the same columns and as
    many rows, the weight column holding the values of the percentages:
    45 for [45%]. *)
Theorem table_percentages_kept hf sep rfs weight_col :
  well_formed hf sep rfs ->
  find_weight_col (map trim hf) = Some weight_col ->
  Forall (fun fs =>
            clean_percentage
              (trim (nth (position weight_col (map trim hf)) fs [])) <> None)
         rfs ->
  exists df,
    parse_portfolio_table (pipe_table hf sep rfs) = Ok (Some df)
    /\ columns df = map trim hf
    /\ length (rows df) = length rfs
    /\ column (position weight_col (map trim hf)) df
       = map (fun fs =>
                match clean_percentage
                        (trim (nth (position weight_col (map trim hf)) fs []))
                with
                | Some q => Number (Finite q)
                | None => NaN
                end) rfs.
Proof.
  intros Hwf Hfind Hpct.
  set (w := position weight_col (map trim hf)) in *.
  destruct (find_weight_col_In _ Hfind) as [Hin _].
  assert (Hw : w < length hf).
  { rewrite <- (length_map trim). now apply position_lt. }
  pose proof Hwf as (_ & _ & _ & _ & _ & Hrows).
  assert (Hlen : Forall (fun fs => length fs = length hf) rfs).
  { eapply Forall_impl; [|exact Hrows]. now intros fs [H _]. }
  assert (Hplain : Forall (fun fs => plain_weight (trim (nth w fs [])) <> None)
                          rfs).
  { eapply Forall_impl; [|exact Hpct]. intros fs H.
    destruct (clean_percentage (trim (nth w fs []))) as [q|] eqn:E;
      [|congruence].
    now rewrite (clean_percentage_plain _ E). }
  assert (Hall : filter (fun fs => has_weight (trim (nth w fs []))) rfs = rfs).
  { apply forallb_filter_id, forallb_forall. intros fs Hfs.
    rewrite Forall_forall in Hplain. now apply has_weight_iff, Hplain. }
  eexists. split.
  - apply (@pipe_table_rows hf sep rfs weight_col); try assumption.
    + now apply (@plain_rows_kept w (length hf)).
    + eapply Forall_impl; [|exact Hplain]. intros fs H.
      now apply has_weight_settled, has_weight_iff.
  - cbn [columns rows]. fold w. rewrite Hall.
    split; [reflexivity|]. split; [apply length_map|].
    unfold column. cbn [rows]. rewrite kept_column.
    + apply map_ext_in. intros fs Hfs. rewrite Forall_forall in Hpct.
      specialize (Hpct fs Hfs). unfold weight_of.
      destruct (clean_percentage (trim (nth w fs []))) as [q|] eqn:E;
        [|congruence].
      now rewrite (clean_percentage_plain _ E).
    + apply Forall_forall. intros fs Hfs.
      rewrite Forall_forall in Hlen, Hplain. split.
      * specialize (Hlen fs Hfs). unfold str in *. lia.
      * now apply has_weight_settled, has_weight_iff, Hplain.
Qed.

Lemma table_percentages_kept_witness :
  let hf := [lit " Name    "; lit " Ticker    "; lit " Weight "; lit " Country "] in
  let sep := lit "|---------|-----------|--------|---------|" in
  let rfs := [ [lit " Apple   "; lit " AAPL      "; lit "   45%  "; lit " US      "];
               [lit " Samsung "; lit " 005930.KS "; lit " 12.5%  "; lit " KR      "] ] in
  pipe_table hf sep rfs
  = join [LF] [ lit "| Name    | Ticker    | Weight | Country |";
                lit "|---------|-----------|--------|---------|";
                lit "| Apple   | AAPL      |   45%  | US      |";
                lit "| Samsung | 005930.KS | 12.5%  | KR      |" ]
  /\ exists df,
       parse_portfolio_table (pipe_table hf sep rfs) = Ok (Some df)
       /\ columns df = [lit "Name"; lit "Ticker"; lit "Weight"; lit "Country"]
       /\ length (rows df) = 2
       /\ column 2 df = [Number (Finite 45%Q); Number (Finite (25 # 2)%Q)].
Proof.
  cbv zeta. split; [reflexivity|].
  apply (@table_percentages_kept
           [lit " Name    "; lit " Ticker    "; lit " Weight "; lit " Country "]
           (lit "|---------|-----------|--------|---------|")
           [ [lit " Apple   "; lit " AAPL      "; lit "   45%  ";
              lit " US      "];
             [lit " Samsung "; lit " 005930.KS "; lit " 12.5%  ";
              lit " KR      "] ]
           (lit "Weight")).
  - repeat split; try reflexivity.
    + repeat constructor; simpl; intuition discriminate.
    + discriminate.
    + repeat constructor.
  - reflexivity.
  - repeat constructor; vm_compute; discriminate.
Defined.

(** C7 as stated fails: a cell that opens with a quote that is not
    closed takes the rest of the table into one field, the reader raises
    and no table is returned, though the table has its header, its
    separator row and a data row whose weight is [45%]. *)
Lemma unclosed_quote_no_table :
  let table_md := join [LF] [ lit "| Name | Weight |";
                              lit "|------|--------|";
                              [PIPE; SPACE; QUOTE] ++ lit "Apple | 45% |" ] in
  clean_percentage (lit "45%") = Some 45%Q
  /\ read_csv (clean_table_md table_md) = Raise ParserError
  /\ parse_portfolio_table table_md = Ok None.
Proof. repeat split. Qed.




(* ================================================================== *)
(** * Further properties of the code

    The rest of the development goes beyond the sentences of the
    specification: it states what the two functions do at their edges
    and how they work together, and covers the code around them, the
    handler that calls them, the parts of [plot_portfolio_interactive]
    that compute, and [get_portfolio_description]. *)

(* ================================================================== *)
(** * Occurrences of a text in another *)

Lemma startswith_app (sep rest : str) : startswith (sep ++ rest) sep = true.
Proof.
  induction sep as [|c sep IH]; [now destruct rest|].
  cbn [app startswith]. now rewrite N.eqb_refl.
Qed.

Lemma startswith_prefix (pre : str) : forall s : str,
  startswith s pre = true -> exists rest, s = pre ++ rest.
Proof.
  induction pre as [|p pre IH]; intros s H; [now exists s|].
  destruct s as [|c s]; [discriminate|]. cbn [startswith] in H.
  apply andb_true_iff in H as [Hc Hs]. apply N.eqb_eq in Hc as ->.
  destruct (IH _ Hs) as (rest & ->). now exists rest.
Qed.

Lemma startswith_app_l (sep : str) : forall s t : str,
  length sep <= length s -> startswith (s ++ t) sep = startswith s sep.
Proof.
  induction sep as [|p sep IH]; intros s t H;
    [now destruct s; destruct t|].
  destruct s as [|c s]; [simpl in H; lia|].
  cbn [app startswith]. rewrite IH; [reflexivity | simpl in H; lia].
Qed.

Lemma contains_eq (sub s : str) :
  contains sub s
  = startswith s sub
    || match s with [] => false | _ :: s' => contains sub s' end.
Proof. now destruct s. Qed.

Lemma contains_short (sub s : str) :
  length s < length sub -> contains sub s = false.
Proof.
  induction s as [|c s IH]; intros H.
  - destruct sub; [simpl in H; lia | reflexivity].
  - rewrite contains_eq. rewrite IH by (simpl in H; lia).
    rewrite orb_false_r. destruct (startswith (c :: s) sub) eqn:E; [|reflexivity].
    apply startswith_prefix in E as (rest & E).
    apply (f_equal (@length char)) in E. rewrite length_app in E. lia.
Qed.

Lemma contains_app (a sub b : str) : contains sub (a ++ sub ++ b) = true.
Proof.
  induction a as [|x a IH].
  - cbn [app]. rewrite contains_eq. now rewrite startswith_app.
  - cbn [app contains]. rewrite IH. apply orb_true_r.
Qed.

Lemma contains_chars (sub s : str) :
  contains sub s = true -> forall c, In c sub -> In c s.
Proof.
  induction s as [|x s IH]; rewrite contains_eq; intros H c Hc.
  - rewrite orb_false_r in H. apply startswith_prefix in H as (rest & E).
    destruct sub; [destruct Hc | discriminate E].
  - apply orb_true_iff in H as [H|H].
    + apply startswith_prefix in H as (rest & ->). apply in_or_app. now left.
    + right. now apply IH.
Qed.

Lemma contains_char_In c (s : str) : contains_char c s = true <-> In c s.
Proof.
  unfold contains_char. rewrite existsb_exists. split.
  - intros (x & Hx & E). apply N.eqb_eq in E. now subst.
  - intros H. exists c. split; [assumption | apply N.eqb_refl].
Qed.

Lemma contains_char_app c (a b : str) :
  contains_char c (a ++ b) = contains_char c a || contains_char c b.
Proof. apply existsb_app. Qed.

(** A text that holds a character another text lacks does not occur in
    it. *)
Lemma contains_lacking c (sub s : str) :
  contains_char c sub = true -> contains_char c s = false ->
  contains sub s = false.
Proof.
  intros Hsub Hs. destruct (contains sub s) eqn:E; [|reflexivity].
  apply contains_char_In in Hsub.
  apply (contains_chars _ _ E) in Hsub. apply contains_char_In in Hsub.
  congruence.
Qed.

(* ================================================================== *)
(** * The pieces of [str.split] *)

Lemma split_from_skip (sep a : str) : forall (s cur : str),
  split_from sep (a ++ s) (length a) cur = split_from sep s 0 cur.
Proof.
  induction a as [|x a IH]; intros s cur; [reflexivity|].
  cbn [app length split_from]. apply IH.
Qed.

(** Without an occurrence of the separator there is one piece. *)
Lemma split_from_none (sep : str) : forall (s cur : str),
  contains sep s = false -> split_from sep s 0 cur = [rev cur ++ s].
Proof.
  induction s as [|c s IH]; intros cur H.
  - cbn [split_from]. now rewrite app_nil_r.
  - rewrite contains_eq in H. apply orb_false_iff in H as [H1 H2].
    cbn [split_from]. rewrite H1, IH by assumption.
    cbn [rev]. now rewrite <- app_assoc.
Qed.

(** The first piece ends where the separator first occurs. *)
Lemma split_from_first (sep b : str) : forall (a cur : str),
  sep <> [] -> contains sep (a ++ removelast sep) = false ->
  split_from sep (a ++ sep ++ b) 0 cur
  = (rev cur ++ a) :: split_from sep b 0 [].
Proof.
  induction a as [|x a IH]; intros cur Hsep H.
  - destruct sep as [|c sep']; [congruence|].
    change (split_from (c :: sep') ([] ++ (c :: sep') ++ b) 0 cur)
      with (if startswith ((c :: sep') ++ b) (c :: sep')
            then rev cur :: split_from (c :: sep') (sep' ++ b)
                              (length (c :: sep') - 1) []
            else split_from (c :: sep') (sep' ++ b) 0 (c :: cur)).
    rewrite startswith_app. rewrite app_nil_r. f_equal.
    cbn [length]. rewrite Nat.sub_succ, Nat.sub_0_r. apply split_from_skip.
  - cbn [app] in H. rewrite contains_eq in H.
    apply orb_false_iff in H as [H1 H2].
    assert (E : startswith (x :: a ++ sep ++ b) sep = false).
    { rewrite <- H1.
      assert (Hl : sep = removelast sep ++ [last sep x])
        by now apply app_removelast_last.
      rewrite Hl at 1. rewrite <- app_assoc.
      change (x :: a ++ removelast sep ++ [last sep x] ++ b)
        with ((x :: a) ++ removelast sep ++ [last sep x] ++ b).
      rewrite app_assoc. apply startswith_app_l.
      rewrite Hl at 1. cbn [length]. rewrite !length_app. cbn [length]. lia. }
    cbn [app split_from]. rewrite E. rewrite IH by assumption.
    cbn [rev]. now rewrite <- app_assoc.
Qed.

(* ================================================================== *)
(** * The first separator of a text *)

Lemma before_pipe_free (a s : str) :
  contains_char PIPE a = false -> before_pipe (a ++ s) = a ++ before_pipe s.
Proof.
  induction a as [|x a IH]; intros H; [reflexivity|].
  cbn [contains_char existsb] in H. apply orb_false_iff in H as [Hx Ha].
  cbn [app before_pipe]. rewrite Hx. f_equal. now apply IH.
Qed.

Lemma before_pipe_app (t rest : str) :
  contains_char PIPE t = true -> before_pipe (t ++ rest) = before_pipe t.
Proof.
  induction t as [|x t IH]; intros H; [discriminate|].
  cbn [contains_char existsb] in H. cbn [app before_pipe].
  destruct (N.eqb PIPE x); [reflexivity|]. f_equal. now apply IH.
Qed.

Lemma before_pipe_removelast (t : str) :
  contains_char PIPE t = true -> before_pipe (removelast t) = before_pipe t.
Proof.
  induction t as [|x t IH]; intros H; [discriminate|].
  cbn [contains_char existsb] in H.
  destruct t as [|y t].
  - cbn [existsb] in H. rewrite orb_false_r in H.
    cbn [removelast before_pipe]. now rewrite H.
  - change (removelast (x :: y :: t)) with (x :: removelast (y :: t)).
    cbn [before_pipe]. destruct (N.eqb PIPE x); [reflexivity|].
    f_equal. now apply IH.
Qed.

Lemma removelast_shorter (t : str) :
  t <> [] -> length (removelast t) < length t.
Proof.
  induction t as [|x t IH]; intros H; [congruence|].
  destruct t as [|y t]; [cbn; lia|].
  change (removelast (x :: y :: t)) with (x :: removelast (y :: t)).
  cbn [length] in *. apply -> Nat.succ_lt_mono. apply IH. discriminate.
Qed.

(** After a text without separator, a text with one does not occur
    before its own place. *)
Lemma first_occurrence (t : str) : forall a : str,
  contains_char PIPE a = false -> contains_char PIPE t = true ->
  contains t (a ++ removelast t) = false.
Proof.
  intros a Ha Ht. induction a as [|x a IH].
  - apply contains_short. apply removelast_shorter. now destruct t.
  - cbn [contains_char existsb] in Ha. apply orb_false_iff in Ha as [Hx Ha'].
    cbn [app]. rewrite contains_eq. rewrite (IH Ha'), orb_false_r.
    destruct (startswith (x :: a ++ removelast t) t) eqn:E; [|reflexivity].
    apply startswith_prefix in E as (rest & E).
    apply (f_equal before_pipe) in E.
    change (x :: a ++ removelast t) with ((x :: a) ++ removelast t) in E.
    rewrite before_pipe_free in E
      by (cbn [contains_char existsb]; now rewrite Hx).
    rewrite before_pipe_removelast, before_pipe_app in E by assumption.
    apply (f_equal (@length char)) in E. rewrite length_app in E.
    cbn [length] in E. lia.
Qed.

(* ================================================================== *)
(** * Lines of a text made of parts *)

Lemma splitlines_from_LF (rest : str) : forall n (a cur : str),
  length a <= n ->
  splitlines_from (a ++ LF :: rest) cur
  = splitlines_from (a ++ [LF]) cur ++ splitlines_from rest [].
Proof.
  induction n as [|n IH]; intros a cur H.
  - destruct a; [reflexivity | simpl in H; lia].
  - destruct a as [|c a]; [reflexivity|].
    cbn [app splitlines_from]. destruct (is_linebreak c).
    + destruct (N.eqb c CR).
      * destruct a as [|d a]; [reflexivity|].
        cbn [app]. destruct (N.eqb d LF).
        -- cbn [app]. f_equal. apply IH. simpl in H. lia.
        -- cbn [app]. f_equal. apply (IH (d :: a)). simpl in H |- *. lia.
      * cbn [app]. f_equal. apply IH. simpl in H. lia.
    + apply IH. simpl in H. lia.
Qed.

Lemma splitlines_app (a rest : str) :
  whole_lines a -> splitlines (a ++ rest) = splitlines a ++ splitlines rest.
Proof.
  intros [->|(a' & ->)]; [reflexivity|].
  unfold splitlines. rewrite <- app_assoc. cbn [app].
  now apply (@splitlines_from_LF rest (length a')).
Qed.

Lemma splitlines_from_join (rest : str) : forall (line : str) (lines : list str),
  Forall no_linebreak (line :: lines) ->
  splitlines_from (join [LF] (line :: lines) ++ LF :: rest) []
  = (line :: lines) ++ splitlines_from rest [].
Proof.
  intros line lines. revert line.
  induction lines as [|line2 lines IH]; intros line H;
    inversion H as [|? ? Hl Hls]; subst.
  - cbn [join]. rewrite splitlines_from_line by assumption.
    cbn [splitlines_from]. change (is_linebreak LF) with true.
    change (N.eqb LF CR) with false. cbv iota.
    now rewrite app_nil_r, rev_involutive.
  - change (join [LF] (line :: line2 :: lines))
      with (line ++ LF :: join [LF] (line2 :: lines)).
    rewrite <- app_assoc. rewrite splitlines_from_line by assumption.
    cbn [app splitlines_from]. change (is_linebreak LF) with true.
    change (N.eqb LF CR) with false. cbv iota.
    rewrite app_nil_r, rev_involutive. f_equal. now apply IH.
Qed.

Lemma contains_char_rev c (s : str) :
  contains_char c (rev s) = contains_char c s.
Proof.
  destruct (contains_char c s) eqn:E.
  - apply contains_char_In. apply -> in_rev. now apply contains_char_In.
  - destruct (contains_char c (rev s)) eqn:E'; [|reflexivity].
    apply contains_char_In in E'. apply in_rev in E'.
    apply contains_char_In in E'. congruence.
Qed.

(** The lines of a text without separator hold none. *)
Lemma splitlines_from_no_pipe : forall n (s cur : str),
  length s <= n ->
  contains_char PIPE s = false -> contains_char PIPE cur = false ->
  Forall (fun line => has_pipe line = false) (splitlines_from s cur).
Proof.
  assert (R : forall cur : str, contains_char PIPE cur = false ->
                has_pipe (rev cur) = false).
  { intros cur H. unfold has_pipe. now rewrite contains_char_rev. }
  induction n as [|n IH]; intros s cur H Hs Hcur.
  - destruct s; [|simpl in H; lia]. cbn [splitlines_from].
    destruct cur; constructor; auto.
  - destruct s as [|c s].
    { cbn [splitlines_from]. destruct cur; constructor; auto. }
    cbn [contains_char existsb] in Hs. apply orb_false_iff in Hs as [Hc Hs].
    cbn [splitlines_from]. destruct (is_linebreak c).
    + constructor; [now apply R|].
      destruct (N.eqb c CR).
      * destruct s as [|d s]; [apply IH; auto; simpl; lia|].
        destruct (N.eqb d LF).
        -- cbn [contains_char existsb] in Hs.
           apply orb_false_iff in Hs as [_ Hs].
           apply IH; auto. simpl in H. lia.
        -- apply IH; auto. simpl in H |- *. lia.
      * apply IH; auto. simpl in H. lia.
    + apply IH; [simpl in H; lia | assumption|].
      cbn [contains_char existsb]. now rewrite Hc.
Qed.

Lemma splitlines_no_pipe (s : str) :
  contains_char PIPE s = false ->
  Forall (fun line => has_pipe line = false) (splitlines s).
Proof. intros H. now apply (@splitlines_from_no_pipe (length s)). Qed.

(* ================================================================== *)
(** * The loop of extraction on a text made of parts *)

Lemma collect_skip (l1 l2 acc : list str) :
  Forall (fun line => has_pipe line = false) l1 ->
  collect (l1 ++ l2) acc false = collect l2 acc false.
Proof.
  induction 1 as [|line l1 Hl _ IH]; [reflexivity|].
  cbn [app collect]. rewrite Hl. cbn [andb]. exact IH.
Qed.

Lemma collect_pipe (line : str) (rest acc : list str) in_table :
  has_pipe line = true ->
  collect (line :: rest) acc in_table = collect rest (acc ++ [line]) true.
Proof. intros H. cbn [collect]. now rewrite H. Qed.

Lemma collect_take (l3 : list str) : forall (l2 : list str) line acc in_table,
  Forall (fun line => has_pipe line = true) (line :: l2) ->
  collect ((line :: l2) ++ l3) acc in_table
  = collect l3 (acc ++ line :: l2) true.
Proof.
  induction l2 as [|line2 l2 IH]; intros line acc in_table H;
    inversion H as [|? ? Hl Hls]; subst.
  - cbn [app]. now apply collect_pipe.
  - change ((line :: line2 :: l2) ++ l3) with (line :: (line2 :: l2) ++ l3).
    rewrite collect_pipe by assumption.
    rewrite (IH line2 (acc ++ [line]) true Hls).
    now rewrite <- app_assoc.
Qed.

Lemma collect_stop (l3 acc : list str) :
  Forall (fun line => has_pipe line = false) l3 ->
  collect l3 acc true = acc.
Proof.
  induction 1 as [|line l3 Hl _ IH]; [reflexivity|].
  cbn [collect]. rewrite Hl. cbn [andb]. now destruct (is_blank line).
Qed.

Lemma collect_blank (line : str) (rest acc : list str) :
  is_blank line = true -> collect (line :: rest) acc true = acc.
Proof.
  intros H. cbn [collect]. rewrite (is_blank_no_pipe _ H), H. reflexivity.
Qed.

Lemma join_has_pipe (line : str) (lines : list str) :
  has_pipe line = true -> contains_char PIPE (join [LF] (line :: lines)) = true.
Proof.
  intros H. destruct lines; cbn [join]; [exact H|].
  rewrite contains_char_app. unfold has_pipe in H. now rewrite H.
Qed.

(* ================================================================== *)
(** * The value of [extract_markdown_table] when it finds a block *)

Lemma extract_found (answer : str) (table_lines : list str) :
  collect (splitlines answer) [] false = table_lines -> table_lines <> [] ->
  extract_markdown_table answer
  = Ok (Some (join [LF] table_lines),
        strip (hd [] (split_from (join [LF] table_lines) answer 0 []))
        ++ [LF; LF]
        ++ (if contains (join [LF] table_lines) answer
            then strip (nth 1 (split_from (join [LF] table_lines) answer 0 [])
                            [])
            else [])).
Proof.
  intros E Hne. unfold extract_markdown_table.
  pose proof (collect_has_pipe (splitlines answer)) as Hall.
  rewrite E in *. destruct table_lines as [|l ls]; [congruence|].
  assert (Ht : join [LF] (l :: ls) <> []).
  { apply join_cons_nonempty. inversion Hall as [|? ? Hl _]; subst.
    intros ->. discriminate Hl. }
  set (table_md := join [LF] (l :: ls)) in *.
  unfold split. destruct table_md as [|c t] eqn:Et; [congruence|].
  rewrite <- Et in *. cbn [bind].
  pose proof (split_from_length table_md answer 0 []) as Hlen.
  destruct (split_from table_md answer 0 []) as [|p0 ps] eqn:Es;
    [simpl in Hlen; lia|].
  cbn [index nth_error bind hd nth].
  destruct (contains table_md answer) eqn:Ec.
  - pose proof (split_from_contains answer [] Ht Ec) as H2.
    rewrite Es in H2. destruct ps as [|p1 ps']; [simpl in H2; lia|].
    reflexivity.
  - reflexivity.
Qed.

Lemma extract_some_inv (answer table_md explanation : str) :
  extract_markdown_table answer = Ok (Some table_md, explanation) ->
  collect (splitlines answer) [] false <> []
  /\ table_md = join [LF] (collect (splitlines answer) [] false).
Proof.
  intros H. pose proof (extract_structure answer) as S.
  destruct (collect (splitlines answer) [] false) as [|l ls].
  - rewrite S in H. discriminate.
  - destruct S as (remainder & S). rewrite S in H. injection H as <- _.
    split; [discriminate | reflexivity].
Qed.

Lemma contiguous_run_In (lines : list str) (line : str) :
  In line (contiguous_run lines) -> In line lines.
Proof.
  unfold contiguous_run. intros H.
  assert (U : forall ls : list str, In line (until_blank ls) -> In line ls).
  { induction ls as [|l ls IH]; [intros []|]. cbn [until_blank].
    destruct (is_blank l); [intros []|]. intros [->|Hin]; [now left|].
    right. now apply IH. }
  apply U in H. clear U.
  induction lines as [|l ls IH]; [destruct H|].
  cbn [from_first_pipe] in H. destruct (has_pipe l); [exact H|].
  right. now apply IH.
Qed.

(** The lines collected hold the separator and no line boundary. *)
Lemma collect_lines (answer : str) :
  Forall (fun line => has_pipe line = true /\ no_linebreak line)
         (collect (splitlines answer) [] false).
Proof.
  rewrite collect_outside. cbn [app]. apply Forall_forall. intros line H.
  apply filter_In in H as [Hin Hp]. split; [exact Hp|].
  apply contiguous_run_In in Hin.
  pose proof (splitlines_no_linebreak answer) as Hall.
  rewrite Forall_forall in Hall. now apply Hall.
Qed.

Lemma last_has_pipe (lines : list str) :
  lines <> [] -> Forall (fun line => has_pipe line = true) lines ->
  last lines [] <> [].
Proof.
  intros Hne Hall. destruct (exists_last Hne) as (front & l & ->).
  rewrite last_last. apply Forall_app in Hall as [_ Hl].
  inversion Hl as [|? ? Hp _]; subst. intros ->. discriminate Hp.
Qed.

Lemma splitlines_block (lines : list str) :
  lines <> [] ->
  Forall (fun line => has_pipe line = true /\ no_linebreak line) lines ->
  splitlines (join [LF] lines) = lines.
Proof.
  intros Hne Hall. apply splitlines_join.
  - eapply Forall_impl; [|exact Hall]. now intros l [_ H].
  - apply last_has_pipe; [assumption|].
    eapply Forall_impl; [|exact Hall]. now intros l [H _].
Qed.

Lemma collect_embedded (a line : str) (lines tail : list str) :
  contains_char PIPE a = false ->
  Forall (fun l => has_pipe l = true) (line :: lines) ->
  collect tail (line :: lines) true = line :: lines ->
  collect (splitlines a ++ (line :: lines) ++ tail) [] false = line :: lines.
Proof.
  intros Ha Hall Htail.
  rewrite collect_skip by now apply splitlines_no_pipe.
  rewrite collect_take by assumption. exact Htail.
Qed.

(** The value of extraction when the block stands in the text after a
    part without separator. *)
Lemma extract_at (a b : str) (lines : list str) :
  lines <> [] -> Forall (fun l => has_pipe l = true) lines ->
  contains_char PIPE a = false ->
  collect (splitlines (a ++ join [LF] lines ++ b)) [] false = lines ->
  extract_markdown_table (a ++ join [LF] lines ++ b)
  = Ok (Some (join [LF] lines),
        strip a ++ [LF; LF]
        ++ strip (hd [] (split_from (join [LF] lines) b 0 []))).
Proof.
  intros Hne Hall Ha Hc. rewrite (@extract_found _ _ Hc Hne).
  assert (Hp : contains_char PIPE (join [LF] lines) = true).
  { destruct lines as [|l ls]; [congruence|]. apply join_has_pipe.
    now inversion Hall. }
  assert (Ht : join [LF] lines <> []).
  { intros E. rewrite E in Hp. discriminate. }
  rewrite split_from_first by (auto using first_occurrence).
  rewrite contains_app. cbn [rev app hd nth].
  do 3 f_equal.
  now destruct (split_from (join [LF] lines) b 0 []).
Qed.

(* ================================================================== *)
(** * The block and the text around it *)

(** X1: the block returned is not empty, and split into lines again it
    gives the lines the loop accumulated ([table_md.splitlines()] is
    [table_lines]), each of which holds the separator. *)
Theorem block_lines_again (answer table_md explanation : str) :
  extract_markdown_table answer = Ok (Some table_md, explanation) ->
  table_md <> []
  /\ splitlines table_md = collect (splitlines answer) [] false
  /\ Forall (fun line => has_pipe line = true) (splitlines table_md).
Proof.
  intros H. apply extract_some_inv in H as [Hne ->].
  pose proof (collect_lines answer) as Hall.
  assert (Hp : Forall (fun line => has_pipe line = true)
                 (collect (splitlines answer) [] false)).
  { eapply Forall_impl; [|exact Hall]. now intros l [Hl _]. }
  rewrite splitlines_block by assumption.
  split; [|split; [reflexivity | exact Hp]].
  destruct (collect (splitlines answer) [] false) as [|l ls]; [congruence|].
  apply join_cons_nonempty. inversion Hp as [|? ? Hl _]; subst.
  intros ->. discriminate Hl.
Qed.

Lemma block_lines_again_witness :
  splitlines (join [LF] [lit "a | b"; lit "c | d"])
  = [lit "a | b"; lit "c | d"].
Proof.
  apply (@block_lines_again
           (join [LF] [lit "A table:"; lit "a | b"; lit "c | d"; [];
                       lit "e | f"])
           (join [LF] [lit "a | b"; lit "c | d"])
           (lit "A table:" ++ [LF; LF] ++ lit "e | f")).
  reflexivity.
Defined.

(** X2: when the block, joined by line feeds, does not occur in the text
    (its lines are not consecutive there, or are ended otherwise than by
    a line feed), the explanation is the whole text, stripped, followed
    by two line feeds: the table stays in it. *)
Theorem block_not_verbatim (answer table_md explanation : str) :
  extract_markdown_table answer = Ok (Some table_md, explanation) ->
  contains table_md answer = false ->
  explanation = strip answer ++ [LF; LF].
Proof.
  intros H Hc. pose proof H as H'.
  apply extract_some_inv in H' as [Hne ->].
  rewrite (@extract_found _ _ eq_refl Hne) in H. injection H as <-.
  rewrite Hc. rewrite split_from_none by assumption.
  reflexivity.
Qed.

Lemma block_not_verbatim_witness :
  let answer := lit "a | b" ++ [CR; LF] ++ lit "c | d" in
  extract_markdown_table answer
  = Ok (Some (lit "a | b" ++ [LF] ++ lit "c | d"), answer ++ [LF; LF])
  /\ answer ++ [LF; LF] = strip answer ++ [LF; LF].
Proof.
  split; [reflexivity|].
  apply (@block_not_verbatim
           (lit "a | b" ++ [CR; LF] ++ lit "c | d")
           (lit "a | b" ++ [LF] ++ lit "c | d")
           ((lit "a | b" ++ [CR; LF] ++ lit "c | d") ++ [LF; LF]));
    reflexivity.
Defined.

Lemma strip_leading_LF (s : str) : strip (LF :: s) = strip s.
Proof. reflexivity. Qed.

(** The loop on a text made of prose, a table and prose. *)
Lemma collect_between (a b : str) (lines : list str) :
  contains_char PIPE a = false -> contains_char PIPE b = false ->
  whole_lines a ->
  (b = [] \/ exists b', b = LF :: b') ->
  lines <> [] ->
  Forall (fun line => has_pipe line = true /\ no_linebreak line) lines ->
  collect (splitlines (a ++ join [LF] lines ++ b)) [] false = lines.
Proof.
  intros Ha Hb Hwa Hwb Hne Hall.
  assert (Hp : Forall (fun line => has_pipe line = true) lines).
  { eapply Forall_impl; [|exact Hall]. now intros l [H _]. }
  assert (Hn : Forall no_linebreak lines).
  { eapply Forall_impl; [|exact Hall]. now intros l [_ H]. }
  rewrite splitlines_app by assumption.
  destruct lines as [|l ls]; [congruence|].
  destruct Hwb as [->|(b' & ->)].
  - rewrite app_nil_r, splitlines_block by assumption.
    rewrite <- (app_nil_r (l :: ls)) at 1.
    now apply collect_embedded.
  - unfold splitlines at 2. rewrite splitlines_from_join by assumption.
    apply collect_embedded; [assumption..|].
    apply collect_stop. apply splitlines_no_pipe.
    cbn [contains_char existsb] in Hb. now apply orb_false_iff in Hb.
Qed.

Lemma block_absent (b : str) (lines : list str) :
  contains_char PIPE b = false -> lines <> [] ->
  Forall (fun line => has_pipe line = true /\ no_linebreak line) lines ->
  contains (join [LF] lines) b = false.
Proof.
  intros Hb Hne Hall. destruct lines as [|l ls]; [congruence|].
  apply (@contains_lacking PIPE); [|assumption].
  apply join_has_pipe. inversion Hall as [|? ? [Hl _] _]; now subst.
Qed.

(** X3: a table that stands between two parts of prose without
    separator, each line of it holding the separator, is returned as the
    block; the explanation is the prose before it and the prose after it,
    each stripped, with two line feeds between them. *)
Theorem table_between_prose (a b : str) (lines : list str) :
  contains_char PIPE a = false -> contains_char PIPE b = false ->
  whole_lines a ->
  (b = [] \/ exists b', b = LF :: b') ->
  lines <> [] ->
  Forall (fun line => has_pipe line = true /\ no_linebreak line) lines ->
  extract_markdown_table (a ++ join [LF] lines ++ b)
  = Ok (Some (join [LF] lines), strip a ++ [LF; LF] ++ strip b).
Proof.
  intros Ha Hb Hwa Hwb Hne Hall.
  assert (Hp : Forall (fun line => has_pipe line = true) lines).
  { eapply Forall_impl; [|exact Hall]. now intros l [H _]. }
  rewrite extract_at by (auto using collect_between).
  now rewrite split_from_none by (auto using block_absent).
Qed.

Lemma table_between_prose_witness :
  extract_markdown_table
    (join [LF] [lit "Here is your plan."; []; lit "| Name | Weight |";
                lit "| Apple | 60% |"; lit "| Cash | 40% |"; [];
                lit "Risk notes follow."; []])
  = Ok (Some (join [LF] [lit "| Name | Weight |"; lit "| Apple | 60% |";
                         lit "| Cash | 40% |"]),
        lit "Here is your plan." ++ [LF; LF] ++ lit "Risk notes follow.").
Proof.
  apply (@table_between_prose
           (lit "Here is your plan." ++ [LF; LF])
           ([LF; LF] ++ lit "Risk notes follow." ++ [LF])
           [lit "| Name | Weight |"; lit "| Apple | 60% |";
            lit "| Cash | 40% |"]).
  - reflexivity.
  - reflexivity.
  - right. exists (lit "Here is your plan." ++ [LF]). reflexivity.
  - right. eexists. reflexivity.
  - discriminate.
  - repeat constructor.
Defined.

(** X4: when the text of the block stands a second time in the answer,
    after a blank line and prose without separator, the explanation ends
    with that prose: the second table and all that follows it are left
    out. *)
Theorem repeated_table_cuts_text (a b c : str) (lines : list str) :
  contains_char PIPE a = false -> contains_char PIPE b = false ->
  whole_lines a ->
  lines <> [] ->
  Forall (fun line => has_pipe line = true /\ no_linebreak line) lines ->
  extract_markdown_table
    (a ++ join [LF] lines ++ (LF :: LF :: b) ++ join [LF] lines ++ c)
  = Ok (Some (join [LF] lines), strip a ++ [LF; LF] ++ strip b).
Proof.
  intros Ha Hb Hwa Hne Hall.
  assert (Hp : Forall (fun line => has_pipe line = true) lines).
  { eapply Forall_impl; [|exact Hall]. now intros l [H _]. }
  assert (Hn : Forall no_linebreak lines).
  { eapply Forall_impl; [|exact Hall]. now intros l [_ H]. }
  set (t := join [LF] lines) in *.
  assert (Hpt : contains_char PIPE t = true).
  { unfold t. destruct lines as [|l ls]; [congruence|].
    apply join_has_pipe. now inversion Hp. }
  assert (Hc : collect (splitlines (a ++ t ++ (LF :: LF :: b) ++ t ++ c))
                 [] false = lines).
  { rewrite splitlines_app by assumption. unfold t at 1.
    destruct lines as [|l ls]; [congruence|].
    unfold splitlines at 2. cbn [app].
    rewrite splitlines_from_join by assumption.
    apply collect_embedded; [assumption..|].
    cbn [splitlines_from]. change (is_linebreak LF) with true.
    change (N.eqb LF CR) with false. cbv iota.
    now apply collect_blank. }
  unfold t at 1 2. rewrite extract_at by assumption. fold t.
  rewrite split_from_first.
  - cbn [rev app hd]. now rewrite !strip_leading_LF.
  - intros E. rewrite E in Hpt. discriminate.
  - apply first_occurrence; [|assumption].
    cbn [contains_char existsb]. exact Hb.
Qed.

Lemma repeated_table_cuts_text_witness :
  extract_markdown_table
    (join [LF] [lit "Plan:"; lit "x | y"; []; lit "As said:"; lit "x | y";
                lit "The end."])
  = Ok (Some (lit "x | y"), lit "Plan:" ++ [LF; LF] ++ lit "As said:").
Proof.
  apply (@repeated_table_cuts_text
           (lit "Plan:" ++ [LF]) (lit "As said:" ++ [LF])
           ([LF] ++ lit "The end.") [lit "x | y"]).
  - reflexivity.
  - reflexivity.
  - right. exists (lit "Plan:"). reflexivity.
  - discriminate.
  - repeat constructor.
Defined.

(** X5: extraction applied to a block it returned gives the same block,
    with two line feeds for explanation. *)
Theorem extract_block_again (answer table_md explanation : str) :
  extract_markdown_table answer = Ok (Some table_md, explanation) ->
  extract_markdown_table table_md = Ok (Some table_md, [LF; LF]).
Proof.
  intros H. apply extract_some_inv in H as [Hne ->].
  pose proof (collect_lines answer) as Hall.
  set (lines := collect (splitlines answer) [] false) in *.
  assert (Hp : Forall (fun line => has_pipe line = true) lines).
  { eapply Forall_impl; [|exact Hall]. now intros l [H _]. }
  assert (Hc : collect (splitlines ([] ++ join [LF] lines ++ [])) [] false
               = lines).
  { cbn [app]. rewrite app_nil_r, splitlines_block by assumption.
    destruct lines as [|l ls]; [congruence|].
    rewrite <- (app_nil_r (l :: ls)) at 1.
    now rewrite collect_take. }
  pose proof (@extract_at [] [] lines Hne Hp eq_refl Hc) as E.
  cbn [app] in E. rewrite app_nil_r in E. exact E.
Qed.

Lemma extract_block_again_witness :
  extract_markdown_table (join [LF] [lit "a | b"; lit "c | d"])
  = Ok (Some (join [LF] [lit "a | b"; lit "c | d"]), [LF; LF]).
Proof.
  apply (@extract_block_again
           (join [LF] [lit "A table:"; lit "a | b"; lit "c | d"; [];
                       lit "e | f"])
           (join [LF] [lit "a | b"; lit "c | d"])
           (lit "A table:" ++ [LF; LF] ++ lit "e | f")).
  reflexivity.
Defined.

(* ================================================================== *)
(** * Rows kept and rows dropped, on the text of a markdown table *)

Lemma markdown_header_kept hs weight_col :
  find_weight_col hs = Some weight_col ->
  decorative (markdown_row hs) = false.
Proof.
  intros Hfind. destruct (find_weight_col_In _ Hfind) as [Hin Hwn].
  destruct (weight_name_char _ Hwn) as (c & Hc & Hv).
  apply (@pipe_row_not_decorative _ (markdown_cell weight_col) c);
    [now apply in_map | | exact Hv].
  unfold markdown_cell. cbn [app]. right. apply in_or_app. now left.
Qed.

(** The table returned for a well-formed markdown table, before the
    rows without weight are set apart. *)
Lemma markdown_table_parsed hs sep rs weight_col :
  forallb header_name hs = true -> NoDup hs ->
  decorative sep = true ->
  rs <> [] ->
  Forall (fun r => length r = length hs /\ forallb table_cell r = true) rs ->
  Forall (fun r => decorative (markdown_row r) = false) rs ->
  find_weight_col hs = Some weight_col ->
  parse_portfolio_table (markdown_table hs sep rs)
  = Ok (Some
          {| columns := hs;
             rows := dropna (position weight_col hs)
                       (map (convert_row (position weight_col hs))
                            (map read_row rs)) |}).
Proof.
  intros Hnames Hnd Hsep Hrs Hrows Hrkept Hfind.
  destruct (find_weight_col_In _ Hfind) as [Hin Hwn].
  pose proof (markdown_header_kept _ Hfind) as Hkept.
  destruct (@markdown_table_frame hs sep rs Hnames Hnd Hsep Hrs Hrows Hkept
              Hrkept) as (df0 & Hread & Hcols & Hfrows).
  assert (Hocc : occurrences weight_col (frame_columns df0) <= 1).
  { rewrite Hcols. now apply occurrences_NoDup. }
  assert (Hfind0 : find_weight_col (frame_columns df0) = Some weight_col)
    by now rewrite Hcols.
  rewrite (parse_reaches_return _ Hread Hfind0 Hocc).
  now rewrite Hcols, Hfrows.
Qed.



(* ================================================================== *)
(** * Decorative lines *)

Lemma join_app sep (a b : list str) :
  a <> [] -> b <> [] -> join sep (a ++ b) = join sep a ++ sep ++ join sep b.
Proof.
  intros Ha Hb. induction a as [|x a IH]; [congruence|].
  destruct a as [|y a].
  - cbn [app]. now rewrite join_cons.
  - change ((x :: y :: a) ++ b) with (x :: (y :: a) ++ b).
    rewrite join_cons by discriminate. rewrite IH by discriminate.
    rewrite (@join_cons sep x (y :: a)) by discriminate.
    now rewrite <- !app_assoc.
Qed.

(** White space at the ends of a text is a matter of its first and last
    parts. *)
Lemma trimmed_middle (x m m' y : str) :
  trimmed (x ++ LF :: m ++ y) = true -> y <> [] ->
  trimmed (x ++ LF :: m' ++ y) = true.
Proof.
  intros H Hy. destruct (exists_last Hy) as (y' & d & ->).
  destruct x as [|c x]; [discriminate H|].
  unfold trimmed in *. cbn [app] in *.
  change (c :: x ++ LF :: m ++ y' ++ [d])
    with ((c :: x) ++ LF :: m ++ y' ++ [d]) in H.
  change (c :: x ++ LF :: m' ++ y' ++ [d])
    with ((c :: x) ++ LF :: m' ++ y' ++ [d]).
  replace ((c :: x) ++ LF :: m ++ y' ++ [d])
    with (((c :: x) ++ LF :: m ++ y') ++ [d]) in H
    by (rewrite <- !app_assoc; cbn [app]; now rewrite <- !app_assoc).
  replace ((c :: x) ++ LF :: m' ++ y' ++ [d])
    with (((c :: x) ++ LF :: m' ++ y') ++ [d])
    by (rewrite <- !app_assoc; cbn [app]; now rewrite <- !app_assoc).
  rewrite last_last in *. exact H.
Qed.

Lemma trimmed_last_part (x y : str) :
  trimmed (x ++ LF :: y) = true -> y <> [].
Proof.
  intros H ->. destruct (trimmed_first _ H) as (c & rest & E & _ & Hl).
  rewrite last_last in Hl. discriminate Hl.
Qed.

Lemma join_nonempty_last sep (b : list str) :
  last b [] <> [] -> join sep b <> [].
Proof.
  intros H E. destruct b as [|x b]; [now apply H|].
  revert x H E. induction b as [|y b IH]; intros x H E.
  - cbn in *. congruence.
  - rewrite join_cons in E by discriminate.
    apply app_eq_nil in E as [_ E]. apply app_eq_nil in E as [_ E].
    apply (IH y); [exact H | exact E].
Qed.

Lemma clean_table_md_lines (lines : list str) :
  Forall no_linebreak lines -> trimmed (join [LF] lines) = true ->
  last lines [] <> [] ->
  clean_table_md (join [LF] lines)
  = join [LF] (filter (fun line => negb (decorative line)) lines).
Proof.
  intros Hn Ht Hl. unfold clean_table_md, clean_lines.
  now rewrite strip_trimmed, splitlines_join.
Qed.

Lemma last_join_part (a b : list str) :
  a <> [] -> b <> [] -> trimmed (join [LF] (a ++ b)) = true ->
  last b [] <> [].
Proof.
  intros Ha Hb Ht. destruct (exists_last Hb) as (b' & ln & ->).
  rewrite last_last. intros ->.
  rewrite app_assoc in Ht. rewrite join_snoc in Ht by now destruct a.
  cbn [app] in Ht. now apply trimmed_last_part in Ht.
Qed.

(** X8: a decorative line between two lines of a block (a row of dashes,
    a row of empty cells, an empty line) is of no effect: the block is
    normalised as the block without that line is.  The block is taken
    without white space at its ends, free of line boundaries inside its
    lines. *)
Theorem decorative_line_ignored (a b : list str) (d : str) :
  a <> [] -> b <> [] ->
  decorative d = true ->
  Forall no_linebreak (a ++ b) ->
  trimmed (join [LF] (a ++ b)) = true ->
  parse_portfolio_table (join [LF] (a ++ d :: b))
  = parse_portfolio_table (join [LF] (a ++ b)).
Proof.
  intros Ha Hb Hd Hn Ht.
  pose proof (last_join_part Ha Hb Ht) as Hlast.
  assert (Hjb : join [LF] b <> []) by now apply join_nonempty_last.
  assert (Ht' : trimmed (join [LF] (a ++ d :: b)) = true).
  { rewrite join_app in Ht by assumption.
    rewrite join_app by (assumption || discriminate).
    rewrite join_cons by assumption. cbn [app] in *.
    replace (d ++ LF :: join [LF] b) with ((d ++ [LF]) ++ join [LF] b)
      by now rewrite <- app_assoc.
    apply (@trimmed_middle (join [LF] a) [] (d ++ [LF]) (join [LF] b));
      [exact Ht | exact Hjb]. }
  assert (Hn' : Forall no_linebreak (a ++ d :: b)).
  { apply Forall_app in Hn as [Hna Hnb]. apply Forall_app. split; [exact Hna|].
    constructor; [now apply decorative_no_linebreak | exact Hnb]. }
  assert (Hl : last (a ++ b) [] <> []).
  { destruct (exists_last Hb) as (b' & ln & ->). rewrite app_assoc.
    rewrite last_last. now rewrite last_last in Hlast. }
  assert (Hl' : last (a ++ d :: b) [] <> []).
  { destruct (exists_last Hb) as (b' & ln & ->).
    change (a ++ d :: b' ++ [ln]) with (a ++ (d :: b') ++ [ln]).
    rewrite app_assoc, last_last. now rewrite last_last in Hlast. }
  unfold parse_portfolio_table, parse_portfolio_table_body.
  rewrite !clean_table_md_lines by assumption.
  rewrite !filter_app. cbn [filter]. rewrite Hd. reflexivity.
Qed.

Lemma decorative_line_ignored_witness :
  parse_portfolio_table
    (join [LF] [lit "| Name | Weight |"; lit "| Apple | 60% |";
                lit "|------|--------|"; lit "| Cash | 40% |"])
  = parse_portfolio_table
      (join [LF] [lit "| Name | Weight |"; lit "| Apple | 60% |";
                  lit "| Cash | 40% |"]).
Proof.
  apply (@decorative_line_ignored
           [lit "| Name | Weight |"; lit "| Apple | 60% |"]
           [lit "| Cash | 40% |"] (lit "|------|--------|")).
  - discriminate.
  - discriminate.
  - reflexivity.
  - repeat constructor.
  - reflexivity.
Defined.

(** X11: a block without a line that is not decorative (an empty block,
    a block of white space, a block of rows of dashes) gives no table. *)
Theorem decorative_block_none (table_md : str) :
  forallb decorative (splitlines (strip table_md)) = true ->
  parse_portfolio_table table_md = Ok None.
Proof.
  intros H. apply (@parse_unreadable _ EmptyDataError).
  apply no_clean_lines_unreadable. unfold clean_lines.
  induction (splitlines (strip table_md)) as [|l ls IH]; [reflexivity|].
  cbn [forallb] in H. apply andb_true_iff in H as [Hl Hls].
  cbn [filter]. rewrite Hl. cbn [negb]. now apply IH.
Qed.

Lemma decorative_block_none_witness :
  parse_portfolio_table [] = Ok None
  /\ parse_portfolio_table
       (join [LF] [lit "|------|--------|"; lit "| - | - |"; lit "|  |  |"])
     = Ok None.
Proof.
  split.
  - apply (@decorative_block_none []). reflexivity.
  - apply (@decorative_block_none
             (join [LF] [lit "|------|--------|"; lit "| - | - |";
                         lit "|  |  |"])).
    reflexivity.
Defined.

(* ================================================================== *)
(** * Percent signs and commas *)

Lemma digits_then_spaces_app (ds ws : str) :
  ds <> [] -> forallb is_digit ds = true -> forallb (N.eqb SPACE) ws = true ->
  digits_then_spaces (ds ++ ws) = true.
Proof.
  intros Hne Hd Hw. unfold digits_then_spaces.
  rewrite span_digits_app; [| exact Hd |].
  - rewrite Hw. now destruct ds.
  - destruct ws as [|c ws]; [exact I|]. cbn [forallb] in Hw.
    apply andb_true_iff in Hw as [Hc _]. apply N.eqb_eq in Hc. now subst c.
Qed.

(** X9: percent signs and commas are taken out of a weight cell wherever
    they stand.  A cell that is otherwise made of digits, possibly
    followed by spaces, is read as the whole number the digits write:
    [12,5%] is 125.  The digits are fifteen at most, so that the number
    is one that binary64 holds exactly. *)
Theorem weight_signs_ignored (s ds ws : str) :
  remove_char COMMA (remove_char PERCENT s) = ds ++ ws ->
  ds <> [] -> forallb is_digit ds = true -> length ds <= 15 ->
  forallb (N.eqb SPACE) ws = true ->
  weight_cell (read_cell s) = Number (Finite (decimal (digits_value ds) 0)).
Proof.
  intros E Hne Hd Hlen Hw.
  assert (Hshape : digits_then_spaces (ds ++ ws) = true)
    by now apply digits_then_spaces_app.
  rewrite <- E in Hshape.
  assert (Hread : read_cell s = Some s).
  { unfold read_cell. destruct (str_in s na_values) eqn:Hna; [|reflexivity].
    apply str_in_spec in Hna. exfalso. revert Hshape.
    assert (Hall : forallb
                     (fun x => negb (digits_then_spaces
                                       (remove_char COMMA
                                          (remove_char PERCENT x))))
                     na_values = true) by reflexivity.
    rewrite forallb_forall in Hall. specialize (Hall s Hna).
    apply negb_true_iff in Hall. rewrite Hall. discriminate. }
  rewrite Hread. unfold weight_cell. cbn [astype_str]. rewrite E.
  unfold to_numeric. rewrite parse_float_digits by (assumption || lia).
  destruct ds; [congruence | reflexivity].
Qed.

Lemma weight_signs_ignored_witness :
  weight_cell (read_cell (lit "12,5% ")) = Number (Finite 125%Q)
  /\ weight_cell (read_cell (lit "%1,00,0")) = Number (Finite 1000%Q).
Proof.
  split.
  - apply (@weight_signs_ignored (lit "12,5% ") (lit "125") (lit " "));
      (reflexivity || discriminate || (simpl; lia)).
  - apply (@weight_signs_ignored (lit "%1,00,0") (lit "1000") []);
      (reflexivity || discriminate || (simpl; lia)).
Defined.

(* ================================================================== *)
(** * The names of the columns *)

Lemma dropwhile_suffix p (s : str) : exists pre, s = pre ++ dropwhile p s.
Proof.
  induction s as [|c s IH]; [now exists []|]. cbn [dropwhile].
  destruct (p c); [|now exists []].
  destruct IH as (pre & E). exists (c :: pre). cbn [app]. now f_equal.
Qed.

Lemma dropwhile_idem p (s : str) :
  dropwhile p (dropwhile p s) = dropwhile p s.
Proof.
  induction s as [|c s IH]; [reflexivity|]. cbn [dropwhile].
  destruct (p c) eqn:E; [exact IH|]. cbn [dropwhile]. now rewrite E.
Qed.

Lemma dropwhile_head_false p (s : str) :
  match dropwhile p s with
  | c :: _ => p c = false
  | [] => True
  end.
Proof.
  induction s as [|c s IH]; [exact I|]. cbn [dropwhile].
  destruct (p c) eqn:E; [exact IH | exact E].
Qed.

Lemma rstrip_prefix (u : str) : exists t, u = rstrip u ++ t.
Proof.
  unfold rstrip. destruct (dropwhile_suffix is_space (rev u)) as (pre & E).
  exists (rev pre). rewrite <- rev_app_distr, <- E. now rewrite rev_involutive.
Qed.

Lemma rstrip_idem (u : str) : rstrip (rstrip u) = rstrip u.
Proof. unfold rstrip. now rewrite rev_involutive, dropwhile_idem. Qed.

(** Stripping a stripped text changes nothing. *)
Lemma strip_idem (s : str) : strip (strip s) = strip s.
Proof.
  unfold strip. set (u := lstrip s).
  assert (L : lstrip (rstrip u) = rstrip u).
  { destruct (rstrip_prefix u) as (t & E).
    pose proof (dropwhile_head_false is_space s) as Hh. fold (lstrip s) in Hh.
    fold u in Hh. destruct (rstrip u) as [|c r]; [reflexivity|].
    rewrite E in Hh. cbn [app] in Hh. unfold lstrip. cbn [dropwhile].
    now rewrite Hh. }
  rewrite L. apply rstrip_idem.
Qed.

(** X10: the column names of a returned table have no white space at
    their ends. *)
Theorem column_names_stripped table_md df :
  parse_portfolio_table table_md = Ok (Some df) ->
  Forall (fun c => strip c = c) (columns df).
Proof.
  intros H. apply parse_some_inv in H as (df0 & weight_col & _ & _ & _ & ->).
  cbn [columns]. unfold frame_columns. apply Forall_forall. intros c Hc.
  apply in_map_iff in Hc as (c0 & <- & _). apply strip_idem.
Qed.

Lemma column_names_stripped_witness :
  Forall (fun c => strip c = c) [lit "Name"; lit "Weight (%)"].
Proof.
  apply (@column_names_stripped
           (join [LF] [lit "|   Name   |   Weight (%)   |";
                       lit "| Apple | 60% |"])
           {| columns := [lit "Name"; lit "Weight (%)"];
              rows := [[Text (lit "Apple "); Number (Finite 60%Q)]] |}).
  reflexivity.
Defined.

(* ================================================================== *)
(** * The columns of the charts *)

Lemma find_weight_col_first cols :
  find_weight_col cols
  = match weight_cols cols with
    | [] => None
    | c :: _ => Some c
    end.
Proof.
  unfold weight_cols. induction cols as [|c cols IH]; [reflexivity|].
  cbn [find_weight_col filter]. now destruct (is_weight_name c).
Qed.

Lemma occurrences_In name cols : In name cols -> 1 <= occurrences name cols.
Proof.
  unfold occurrences. induction cols as [|c cols IH]; [intros []|].
  intros [->|H]; cbn [filter].
  - rewrite str_eqb_refl. cbn [length]. lia.
  - destruct (str_eqb name c); cbn [length]; [lia | now apply IH].
Qed.

(** X12: on a table that [parse_portfolio_table] returned, the choice
    of the columns of the charts raises no error, and the column of
    weights it makes is the column the parser converted: it is found
    under its name, which no other column bears, and every cell of it is
    a number.  The second column is never fallen back on. *)
Theorem chart_weight_column table_md df :
  parse_portfolio_table table_md = Ok (Some df) ->
  exists ticker_col weight_col,
    chart_columns (columns df) = Ok (ticker_col, weight_col)
    /\ find_weight_col (columns df) = Some weight_col
    /\ occurrences weight_col (columns df) = 1
    /\ Forall (fun r =>
                 is_number (nth (position weight_col (columns df)) r NaN)
                 = true)
              (rows df).
Proof.
  intros H. apply parse_some_rows in H as (weight_col & Hfind & Hocc & Hrows).
  destruct (find_weight_col_In _ Hfind) as [Hin _].
  pose proof (occurrences_In _ _ Hin) as Hone.
  pose proof Hfind as Hfirst. rewrite find_weight_col_first in Hfirst.
  unfold chart_columns.
  destruct (columns df) as [|c0 cols] eqn:Ecols; [destruct Hin|].
  cbn [index nth_error bind].
  destruct (weight_cols (c0 :: cols)) as [|wc wcs]; [discriminate|].
  injection Hfirst as ->. cbn [index nth_error bind].
  exists c0, weight_col. split; [reflexivity|]. split; [exact Hfind|].
  split; [lia|].
  eapply Forall_impl; [|exact Hrows]. intros r (_ & Hnan & r0 & E).
  rewrite E in *. rewrite nth_convert_row in *.
  now apply weight_cell_number.
Qed.

Lemma chart_weight_column_witness :
  exists ticker_col weight_col,
    chart_columns (columns scenario_result) = Ok (ticker_col, weight_col)
    /\ find_weight_col (columns scenario_result) = Some weight_col
    /\ occurrences weight_col (columns scenario_result) = 1
    /\ Forall (fun r =>
                 is_number
                   (nth (position weight_col (columns scenario_result)) r NaN)
                 = true)
              (rows scenario_result).
Proof.
  apply (@chart_weight_column (join [LF] scenario_table) scenario_result).
  reflexivity.
Defined.

(* ================================================================== *)
(** * What the page shows *)

Lemma collect_nothing (lines : list str) :
  existsb has_pipe lines = false -> collect lines [] false = [].
Proof.
  induction lines as [|l ls IH]; [reflexivity|].
  cbn [existsb collect]. intros H. apply orb_false_iff in H as [Hl Hls].
  rewrite Hl. cbn [andb]. now apply IH.
Qed.

Lemma collect_something (lines : list str) :
  existsb has_pipe lines = true -> collect lines [] false <> [].
Proof.
  intros H. rewrite collect_outside. cbn [app].
  destruct (contiguous_run_first _ H) as (line & rest & -> & Hp).
  cbn [filter]. now rewrite Hp.
Qed.

(** A block that is found is not the empty string, nor is its
    explanation. *)
Lemma block_shape (answer table_md explanation : str) :
  extract_markdown_table answer = Ok (Some table_md, explanation) ->
  is_empty table_md = false /\ is_empty explanation = false.
Proof.
  intros H. pose proof H as H'. apply extract_some_inv in H' as [Hne ->].
  rewrite (@extract_found _ _ eq_refl Hne) in H. injection H as <-. split.
  - pose proof (collect_has_pipe (splitlines answer)) as Hall.
    destruct (collect (splitlines answer) [] false) as [|l ls]; [congruence|].
    inversion Hall as [|? ? Hl _]; subst.
    destruct l as [|c l]; [discriminate Hl|]. now destruct ls.
  - now destruct (strip _).
Qed.

(** X13: when no line of the answer holds the separator, the page shows
    the notice of success and the whole answer as explanation (nothing,
    if the answer is empty): neither charts nor a message of failure. *)
Theorem page_without_table (answer : str) :
  existsb has_pipe (splitlines answer) = false ->
  render_recommendation answer
  = Ok (Success :: (if is_empty answer then [] else [Explanation answer])).
Proof.
  intros H. unfold render_recommendation.
  pose proof (extract_structure answer) as S.
  rewrite (collect_nothing _ H) in S. rewrite S. reflexivity.
Qed.

Lemma page_without_table_witness :
  render_recommendation (lit "No table today.")
  = Ok [Success; Explanation (lit "No table today.")].
Proof.
  apply (@page_without_table (lit "No table today.")). reflexivity.
Defined.

(** X14: when a line of the answer holds the separator, the page shows
    the notice of success, the explanation, and then one of three
    things: the charts of the table the parser returned; the message of
    failure alone, when the parser found no weight column; the parser's
    own error message and then the message of failure, when its [try]
    block raised. *)
Theorem page_with_table (answer : str) :
  existsb has_pipe (splitlines answer) = true ->
  exists table_md explanation outcome,
    extract_markdown_table answer = Ok (Some table_md, explanation)
    /\ render_recommendation answer
       = Ok (Success :: Explanation explanation :: outcome)
    /\ ((exists df, parse_portfolio_table_body table_md = Ok (Some df)
                    /\ outcome = [Charts df])
        \/ (parse_portfolio_table_body table_md = Ok None
            /\ outcome = [ParsingFailed])
        \/ (exists e, parse_portfolio_table_body table_md = Raise e
                      /\ outcome = [ParsingError e; ParsingFailed])).
Proof.
  intros H. apply collect_something in H.
  pose proof (@extract_found answer _ eq_refl H) as E.
  pose proof E as E'. apply block_shape in E' as [Ht He].
  set (table_md := join [LF] (collect (splitlines answer) [] false)) in *.
  set (explanation := strip (hd [] (split_from table_md answer 0 [])) ++ _)
    in *.
  assert (R : forall outcome,
            parse_reports table_md
            ++ match parse_portfolio_table table_md with
               | Ok (Some df) => [Charts df]
               | _ => [ParsingFailed]
               end = outcome ->
            render_recommendation answer
            = Ok (Success :: Explanation explanation :: outcome)).
  { intros outcome <-. unfold render_recommendation. rewrite E. cbn [bind].
    rewrite Ht, He. unfold parse_portfolio_table, parse_reports.
    now destruct (parse_portfolio_table_body table_md) as [[df|]|e]. }
  exists table_md, explanation.
  unfold parse_portfolio_table, parse_reports in R.
  destruct (parse_portfolio_table_body table_md) as [[df|]|e] eqn:P;
    cbn [try_except app] in R.
  - exists [Charts df]. split; [exact E|]. split; [now apply R|].
    left. now exists df.
  - exists [ParsingFailed]. split; [exact E|]. split; [now apply R|].
    right. left. now split.
  - exists [ParsingError e; ParsingFailed]. split; [exact E|].
    split; [now apply R|]. right. right. now exists e.
Qed.

Lemma page_with_table_witness :
  exists table_md explanation outcome,
    extract_markdown_table scenario_text = Ok (Some table_md, explanation)
    /\ render_recommendation scenario_text
       = Ok (Success :: Explanation explanation :: outcome)
    /\ ((exists df, parse_portfolio_table_body table_md = Ok (Some df)
                    /\ outcome = [Charts df])
        \/ (parse_portfolio_table_body table_md = Ok None
            /\ outcome = [ParsingFailed])
        \/ (exists e, parse_portfolio_table_body table_md = Raise e
                      /\ outcome = [ParsingError e; ParsingFailed])).
Proof.
  apply (@page_with_table scenario_text). reflexivity.
Defined.

(* ================================================================== *)
(** * Country names *)

Lemma get_cases d key default :
  get d key default = default \/ In (get d key default) (map snd d).
Proof.
  induction d as [|[k v] d IH]; [now left|]. cbn [get map snd].
  destruct (str_eqb k key); [right; now left|].
  destruct IH as [IH|IH]; [now left | right; now right].
Qed.

Lemma get_miss d key default :
  forallb (fun kv => negb (str_eqb (fst kv) key)) d = true ->
  get d key default = default.
Proof.
  induction d as [|[k v] d IH]; [reflexivity|]. cbn [forallb get fst].
  intros H. apply andb_true_iff in H as [Hk Hd].
  apply negb_true_iff in Hk. rewrite Hk. now apply IH.
Qed.

(** A name that ends with a space is none of the names translated. *)
Lemma country_name_space (x : str) :
  country_name (x ++ [SPACE]) = x ++ [SPACE].
Proof.
  unfold country_name. apply get_miss.
  assert (K : forallb (fun kv : str * str =>
                         negb (N.eqb (last (fst kv) 0%N) SPACE))
                      country_mapping = true) by reflexivity.
  rewrite forallb_forall in *. intros kv Hkv. specialize (K kv Hkv).
  apply negb_true_iff. apply negb_true_iff in K.
  destruct (str_eqb (fst kv) (x ++ [SPACE])) eqn:E; [|reflexivity].
  apply str_eqb_eq in E. rewrite E, last_last in K. discriminate K.
Qed.

(** X19: translating a country name twice is translating it once: the
    English names the mapping gives are not names it translates. *)
Theorem country_name_idempotent (x : str) :
  country_name (country_name x) = country_name x.
Proof.
  unfold country_name at 2 3.
  destruct (get_cases country_mapping x x) as [E|H];
    [rewrite E; exact E|].
  assert (V : forallb (fun v => str_eqb (country_name v) v)
                      (map snd country_mapping) = true) by reflexivity.
  rewrite forallb_forall in V. apply str_eqb_eq. now apply V.
Qed.

Lemma dropwhile_snoc p (c : str) x :
  dropwhile p (c ++ [x]) = [] \/ exists y, dropwhile p (c ++ [x]) = y ++ [x].
Proof.
  induction c as [|a c IH]; cbn [app dropwhile].
  - destruct (p x); [now left | right; now exists []].
  - destruct (p a); [exact IH|]. right. now exists (a :: c).
Qed.

(** The text the reader makes of a markdown cell ends with the space
    that stood before the separator. *)
Lemma read_field_space (c s : str) :
  read_cell (read_field c) = Some s -> exists s', s = s' ++ [SPACE].
Proof.
  unfold read_cell, read_field, skip_spaces.
  destruct (dropwhile_snoc (fun c => N.eqb c SPACE) c SPACE) as [E|(y & E)];
    rewrite E.
  - discriminate.
  - destruct (str_in (y ++ [SPACE]) na_values); [discriminate|].
    intros H. injection H as <-. now exists y.
Qed.

Lemma In_Text_convert_row w : forall (row : list (option str)) s,
  In (Text s) (convert_row w row) -> In (Some s) row.
Proof.
  induction w as [|w IH]; intros [|c rest] s H; try destruct H.
  - unfold weight_cell in H. destruct (to_numeric _); discriminate H.
  - right. apply in_map_iff in H as ([s0|] & E & Hin); [|discriminate E].
    injection E as ->. exact Hin.
  - left. destruct c; [|discriminate H]. injection H as ->. reflexivity.
  - right. now apply IH.
Qed.

(** X18: in the table returned for a well-formed markdown table, every
    text cell still ends with the space that stood before the separator,
    and the translation of country names leaves it as it is: a Korean
    country name written in such a table is not translated. *)
Theorem markdown_countries_untranslated hs sep rs weight_col :
  forallb header_name hs = true -> NoDup hs ->
  decorative sep = true ->
  rs <> [] ->
  Forall (fun r => length r = length hs /\ forallb table_cell r = true) rs ->
  Forall (fun r => decorative (markdown_row r) = false) rs ->
  find_weight_col hs = Some weight_col ->
  exists df,
    parse_portfolio_table (markdown_table hs sep rs) = Ok (Some df)
    /\ Forall (fun r => forall s, In (Text s) r ->
                          (exists s', s = s' ++ [SPACE])
                          /\ country_name s = s)
              (rows df).
Proof.
  intros Hnames Hnd Hsep Hrs Hrows Hrkept Hfind.
  eexists. split.
  { exact (@markdown_table_parsed hs sep rs weight_col Hnames Hnd Hsep Hrs
             Hrows Hrkept Hfind). }
  cbn [rows]. apply Forall_forall. intros r' Hr' s Hs.
  unfold dropna in Hr'. apply filter_In in Hr' as [Hr' _].
  apply in_map_iff in Hr' as (r0 & <- & Hr0).
  apply in_map_iff in Hr0 as (r & <- & Hr).
  apply In_Text_convert_row in Hs. unfold read_row in Hs.
  apply in_map_iff in Hs as (c & E & _).
  apply read_field_space in E as (s' & ->).
  split; [now exists s' | apply country_name_space].
Qed.

Lemma markdown_countries_untranslated_witness :
  parse_portfolio_table
    (join [LF] [ lit "| Name | Weight | Country |";
                 lit "|------|--------|---------|";
                 lit "| Samsung | 60% | " ++ [54620; 44397]%N ++ lit " |";
                 lit "| Apple | 40% | " ++ [48120; 44397]%N ++ lit " |" ])
  = Ok (Some {| columns := [lit "Name"; lit "Weight"; lit "Country"];
                rows := [ [Text (lit "Samsung "); Number (Finite 60%Q);
                           Text ([54620; 44397; 32]%N)];
                          [Text (lit "Apple "); Number (Finite 40%Q);
                           Text ([48120; 44397; 32]%N)] ] |})
  /\ country_name [54620; 44397; 32]%N = [54620; 44397; 32]%N
  /\ country_name [54620; 44397]%N = lit "South Korea".
Proof.
  split; [reflexivity|]. split; [|reflexivity].
  destruct (@markdown_countries_untranslated
              [lit "Name"; lit "Weight"; lit "Country"]
              (lit "|------|--------|---------|")
              [ [lit "Samsung"; lit "60%"; [54620; 44397]%N];
                [lit "Apple"; lit "40%"; [48120; 44397]%N] ]
              (lit "Weight")) as (df & Hparse & Hall).
  - reflexivity.
  - repeat constructor; simpl; intuition discriminate.
  - reflexivity.
  - discriminate.
  - repeat constructor.
  - repeat constructor.
  - reflexivity.
  - change (markdown_table [lit "Name"; lit "Weight"; lit "Country"]
              (lit "|------|--------|---------|")
              [ [lit "Samsung"; lit "60%"; [54620; 44397]%N];
                [lit "Apple"; lit "40%"; [48120; 44397]%N] ])
      with (join [LF]
              [ lit "| Name | Weight | Country |";
                lit "|------|--------|---------|";
                lit "| Samsung | 60% | " ++ [54620; 44397]%N ++ lit " |";
                lit "| Apple | 40% | " ++ [48120; 44397]%N ++ lit " |" ])
      in Hparse.
    assert (E : parse_portfolio_table
                  (join [LF]
                     [ lit "| Name | Weight | Country |";
                       lit "|------|--------|---------|";
                       lit "| Samsung | 60% | " ++ [54620; 44397]%N
                       ++ lit " |";
                       lit "| Apple | 40% | " ++ [48120; 44397]%N
                       ++ lit " |" ])
                = Ok (Some
                        {| columns := [lit "Name"; lit "Weight"; lit "Country"];
                           rows := [ [Text (lit "Samsung ");
                                      Number (Finite 60%Q);
                                      Text ([54620; 44397; 32]%N)];
                                     [Text (lit "Apple ");
                                      Number (Finite 40%Q);
                                      Text ([48120; 44397; 32]%N)] ] |}))
      by reflexivity.
    rewrite E in Hparse. injection Hparse as <-.
    inversion Hall as [|r rest H1 _]; subst.
    apply (H1 [54620; 44397; 32]%N). cbn. auto.
Defined.

(* ================================================================== *)
(** * The correlation matrix *)

Lemma above_succ n i : above n (S i) = above n i + (n - 1 - i).
Proof. reflexivity. Qed.

Lemma above_le n i k : i <= k -> above n i <= above n k.
Proof.
  induction 1 as [|k _ IH]; [lia|]. rewrite above_succ. lia.
Qed.

Lemma above_twice n i : i <= n -> 2 * above n i + i * i + i = 2 * i * n.
Proof.
  induction i as [|i IH]; intros H; [reflexivity|].
  rewrite above_succ. specialize (IH ltac:(lia)). nia.
Qed.

Lemma update_map_seq {A} (g : nat -> A) x : forall n s i,
  update (map g (seq s n)) i x
  = map (fun a => if a =? s + i then x else g a) (seq s n).
Proof.
  induction n as [|n IH]; intros s i; [reflexivity|].
  cbn [seq map]. destruct i as [|i]; cbn [update].
  - rewrite Nat.add_0_r, Nat.eqb_refl. f_equal.
    apply map_ext_in. intros a Ha. apply in_seq in Ha.
    destruct (Nat.eqb_spec a s); [lia | reflexivity].
  - destruct (Nat.eqb_spec s (s + S i)); [lia|]. f_equal.
    rewrite IH. apply map_ext. intros a.
    now replace (S s + i) with (s + S i) by lia.
Qed.

Section CorrelationFacts.

Variable float : Type.
Variables zero one : float.
Variable uniform : nat -> float.

Lemma matrix_of_ext n (f g : nat -> nat -> float) :
  (forall a b, a < n -> b < n -> f a b = g a b) ->
  matrix_of n f = matrix_of n g.
Proof.
  intros H. unfold matrix_of. apply map_ext_in. intros a Ha.
  apply map_ext_in. intros b Hb. apply in_seq in Ha, Hb. apply H; lia.
Qed.

Lemma nth_error_matrix_of n (f : nat -> nat -> float) i :
  i < n -> nth_error (matrix_of n f) i = Some (map (fun j => f i j) (seq 0 n)).
Proof.
  intros H. unfold matrix_of.
  rewrite nth_error_map, nth_error_nth' with (d := 0)
    by (rewrite length_seq; exact H).
  now rewrite seq_nth.
Qed.

Lemma entry_matrix_of n (f : nat -> nat -> float) i j :
  i < n -> j < n -> entry zero (matrix_of n f) i j = f i j.
Proof.
  intros Hi Hj. unfold entry.
  rewrite (@nth_error_nth _ _ _ _ [] (nth_error_matrix_of f Hi)).
  rewrite (nth_indep _ zero (f i 0)) by (rewrite length_map, length_seq; lia).
  rewrite (map_nth (fun j => f i j)). now rewrite seq_nth.
Qed.

Lemma setitem_matrix_of n (f : nat -> nat -> float) i j v :
  i < n -> j < n ->
  setitem (matrix_of n f) i j v
  = Ok (matrix_of n (fun a b => if (a =? i) && (b =? j) then v else f a b)).
Proof.
  intros Hi Hj. unfold setitem. rewrite nth_error_matrix_of by assumption.
  rewrite length_map, length_seq.
  destruct (Nat.ltb_spec j n); [|lia]. f_equal.
  unfold matrix_of at 1. rewrite update_map_seq. unfold matrix_of.
  apply map_ext_in. intros a Ha. cbn [Nat.add].
  destruct (Nat.eqb_spec a i) as [->|Hne].
  - rewrite update_map_seq. apply map_ext. intros b. cbn [Nat.add andb].
    reflexivity.
  - reflexivity.
Qed.

(** The inner loop from column [j0] on. *)
Lemma fill_row_from n i : forall len j0,
  i < j0 -> j0 + len = n ->
  fill_row uniform i (seq j0 len)
           (matrix_of n (partly_filled zero one uniform n i j0))
           (above n i + (j0 - i - 1))
  = Ok (matrix_of n (partly_filled zero one uniform n i n),
        above n i + (n - i - 1)).
Proof.
  induction len as [|len IH]; intros j0 Hij Hn.
  - cbn [seq fill_row]. now replace j0 with n by lia.
  - cbn [seq fill_row].
    rewrite setitem_matrix_of by lia. cbn [bind].
    rewrite setitem_matrix_of by lia. cbn [bind].
    rewrite (@matrix_of_ext n _ (partly_filled zero one uniform n i (S j0))).
    + replace (S (above n i + (j0 - i - 1)))
        with (above n i + (S j0 - i - 1)) by lia.
      apply IH; lia.
    + intros a b Ha Hb. unfold partly_filled, filled.
      destruct (Nat.eqb_spec a j0) as [Haj|Haj];
        destruct (Nat.eqb_spec b i) as [Hbi|Hbi];
        destruct (Nat.eqb_spec a i) as [Hai|Hai];
        destruct (Nat.eqb_spec b j0) as [Hbj|Hbj];
        cbn [andb]; try lia;
        repeat match goal with
               | |- context [Nat.eqb ?x ?y] =>
                   destruct (Nat.eqb_spec x y); try lia
               | |- context [Nat.ltb ?x ?y] =>
                   destruct (Nat.ltb_spec x y); try lia
               end;
        cbn [andb orb]; try reflexivity; try lia;
        replace (Nat.min a b) with i by lia;
        replace (Nat.max a b) with j0 by lia; reflexivity.
Qed.

(** The outer loop from row [i0] on. *)
Lemma fill_rows_from n : forall cnt i0,
  i0 + cnt = n ->
  fill_rows uniform n (seq i0 cnt)
            (matrix_of n (partly_filled zero one uniform n i0 i0))
            (above n i0)
  = Ok (matrix_of n (partly_filled zero one uniform n n n), above n n).
Proof.
  induction cnt as [|cnt IH]; intros i0 Hn.
  - cbn [seq fill_rows]. now replace i0 with n by lia.
  - cbn [seq fill_rows].
    rewrite (@matrix_of_ext n _ (partly_filled zero one uniform n i0 (i0 + 1))).
    + replace (above n i0) with (above n i0 + (i0 + 1 - i0 - 1)) at 1 by lia.
      rewrite (@fill_row_from n i0 (n - (i0 + 1)) (i0 + 1)) by lia.
      cbn [bind fst snd].
      rewrite (@matrix_of_ext n _
                 (partly_filled zero one uniform n (S i0) (S i0))).
      * replace (above n i0 + (n - i0 - 1)) with (above n (S i0))
          by (rewrite above_succ; lia).
        apply IH. lia.
      * intros a b Ha Hb. unfold partly_filled, filled.
        repeat match goal with
               | |- context [Nat.eqb ?x ?y] =>
                   destruct (Nat.eqb_spec x y); try lia
               | |- context [Nat.ltb ?x ?y] =>
                   destruct (Nat.ltb_spec x y); try lia
               end;
        cbn [andb orb]; try reflexivity; try lia.
    + intros a b Ha Hb. unfold partly_filled, filled.
      repeat match goal with
             | |- context [Nat.eqb ?x ?y] =>
                 destruct (Nat.eqb_spec x y); try lia
             | |- context [Nat.ltb ?x ?y] =>
                 destruct (Nat.ltb_spec x y); try lia
             end;
      cbn [andb orb]; try reflexivity; try lia.
Qed.

(** The matrix when the loops are done, and the number of values
    drawn. *)
Lemma corr_matrix_filled n :
  corr_matrix zero one uniform n
  = Ok (matrix_of n (partly_filled zero one uniform n n n), above n n).
Proof.
  unfold corr_matrix.
  replace (eye zero one n)
    with (matrix_of n (partly_filled zero one uniform n 0 0)).
  - now apply (@fill_rows_from n n 0).
  - unfold eye. apply matrix_of_ext. intros a b _ _.
    unfold partly_filled, filled. destruct (a =? b); [reflexivity|].
    now rewrite andb_false_r.
Qed.

Lemma matrix_of_length n (f : nat -> nat -> float) :
  length (matrix_of n f) = n.
Proof. unfold matrix_of. now rewrite length_map, length_seq. Qed.

Lemma matrix_of_row_length n (f : nat -> nat -> float) i :
  i < n -> length (nth i (matrix_of n f) []) = n.
Proof.
  intros Hi. rewrite (@nth_error_nth _ _ _ _ [] (nth_error_matrix_of f Hi)).
  now rewrite length_map, length_seq.
Qed.

(** X16: for every number of stocks the two loops end without an index
    out of range, and whatever values the generator gives, the matrix
    they leave is square, has ones on its diagonal and is symmetric. *)
Theorem corr_matrix_symmetric n :
  exists m drawn,
    corr_matrix zero one uniform n = Ok (m, drawn)
    /\ length m = n
    /\ (forall i, i < n -> length (nth i m []) = n)
    /\ (forall i, i < n -> entry zero m i i = one)
    /\ (forall i j, i < n -> j < n -> entry zero m i j = entry zero m j i).
Proof.
  do 2 eexists. split; [apply corr_matrix_filled|].
  split; [apply matrix_of_length|].
  split; [intros i Hi; now apply matrix_of_row_length|].
  split.
  - intros i Hi. rewrite entry_matrix_of by assumption.
    unfold partly_filled. now rewrite Nat.eqb_refl.
  - intros i j Hi Hj. rewrite !entry_matrix_of by assumption.
    unfold partly_filled, filled.
    rewrite (Nat.eqb_sym j i), (Nat.min_comm j i), (Nat.max_comm j i).
    reflexivity.
Qed.

(** X17: the loops draw one value for each pair of stocks, [n (n - 1) /
    2] in all, and the entries above the diagonal are these values row
    after row: the entry of row [i] and column [j] is the value drawn
    after [above n i + (j - i - 1)] others.  The matrix depends on the
    number of stocks and on the generator only. *)
Theorem corr_matrix_draws n :
  exists m drawn,
    corr_matrix zero one uniform n = Ok (m, drawn)
    /\ 2 * drawn = n * (n - 1)
    /\ forall i j, i < j -> j < n ->
         above n i + (j - i - 1) < drawn
         /\ entry zero m i j = uniform (above n i + (j - i - 1)).
Proof.
  do 2 eexists. split; [apply corr_matrix_filled|]. split.
  - pose proof (@above_twice n n (le_n n)). nia.
  - intros i j Hij Hj. split.
    + pose proof (@above_le n (S i) n ltac:(lia)) as H.
      rewrite above_succ in H. lia.
    + rewrite entry_matrix_of by lia. unfold partly_filled, filled.
      destruct (Nat.eqb_spec i j); [lia|].
      rewrite Nat.min_l, Nat.max_r by lia.
      destruct (Nat.ltb_spec i n); [reflexivity | lia].
Qed.

End CorrelationFacts.

(** The matrix of three stocks, with whole numbers for the values
    drawn. *)
Lemma corr_matrix_of_three :
  corr_matrix 0%Z 1%Z (fun k => Z.of_nat (10 + k)) 3
  = Ok ([ [1; 10; 11]; [10; 1; 12]; [11; 12; 1] ]%Z, 3).
Proof. reflexivity. Qed.

(* ================================================================== *)
(** * From the answer to the charts *)

Lemma markdown_row_line (cells : list str) :
  forallb table_cell cells = true ->
  has_pipe (markdown_row cells) = true /\ no_linebreak (markdown_row cells).
Proof.
  intros H. unfold markdown_row. split.
  - destruct (pipe_row_first (map markdown_cell cells)) as (rest & ->).
    reflexivity.
  - apply pipe_row_no_linebreak. apply Forall_forall. intros f Hf.
    apply in_map_iff in Hf as (c & <- & Hc).
    apply markdown_cell_no_linebreak, table_cell_no_linebreak.
    rewrite forallb_forall in H. now apply H.
Qed.

(** X15: for an answer made of prose, a well-formed markdown table and
    prose (the prose without separator, the row of dashes with one), the
    page shows the notice of success, the two parts of prose as
    explanation, and the charts of the table that the parser returns for
    the text of the table. *)
Theorem page_markdown_table (a b : str) hs sep rs weight_col :
  contains_char PIPE a = false -> contains_char PIPE b = false ->
  whole_lines a ->
  (b = [] \/ exists b', b = LF :: b') ->
  forallb header_name hs = true -> NoDup hs ->
  decorative sep = true -> has_pipe sep = true ->
  rs <> [] ->
  Forall (fun r => length r = length hs /\ forallb table_cell r = true) rs ->
  Forall (fun r => decorative (markdown_row r) = false) rs ->
  find_weight_col hs = Some weight_col ->
  exists df,
    parse_portfolio_table (markdown_table hs sep rs) = Ok (Some df)
    /\ render_recommendation (a ++ markdown_table hs sep rs ++ b)
       = Ok [Success; Explanation (strip a ++ [LF; LF] ++ strip b);
             Charts df].
Proof.
  intros Ha Hb Hwa Hwb Hnames Hnd Hsep Hpsep Hrs Hrows Hrkept Hfind.
  pose proof (@markdown_table_parsed hs sep rs weight_col Hnames Hnd Hsep Hrs
                Hrows Hrkept Hfind) as Hparse.
  eexists. split; [exact Hparse|].
  set (lines := markdown_row hs :: sep :: map markdown_row rs).
  assert (Hall : Forall (fun line => has_pipe line = true
                                     /\ no_linebreak line) lines).
  { unfold lines. constructor; [|constructor].
    - apply markdown_row_line. apply forallb_forall. intros h Hh.
      rewrite forallb_forall in Hnames. now apply header_name_facts, Hnames.
    - split; [exact Hpsep | now apply decorative_no_linebreak].
    - apply Forall_forall. intros l Hl.
      apply in_map_iff in Hl as (r & <- & Hr).
      rewrite Forall_forall in Hrows. now apply markdown_row_line, Hrows. }
  assert (Hne : lines <> []) by discriminate.
  assert (Hp : Forall (fun line => has_pipe line = true) lines).
  { eapply Forall_impl; [|exact Hall]. now intros l [H _]. }
  assert (E : extract_markdown_table (a ++ markdown_table hs sep rs ++ b)
              = Ok (Some (markdown_table hs sep rs),
                    strip a ++ [LF; LF] ++ strip b)).
  { change (markdown_table hs sep rs) with (join [LF] lines).
    rewrite extract_at by (auto using collect_between).
    now rewrite split_from_none by (auto using block_absent). }
  pose proof (block_shape _ E) as [Ht He].
  unfold render_recommendation. rewrite E. cbn [bind].
  rewrite Ht, He, Hparse. cbn [bind]. unfold parse_reports.
  unfold parse_portfolio_table in Hparse.
  destruct (parse_portfolio_table_body (markdown_table hs sep rs))
    as [[df|]|e]; [reflexivity | discriminate Hparse | discriminate Hparse].
Qed.

Lemma page_markdown_table_witness :
  render_recommendation scenario_text
  = Ok [Success;
        Explanation (lit "Here is your plan." ++ [LF; LF]
                     ++ lit "Risk notes follow.");
        Charts scenario_result].
Proof.
  destruct (@page_markdown_table
              (lit "Here is your plan." ++ [LF; LF])
              ([LF; LF] ++ lit "Risk notes follow.")
              [lit "Name"; lit "Ticker"; lit "Weight"; lit "Country"]
              (lit "|------|--------|--------|---------|")
              [ [lit "Apple"; lit "AAPL"; lit "40%"; lit "US"];
                [lit "Samsung"; lit "005930.KS"; lit "35%"; lit "KR"];
                [lit "Cash"; lit "-"; lit "bad"; lit "-"] ]
              (lit "Weight")) as (df & Hparse & Hpage).
  - reflexivity.
  - reflexivity.
  - right. exists (lit "Here is your plan." ++ [LF]). reflexivity.
  - right. eexists. reflexivity.
  - reflexivity.
  - repeat constructor; simpl; intuition discriminate.
  - reflexivity.
  - reflexivity.
  - discriminate.
  - repeat constructor.
  - repeat constructor.
  - reflexivity.
  - assert (P : parse_portfolio_table
                  (markdown_table
                     [lit "Name"; lit "Ticker"; lit "Weight"; lit "Country"]
                     (lit "|------|--------|--------|---------|")
                     [ [lit "Apple"; lit "AAPL"; lit "40%"; lit "US"];
                       [lit "Samsung"; lit "005930.KS"; lit "35%"; lit "KR"];
                       [lit "Cash"; lit "-"; lit "bad"; lit "-"] ])
                = Ok (Some scenario_result)) by reflexivity.
    rewrite P in Hparse. injection Hparse as <-. exact Hpage.
Defined.

(* ================================================================== *)
(** * A row with too many cells *)

(** The records the reader makes of a markdown table. *)
Lemma markdown_table_records hs sep rs :
  forallb table_cell hs = true ->
  Forall (fun r => forallb table_cell r = true) rs ->
  decorative sep = true ->
  rs <> [] ->
  decorative (markdown_row hs) = false ->
  Forall (fun r => decorative (markdown_row r) = false) rs ->
  tokenize (clean_table_md (markdown_table hs sep rs)) START_RECORD [] []
  = Ok (map (fun r => enclose (map read_field r)) (hs :: rs)).
Proof.
  intros Hh Hr Hsep Hne Hkept Hrkept.
  assert (P : forall r, forallb table_cell r = true ->
                forallb plain_field (map markdown_cell r) = true
                /\ Forall no_linebreak (map markdown_cell r)).
  { intros r H. rewrite forallb_forall in H. split.
    - apply forallb_forall. intros f Hf.
      apply in_map_iff in Hf as (c & <- & Hc). apply plain_markdown_cell. auto.
    - apply Forall_forall. intros f Hf.
      apply in_map_iff in Hf as (c & <- & Hc).
      apply markdown_cell_no_linebreak, table_cell_no_linebreak. auto. }
  unfold markdown_table, markdown_row.
  rewrite <- (map_map (map markdown_cell) pipe_row).
  change (sep :: map pipe_row (map (map markdown_cell) rs))
    with ([sep] ++ map pipe_row (map (map markdown_cell) rs)).
  rewrite pipe_table_records.
  - cbn [map]. f_equal. f_equal.
    + now rewrite map_map.
    + rewrite map_map. apply map_ext. intros r. now rewrite map_map.
  - now apply P.
  - now apply P.
  - apply Forall_forall. intros fs Hfs.
    apply in_map_iff in Hfs as (r & <- & Hin).
    rewrite Forall_forall in Hr. now apply P, Hr.
  - now repeat constructor.
  - exact Hkept.
  - apply Forall_forall. intros fs Hfs.
    apply in_map_iff in Hfs as (r & <- & Hin).
    rewrite Forall_forall in Hrkept. now apply Hrkept.
  - right. now destruct rs.
Qed.

(** X20: a data row after the first with more cells than the header and
    than the first data row makes the reader raise, and the function
    then has no table to return, whatever the other rows hold. *)
Theorem long_row_no_table hs sep (first long : list str) mid rest :
  forallb table_cell hs = true ->
  Forall (fun r => forallb table_cell r = true)
         (first :: mid ++ long :: rest) ->
  decorative sep = true ->
  decorative (markdown_row hs) = false ->
  Forall (fun r => decorative (markdown_row r) = false)
         (first :: mid ++ long :: rest) ->
  length hs < length long -> length first < length long ->
  parse_portfolio_table_body
    (markdown_table hs sep (first :: mid ++ long :: rest))
  = Raise ParserError
  /\ parse_portfolio_table
       (markdown_table hs sep (first :: mid ++ long :: rest))
     = Ok None.
Proof.
  intros Hh Hr Hsep Hkept Hrkept Hlh Hlf.
  assert (E : read_csv (clean_table_md
                          (markdown_table hs sep
                             (first :: mid ++ long :: rest)))
              = Raise ParserError).
  { unfold read_csv, read_table.
    rewrite markdown_table_records by (assumption || discriminate).
    cbn [map bind]. rewrite map_app. cbn [map].
    rewrite existsb_app. cbn [existsb].
    replace (Nat.max (length (enclose (map read_field hs)))
                     (length (enclose (map read_field first)))
             <? length (enclose (map read_field long))) with true.
    - now rewrite orb_true_r.
    - symmetry. apply Nat.ltb_lt. unfold enclose. cbn [length].
      rewrite !length_app, !length_map. cbn [length]. lia. }
  split.
  - unfold parse_portfolio_table_body. now rewrite E.
  - now apply (@parse_unreadable _ ParserError).
Qed.

Lemma long_row_no_table_witness :
  parse_portfolio_table
    (join [LF] [ lit "| Name | Weight |";
                 lit "|------|--------|";
                 lit "| Apple | 60% |";
                 lit "| Cash | 40% | see note |" ])
  = Ok None.
Proof.
  apply (@long_row_no_table
           [lit "Name"; lit "Weight"] (lit "|------|--------|")
           [lit "Apple"; lit "60%"] [lit "Cash"; lit "40%"; lit "see note"]
           [] []).
  - reflexivity.
  - repeat constructor.
  - reflexivity.
  - reflexivity.
  - repeat constructor.
  - simpl; lia.
  - simpl; lia.
Defined.

(* ================================================================== *)
(** * The keywords in any case *)

Lemma lower_app (a b : str) : lower (a ++ b) = lower a ++ lower b.
Proof. apply map_app. Qed.

(** X21: a column name is a weight name as soon as it holds one of the
    keywords in any mixture of upper and lower case, whatever stands
    before and after it. *)
Theorem keyword_any_case (p k q keyword : str) :
  In keyword keywords -> lower k = keyword ->
  is_weight_name (p ++ k ++ q) = true.
Proof.
  intros Hin Hk. unfold is_weight_name. apply existsb_exists.
  exists keyword. split; [exact Hin|].
  rewrite !lower_app, Hk. apply contains_app.
Qed.

Lemma keyword_any_case_witness :
  is_weight_name (lit "Target WEIGHT (%)") = true
  /\ is_weight_name (lit "P/E Ratio") = true.
Proof.
  split.
  - apply (@keyword_any_case (lit "Target ") (lit "WEIGHT") (lit " (%)")
             (lit "weight")); [now left | reflexivity].
  - apply (@keyword_any_case (lit "P/E ") (lit "Ratio") [] (lit "ratio"));
      [right; right; now left | reflexivity].
Defined.

(* ================================================================== *)
(** * The description of a survey *)

Lemma cut_at_LF : forall (a a' r r' : str),
  contains_char LF a = false -> contains_char LF a' = false ->
  a ++ LF :: r = a' ++ LF :: r' -> a = a' /\ r = r'.
Proof.
  induction a as [|x a IH]; intros [|y a'] r r' Ha Ha' E; cbn [app] in E.
  - injection E as E. now split.
  - injection E as <- _. discriminate Ha'.
  - injection E as -> _. discriminate Ha.
  - injection E as <- E. cbn [contains_char existsb] in Ha, Ha'.
    apply orb_false_iff in Ha as [_ Ha]. apply orb_false_iff in Ha' as [_ Ha'].
    destruct (IH a' r r' Ha Ha' E) as [-> ->]. now split.
Qed.

Lemma str_of_nat_inj n m : str_of_nat n = str_of_nat m -> n = m.
Proof.
  unfold str_of_nat. intros H. apply lit_inj in H.
  assert (Hn : forall k, Nat.to_uint k <> Decimal.Nil).
  { intros k E. pose proof (DecimalNat.Unsigned.of_to k) as O.
    rewrite E in O. destruct k; [|discriminate O].
    discriminate E. }
  pose proof (DecimalString.NilZero.usu _ (Hn n)) as U. rewrite H in U.
  rewrite (DecimalString.NilZero.usu _ (Hn m)) in U.
  injection U as U. symmetry. now apply DecimalNat.Unsigned.to_uint_inj.
Qed.

(** X22: the description tells the answers apart.  When no answer holds
    a line feed, two surveys with the same description have the same
    twelve answers as the description writes them (a list by its items
    joined with a comma and a space), and the same amount. *)
Theorem description_determines_answers (s1 s2 : survey) :
  forallb one_line (answers s1) = true ->
  forallb one_line (answers s2) = true ->
  get_portfolio_description s1 = get_portfolio_description s2 ->
  answers s1 = answers s2 /\ amount s1 = amount s2.
Proof.
  unfold answers, one_line, get_portfolio_description.
  cbn [forallb]. intros H1 H2 E.
  repeat match goal with
         | H : _ && _ = true |- _ => apply andb_true_iff in H as [? H]
         | H : negb _ = true |- _ => apply negb_true_iff in H
         end.
  repeat (apply app_inv_head in E;
          match type of E with
          | ?a ++ [LF] ++ _ = ?b ++ [LF] ++ _ =>
              apply cut_at_LF in E as [? E]; [|assumption..]
          end).
  apply app_inv_head in E. apply app_inv_tail in E.
  split; [|now apply str_of_nat_inj]. congruence.
Qed.

Lemma description_determines_answers_witness :
  answers sample_survey = answers sample_survey_one_sector
  /\ amount sample_survey = amount sample_survey_one_sector.
Proof.
  apply (@description_determines_answers
           sample_survey sample_survey_one_sector); reflexivity.
Defined.

(* ================================================================== *)
(** * Rows with one cell too many *)

(** Records longer than the header by [k] fields make a table with [k]
    index columns. *)
Lemma read_table_index s hd data k :
  tokenize s START_RECORD [] [] = Ok (hd :: data) ->
  data <> [] ->
  Forall (fun r => length r = length hd + k) data ->
  read_table s = Ok {| header := hd; leading_cols := k; body := data |}.
Proof.
  intros E Hne H. unfold read_table. rewrite E. cbn [bind].
  destruct data as [|first later]; [congruence|].
  inversion H as [|? ? Hfirst Hlater]; subst.
  rewrite Hfirst. replace (Nat.max (length hd) (length hd + k))
    with (length hd + k) by lia.
  assert (Hex : existsb (fun r => length hd + k <? length r) later = false).
  { clear -Hlater. induction Hlater as [|r later Hr _ IH]; [reflexivity|].
    cbn [existsb]. rewrite IH, Hr, Nat.ltb_irrefl. reflexivity. }
  rewrite Hex. f_equal. f_equal; [lia|].
  clear -H. induction H as [|r rest Hr _ IH]; [reflexivity|].
  cbn [map]. rewrite IH, pad_same by assumption. reflexivity.
Qed.

(** The names the reader gives to the columns of a markdown header. *)
Lemma markdown_column_names hs :
  forallb header_name hs = true -> NoDup hs ->
  column_names (enclose (map read_field hs))
  = (lit "Unnamed: " ++ str_of_nat 0)
      :: map (fun h => h ++ [SPACE]) hs
      ++ [lit "Unnamed: " ++ str_of_nat (S (length hs))].
Proof.
  intros Hnames Hnd. rewrite forallb_forall in Hnames.
  assert (Hfields : map skip_spaces (map markdown_cell hs)
                    = map (fun h => h ++ [SPACE]) hs).
  { rewrite map_map. apply map_ext_in. intros h Hh.
    rewrite skip_spaces_markdown_cell. apply read_field_trimmed.
    now apply header_name_facts, Hnames. }
  replace (map read_field hs) with (map skip_spaces (map markdown_cell hs))
    by now rewrite map_map.
  rewrite (@pipe_table_columns (map markdown_cell hs) []).
  - cbn [columns]. rewrite Hfields, !length_map. reflexivity.
  - rewrite Hfields. intros n Hn. apply in_map_iff in Hn as (h & <- & Hh).
    destruct (header_name_facts _ (Hnames h Hh)) as (_ & _ & Hu & He). auto.
  - rewrite Hfields. apply NoDup_map_NoDup_ForallPairs; [|assumption].
    intros a b _ _ E. now apply app_inv_tail in E.
Qed.

(** The table returned when every data row has one cell more than the
    header, before the rows without weight are set apart. *)
Lemma extra_cell_table hs sep rs weight_col :
  forallb header_name hs = true -> NoDup hs ->
  decorative sep = true ->
  rs <> [] ->
  Forall (fun r => length r = S (length hs) /\ forallb table_cell r = true)
         rs ->
  Forall (fun r => decorative (markdown_row r) = false) rs ->
  find_weight_col hs = Some weight_col ->
  parse_portfolio_table (markdown_table hs sep rs)
  = Ok (Some
          {| columns := hs;
             rows := dropna (position weight_col hs)
                       (map (fun r => convert_row (position weight_col hs)
                                        (read_row (tl r)))
                            rs) |}).
Proof.
  intros Hnames Hnd Hsep Hrs Hrows Hrkept Hfind.
  pose proof (markdown_header_kept _ Hfind) as Hkept.
  assert (Hcells : forallb table_cell hs = true).
  { apply forallb_forall. intros h Hh. rewrite forallb_forall in Hnames.
    now apply header_name_facts, Hnames. }
  assert (Hrc : Forall (fun r => forallb table_cell r = true) rs).
  { eapply Forall_impl; [|exact Hrows]. now intros r [_ H]. }
  pose proof (@markdown_table_records hs sep rs Hcells Hrc Hsep Hrs Hkept
                Hrkept) as T.
  cbn [map] in T.
  assert (Hread : read_csv (clean_table_md (markdown_table hs sep rs))
                  = Ok {| columns := column_names
                                       (enclose (map read_field hs));
                          rows := map (fun r => map read_cell (map read_field r)
                                                ++ [None]) rs |}).
  { unfold read_csv. rewrite (@read_table_index _ _ _ 1 T).
    - cbn [bind header leading_cols body]. do 2 f_equal.
      rewrite map_map. apply map_ext. intros r.
      unfold enclose. cbn [skipn]. rewrite map_app. reflexivity.
    - now destruct rs.
    - apply Forall_forall. intros f Hf.
      apply in_map_iff in Hf as (r & <- & Hr).
      rewrite Forall_forall in Hrows. destruct (Hrows r Hr) as [Hlen _].
      unfold enclose. cbn [length]. rewrite !length_app, !length_map.
      cbn [length]. unfold str in *. lia. }
  rewrite markdown_column_names in Hread by assumption.
  assert (Hmask : forall n, In n (map (fun h => h ++ [SPACE]) hs) ->
            startswith n (lit "Unnamed") = false).
  { intros n Hn. apply in_map_iff in Hn as (h & <- & Hh).
    rewrite forallb_forall in Hnames.
    now destruct (header_name_facts _ (Hnames h Hh)) as (_ & _ & Hu & _). }
  set (df := {| columns := _; rows := _ |}) in Hread.
  assert (Hcols : frame_columns df = hs).
  { unfold frame_columns, unnamed_mask, df. cbn [columns map].
    rewrite map_app. cbn [map].
    rewrite (@drop_masked_outer str (fun c => startswith c (lit "Unnamed")))
      by (assumption || reflexivity).
    rewrite map_map. rewrite <- (map_id hs) at 2.
    apply map_ext_in. intros h Hh. rewrite forallb_forall in Hnames.
    now apply strip_trimmed_space, header_name_facts, Hnames. }
  assert (Hfrows : frame_rows df = map (fun r => read_row (tl r)) rs).
  { unfold frame_rows, unnamed_mask, df. cbn [columns rows map].
    rewrite map_app. cbn [map]. rewrite map_map.
    apply map_ext_in. intros r Hr.
    rewrite Forall_forall in Hrows. destruct (Hrows r Hr) as [Hlen _].
    destruct r as [|c r]; [discriminate Hlen|]. cbn [map app tl].
    rewrite (@drop_masked_outer (option str)
               (fun c => startswith c (lit "Unnamed")));
      [unfold read_row; now rewrite map_map | assumption |].
    rewrite !length_map. cbn [length] in Hlen. unfold str in *. lia. }
  destruct (find_weight_col_In _ Hfind) as [Hin _].
  assert (Hocc : occurrences weight_col (frame_columns df) <= 1).
  { rewrite Hcols. now apply occurrences_NoDup. }
  assert (Hfind0 : find_weight_col (frame_columns df) = Some weight_col)
    by now rewrite Hcols.
  rewrite (parse_reaches_return _ Hread Hfind0 Hocc).
  rewrite Hcols, Hfrows, map_map. reflexivity.
Qed.

(** A row that is not decorative has a field with a character that is
    no separator, space or dash. *)
Lemma not_decorative_char (fs : list str) :
  decorative (pipe_row fs) = false ->
  exists f c, In f fs /\ In c f /\ decoration c = false.
Proof.
  intros H. destruct (forallb (forallb decoration) fs) eqn:E.
  - exfalso. assert (D : decorative (pipe_row fs) = true); [|congruence].
    apply decorative_iff. apply pipe_row_forallb; [reflexivity|].
    apply Forall_forall. intros f Hf. rewrite forallb_forall in E.
    now apply E.
  - assert (X : existsb (fun f => negb (forallb decoration f)) fs = true).
    { clear H. induction fs as [|f fs IH]; [discriminate|].
      cbn [forallb existsb] in *. destruct (forallb decoration f);
        [now apply IH | reflexivity]. }
    apply existsb_exists in X as (f & Hf & Hn). apply negb_true_iff in Hn.
    assert (Y : existsb (fun c => negb (decoration c)) f = true).
    { clear Hf. induction f as [|c f IH]; [discriminate|].
      cbn [forallb existsb] in *. destruct (decoration c);
        [now apply IH | reflexivity]. }
    apply existsb_exists in Y as (c & Hc & Hd). apply negb_true_iff in Hd.
    now exists f, c.
Qed.

(** A row is no more decorative for the cells put before or after its
    own. *)
Lemma markdown_row_more (r r' : list str) :
  (forall c, In c r -> In c r') ->
  decorative (markdown_row r) = false -> decorative (markdown_row r') = false.
Proof.
  intros Hin H. apply not_decorative_char in H as (f & c & Hf & Hc & Hd).
  apply in_map_iff in Hf as (x & <- & Hx).
  apply (@pipe_row_not_decorative _ (markdown_cell x) c);
    [apply in_map; auto | exact Hc | exact Hd].
Qed.

Lemma In_tl {A} (x : A) (l : list A) : In x (tl l) -> In x l.
Proof. destruct l; [auto|]. now right. Qed.

(** X23: when every data row of a markdown table has one cell more than
    the header, the reader takes the first field of the rows for an
    index, and every column gets the cell that stands one place to the
    right of its own: the first cell of each row is lost, and the table
    returned is the one returned for the table whose rows begin with
    their second cell. *)
Theorem extra_cell_shifts_columns hs sep rs weight_col :
  forallb header_name hs = true -> NoDup hs ->
  decorative sep = true ->
  rs <> [] ->
  Forall (fun r => length r = S (length hs) /\ forallb table_cell r = true)
         rs ->
  Forall (fun r => decorative (markdown_row (tl r)) = false) rs ->
  find_weight_col hs = Some weight_col ->
  exists df,
    parse_portfolio_table (markdown_table hs sep rs) = Ok (Some df)
    /\ parse_portfolio_table (markdown_table hs sep (map (@tl str) rs))
       = Ok (Some df)
    /\ columns df = hs.
Proof.
  intros Hnames Hnd Hsep Hrs Hrows Htl Hfind.
  eexists. split; [|split].
  - apply (@extra_cell_table hs sep rs weight_col); try assumption.
    eapply Forall_impl; [|exact Htl]. intros r.
    apply markdown_row_more. intros c. apply In_tl.
  - rewrite (@markdown_table_parsed hs sep (map (@tl str) rs) weight_col);
      try assumption.
    + now rewrite !map_map.
    + now destruct rs.
    + apply Forall_forall. intros t Ht.
      apply in_map_iff in Ht as (r & <- & Hr).
      rewrite Forall_forall in Hrows. destruct (Hrows r Hr) as [Hlen Hc].
      destruct r as [|c r]; [discriminate Hlen|]. cbn [tl length] in *.
      split; [unfold str in *; lia|].
      cbn [forallb] in Hc. now apply andb_true_iff in Hc as [_ Hc].
    + apply Forall_forall. intros t Ht.
      apply in_map_iff in Ht as (r & <- & Hr).
      rewrite Forall_forall in Htl. now apply Htl.
  - reflexivity.
Qed.

Lemma extra_cell_shifts_columns_witness :
  let hs := [lit "Name"; lit "Weight"] in
  let sep := lit "|------|--------|" in
  let rs := [ [lit "Apple"; lit "AAPL"; lit "60%"];
              [lit "Cash"; lit "40%"; lit "none"] ] in
  markdown_table hs sep rs
  = join [LF] [ lit "| Name | Weight |";
                lit "|------|--------|";
                lit "| Apple | AAPL | 60% |";
                lit "| Cash | 40% | none |" ]
  /\ markdown_table hs sep (map (@tl str) rs)
     = join [LF] [ lit "| Name | Weight |";
                   lit "|------|--------|";
                   lit "| AAPL | 60% |";
                   lit "| 40% | none |" ]
  /\ exists df,
       parse_portfolio_table (markdown_table hs sep rs) = Ok (Some df)
       /\ parse_portfolio_table (markdown_table hs sep (map (@tl str) rs))
          = Ok (Some df)
       /\ columns df = hs.
Proof.
  cbv zeta. split; [reflexivity|]. split; [reflexivity|].
  apply (@extra_cell_shifts_columns
           [lit "Name"; lit "Weight"] (lit "|------|--------|")
           [ [lit "Apple"; lit "AAPL"; lit "60%"];
             [lit "Cash"; lit "40%"; lit "none"] ]
           (lit "Weight")).
  - reflexivity.
  - repeat constructor; simpl; intuition discriminate.
  - reflexivity.
  - discriminate.
  - repeat constructor.
  - repeat constructor.
  - reflexivity.
Defined.


(* ================================================================== *)
(** * Rows with cells missing *)

(** Records no longer than the header are completed to its length. *)
Lemma read_table_padded s hd data :
  tokenize s START_RECORD [] [] = Ok (hd :: data) ->
  Forall (fun r => length r <= length hd) data ->
  read_table s
  = Ok {| header := hd; leading_cols := 0;
          body := map (pad (length hd)) data |}.
Proof.
  intros E H. unfold read_table. rewrite E. cbn [bind].
  destruct data as [|first later]; [reflexivity|].
  inversion H as [|? ? Hfirst Hlater]; subst.
  rewrite Nat.max_l by assumption. rewrite Nat.sub_diag.
  assert (Hex : existsb (fun r => length hd <? length r) later = false).
  { clear -Hlater. induction Hlater as [|r later Hr _ IH]; [reflexivity|].
    cbn [existsb]. rewrite IH. destruct (Nat.ltb_spec (length hd) (length r));
      [lia | reflexivity]. }
  now rewrite Hex.
Qed.

Lemma pad_enclose n (fs : list str) :
  length fs <= n ->
  pad (S (S n)) (enclose fs) = [] :: (fs ++ repeat [] (n - length fs)) ++ [[]].
Proof.
  intros H. unfold pad, enclose. cbn [length app].
  rewrite length_app. cbn [length].
  replace (S (S n) - S (length fs + 1)) with (n - length fs) by lia.
  f_equal. rewrite <- !app_assoc. f_equal. cbn [app].
  apply (repeat_cons (n - length fs) ([] : str)).
Qed.

(** The table returned when data rows have fewer cells than the header,
    before the rows without weight are set apart. *)
Lemma short_rows_table hs sep rs weight_col :
  forallb header_name hs = true -> NoDup hs ->
  decorative sep = true ->
  rs <> [] ->
  Forall (fun r => length r <= length hs /\ forallb table_cell r = true) rs ->
  Forall (fun r => decorative (markdown_row r) = false) rs ->
  find_weight_col hs = Some weight_col ->
  parse_portfolio_table (markdown_table hs sep rs)
  = Ok (Some
          {| columns := hs;
             rows := dropna (position weight_col hs)
                       (map (fun r =>
                               convert_row (position weight_col hs)
                                 (read_row r
                                  ++ repeat None (length hs - length r)))
                            rs) |}).
Proof.
  intros Hnames Hnd Hsep Hrs Hrows Hrkept Hfind.
  pose proof (markdown_header_kept _ Hfind) as Hkept.
  assert (Hcells : forallb table_cell hs = true).
  { apply forallb_forall. intros h Hh. rewrite forallb_forall in Hnames.
    now apply header_name_facts, Hnames. }
  assert (Hrc : Forall (fun r => forallb table_cell r = true) rs).
  { eapply Forall_impl; [|exact Hrows]. now intros r [_ H]. }
  pose proof (@markdown_table_records hs sep rs Hcells Hrc Hsep Hrs Hkept
                Hrkept) as T.
  cbn [map] in T.
  assert (Hlen : length (enclose (map read_field hs)) = S (S (length hs))).
  { unfold enclose. cbn [length]. rewrite length_app, length_map.
    cbn [length]. lia. }
  assert (Hread : read_csv (clean_table_md (markdown_table hs sep rs))
                  = Ok {| columns := column_names
                                       (enclose (map read_field hs));
                          rows :=
                            map (fun r =>
                                   None
                                   :: (read_row r
                                       ++ repeat None (length hs - length r))
                                   ++ [None]) rs |}).
  { unfold read_csv. rewrite (read_table_padded _ T).
    - cbn [bind header leading_cols body skipn]. do 2 f_equal.
      rewrite !map_map. apply map_ext_in. intros r Hr.
      rewrite Forall_forall in Hrows. destruct (Hrows r Hr) as [Hle _].
      rewrite Hlen. rewrite pad_enclose by now rewrite length_map.
      cbn [map]. rewrite !map_app, length_map, map_repeat, map_map.
      reflexivity.
    - apply Forall_forall. intros f Hf.
      apply in_map_iff in Hf as (r & <- & Hr).
      rewrite Forall_forall in Hrows. destruct (Hrows r Hr) as [Hle _].
      rewrite Hlen. unfold enclose. cbn [length].
      rewrite length_app, length_map. cbn [length]. unfold str in *. lia. }
  rewrite markdown_column_names in Hread by assumption.
  assert (Hmask : forall n, In n (map (fun h => h ++ [SPACE]) hs) ->
            startswith n (lit "Unnamed") = false).
  { intros n Hn. apply in_map_iff in Hn as (h & <- & Hh).
    rewrite forallb_forall in Hnames.
    now destruct (header_name_facts _ (Hnames h Hh)) as (_ & _ & Hu & _). }
  set (df := {| columns := _; rows := _ |}) in Hread.
  assert (Hcols : frame_columns df = hs).
  { unfold frame_columns, unnamed_mask, df. cbn [columns map].
    rewrite map_app. cbn [map].
    rewrite (@drop_masked_outer str (fun c => startswith c (lit "Unnamed")))
      by (assumption || reflexivity).
    rewrite map_map. rewrite <- (map_id hs) at 2.
    apply map_ext_in. intros h Hh. rewrite forallb_forall in Hnames.
    now apply strip_trimmed_space, header_name_facts, Hnames. }
  assert (Hfrows : frame_rows df
                   = map (fun r => read_row r
                                   ++ repeat None (length hs - length r)) rs).
  { unfold frame_rows, unnamed_mask, df. cbn [columns rows map].
    rewrite map_app. cbn [map]. rewrite map_map.
    apply map_ext_in. intros r Hr.
    rewrite Forall_forall in Hrows. destruct (Hrows r Hr) as [Hle _].
    apply (@drop_masked_outer (option str)
             (fun c => startswith c (lit "Unnamed"))); [assumption|].
    unfold read_row. rewrite length_app, !length_map, repeat_length.
    unfold str in *. lia. }
  destruct (find_weight_col_In _ Hfind) as [Hin _].
  assert (Hocc : occurrences weight_col (frame_columns df) <= 1).
  { rewrite Hcols. now apply occurrences_NoDup. }
  assert (Hfind0 : find_weight_col (frame_columns df) = Some weight_col)
    by now rewrite Hcols.
  rewrite (parse_reaches_return _ Hread Hfind0 Hocc).
  rewrite Hcols, Hfrows, map_map. reflexivity.
Qed.

Lemma filter_length_mono {A} (p q : A -> bool) (l : list A) :
  (forall x, In x l -> p x = true -> q x = true) ->
  length (filter p l) <= length (filter q l).
Proof.
  induction l as [|x l IH]; intros H; [apply Nat.le_refl|].
  cbn [filter]. assert (IH' := IH (fun y Hy => H y (or_intror Hy))).
  destruct (p x) eqn:Ep.
  - rewrite (H x (or_introl eq_refl) Ep). cbn [length]. lia.
  - destruct (q x); cbn [length]; lia.
Qed.

(** X24: a data row of a markdown table with fewer cells than the
    header is no error.  The reader completes it with missing values, and
    the table returned is the one returned for the table whose short rows
    are written out with empty cells; a row that stops before its weight
    cell is dropped. *)
Theorem short_rows_completed hs sep rs weight_col :
  forallb header_name hs = true -> NoDup hs ->
  decorative sep = true ->
  rs <> [] ->
  Forall (fun r => length r <= length hs /\ forallb table_cell r = true) rs ->
  Forall (fun r => decorative (markdown_row r) = false) rs ->
  find_weight_col hs = Some weight_col ->
  exists df,
    parse_portfolio_table (markdown_table hs sep rs) = Ok (Some df)
    /\ parse_portfolio_table
         (markdown_table hs sep (map (completed (length hs)) rs))
       = Ok (Some df)
    /\ columns df = hs
    /\ length (rows df)
       <= length (filter (fun r => position weight_col hs <? length r) rs).
Proof.
  intros Hnames Hnd Hsep Hrs Hrows Hrkept Hfind.
  set (w := position weight_col hs).
  assert (Hread : forall r,
            read_row (completed (length hs) r)
            = read_row r ++ repeat None (length hs - length r)).
  { intros r. unfold completed, read_row. now rewrite map_app, map_repeat. }
  eexists. split; [|split; [|split]].
  - now apply (@short_rows_table hs sep rs weight_col).
  - rewrite (@markdown_table_parsed hs sep (map (completed (length hs)) rs)
               weight_col); try assumption.
    + rewrite !map_map. do 4 f_equal. apply map_ext. intros r.
      now rewrite Hread.
    + now destruct rs.
    + apply Forall_forall. intros t Ht.
      apply in_map_iff in Ht as (r & <- & Hr).
      rewrite Forall_forall in Hrows. destruct (Hrows r Hr) as [Hlen Hc].
      unfold completed. split.
      * rewrite length_app, repeat_length. unfold str in *. lia.
      * rewrite forallb_app, Hc. apply forallb_forall. intros c Hin.
        apply repeat_spec in Hin. now subst c.
    + apply Forall_forall. intros t Ht.
      apply in_map_iff in Ht as (r & <- & Hr).
      rewrite Forall_forall in Hrkept.
      apply (@markdown_row_more r); [|now apply Hrkept].
      intros c Hc. unfold completed. apply in_or_app. now left.
  - reflexivity.
  - cbn [rows]. fold w.
    rewrite <- (map_map (fun r => read_row r
                                  ++ repeat None (length hs - length r))
                        (convert_row w)).
    rewrite dropna_convert, length_map, filter_map_swap, length_map.
    apply filter_length_mono. intros r Hr Hp.
    apply Nat.ltb_lt. destruct (Nat.lt_ge_cases w (length r)) as [|Hge];
      [assumption|]. exfalso.
    assert (E : nth w (read_row r ++ repeat None (length hs - length r)) None
                = None).
    { rewrite app_nth2 by (unfold read_row; now rewrite length_map).
      destruct (Nat.lt_ge_cases (w - length (read_row r))
                                (length hs - length r)) as [Hlt|Hout].
      - now rewrite nth_repeat_lt.
      - apply nth_overflow. now rewrite repeat_length. }
    cbv beta in Hp. rewrite E in Hp. discriminate Hp.
Qed.

Lemma short_rows_completed_witness :
  let hs := [lit "Name"; lit "Weight"; lit "Country"] in
  let sep := lit "|------|--------|---------|" in
  let rs := [ [lit "Apple"; lit "60%"; lit "US"];
              [lit "Cash"; lit "40%"];
              [lit "Gold"] ] in
  markdown_table hs sep rs
  = join [LF] [ lit "| Name | Weight | Country |";
                lit "|------|--------|---------|";
                lit "| Apple | 60% | US |";
                lit "| Cash | 40% |";
                lit "| Gold |" ]
  /\ markdown_table hs sep (map (completed (length hs)) rs)
     = join [LF] [ lit "| Name | Weight | Country |";
                   lit "|------|--------|---------|";
                   lit "| Apple | 60% | US |";
                   lit "| Cash | 40% |  |";
                   lit "| Gold |  |  |" ]
  /\ exists df,
       parse_portfolio_table (markdown_table hs sep rs) = Ok (Some df)
       /\ parse_portfolio_table
            (markdown_table hs sep (map (completed (length hs)) rs))
          = Ok (Some df)
       /\ columns df = hs
       /\ length (rows df) <= 2.
Proof.
  cbv zeta. split; [reflexivity|]. split; [reflexivity|].
  apply (@short_rows_completed
           [lit "Name"; lit "Weight"; lit "Country"]
           (lit "|------|--------|---------|")
           [ [lit "Apple"; lit "60%"; lit "US"];
             [lit "Cash"; lit "40%"];
             [lit "Gold"] ]
           (lit "Weight")).
  - reflexivity.
  - repeat constructor; simpl; intuition discriminate.
  - reflexivity.
  - discriminate.
  - repeat constructor; simpl; lia.
  - repeat constructor.
  - reflexivity.
Defined.
